(** * Hidden Markov Models of xmm ([src/models/hmm.cpp]): a shallow embedding

    The member functions of the C++ class [HMM] are translated one by one
    into functions on a record [HMM] that carries the members of the class.
    Loops become folds over the loop counter, a vector is a list read with
    [!!!] and written with [<[i:=x]>], and a function that can throw (or
    trip an [assert]) returns a [result].

    Numbers.  The code computes with [double]; the embedding is written once,
    over a class [Scalar] of the operations the code uses, and read at two
    instances: [binary64], the IEEE 754 doubles of the machine (Rocq's
    primitive floats), and [exact], the same operations without rounding on
    the rationals, where a division by zero is still not a number.  The
    element types of the member vectors are declared in [hmm.h]; here every
    member holds a scalar of the one type, and a value is rounded to single
    precision where [hmm.cpp] itself writes the cast.

    Collaborators.  The Gaussian mixture model of a state, the parent class
    [EMBasedModel], the phrase container, libjson and the helpers
    [vector2json] and [json2vector] are not part of [hmm.cpp]; what the file
    uses of them is gathered in the classes [EmissionModel] and [Host]. *)

From Stdlib Require Import ZArith QArith Qcanon Qabs Floats Lia Bool.
From stdpp Require Import base list strings.

#[local] Open Scope Z_scope.

(** ** Numbers *)

Class Scalar (F : Type) := {
  fzero : F;                       (* 0. *)
  fone : F;                        (* 1. *)
  fhalf : F;                       (* 0.5 *)
  fhuge : F;                       (* 1e100 *)
  fadd : F -> F -> F;
  fsub : F -> F -> F;
  fmul : F -> F -> F;
  fdiv : F -> F -> F;
  fopp : F -> F;
  fabs : F -> F;                   (* abs *)
  fltb : F -> F -> bool;           (* x < y *)
  fisnan : F -> bool;              (* isnan *)
  fisinf : F -> bool;              (* isinf *)
  of_int : Z -> F;                 (* double(n) *)
  to_int : F -> Z;                 (* int(x), truncation *)
  fsingle : F -> F                 (* (float)x, rounding to single precision *)
}.

Declare Scope scalar_scope.
Delimit Scope scalar_scope with sc.
Notation "x + y" := (fadd x y) : scalar_scope.
Notation "x - y" := (fsub x y) : scalar_scope.
Notation "x * y" := (fmul x y) : scalar_scope.
Notation "x / y" := (fdiv x y) : scalar_scope.
Notation "- x" := (fopp x) : scalar_scope.

(** [x > 0] as the code writes it. *)
Definition fpos {F} `{Scalar F} (x : F) : bool := fltb fzero x.

(** *** IEEE 754 binary64 *)

Definition float_of_int (n : Z) : float :=
  SF2Prim (binary_normalize prec emax n 0 false).

Definition float_to_int (x : float) : Z :=
  match Prim2SF x with
  | S754_finite s m e =>
      let v := if 0 <=? e then Z.pos m * 2 ^ e else Z.pos m / 2 ^ (- e) in
      if s then - v else v
  | _ => 0
  end.

(** Rounding to the nearest binary32 value, ties to even (24 bits of
    precision, exponents below 128); the result is again a double. *)
Definition float_single (x : float) : float :=
  match Prim2SF x with
  | S754_finite s m e =>
      SF2Prim (binary_normalize 24 128 (cond_Zopp s (Z.pos m)) e s)
  | _ => x
  end.

#[export] Instance binary64 : Scalar float := {|
  fzero := 0%float;
  fone := 1%float;
  fhalf := 0.5%float;
  fhuge := 0x1.249ad2594c37dp+332%float;
  fadd := PrimFloat.add;
  fsub := PrimFloat.sub;
  fmul := PrimFloat.mul;
  fdiv := PrimFloat.div;
  fopp := PrimFloat.opp;
  fabs := PrimFloat.abs;
  fltb := PrimFloat.ltb;
  fisnan := PrimFloat.is_nan;
  fisinf := PrimFloat.is_infinity;
  of_int := float_of_int;
  to_int := float_to_int;
  fsingle := float_single
|}.

(** *** Exact arithmetic

    A rational, or [NaN] for what a division by zero yields and everything
    computed from it.  Comparisons with [NaN] are false, as in IEEE 754. *)

Inductive exact : Type :=
  | Fin (q : Qc)
  | NaN.

Definition exact_lift2 (op : Qc -> Qc -> Qc) (x y : exact) : exact :=
  match x, y with
  | Fin a, Fin b => Fin (op a b)
  | _, _ => NaN
  end.

Definition exact_lift1 (op : Qc -> Qc) (x : exact) : exact :=
  match x with
  | Fin a => Fin (op a)
  | NaN => NaN
  end.

Definition exact_div (x y : exact) : exact :=
  match x, y with
  | Fin a, Fin b => if Qc_eq_dec b 0%Qc then NaN else Fin (a / b)%Qc
  | _, _ => NaN
  end.

Definition exact_ltb (x y : exact) : bool :=
  match x, y with
  | Fin a, Fin b => match (a ?= b)%Qc with Lt => true | _ => false end
  | _, _ => false
  end.

Definition exact_isnan (x : exact) : bool :=
  match x with NaN => true | Fin _ => false end.

#[export] Instance exact_scalar : Scalar exact := {|
  fzero := Fin 0%Qc;
  fone := Fin 1%Qc;
  fhalf := Fin (Q2Qc (1 # 2));
  fhuge := Fin (Q2Qc (inject_Z (10 ^ 100)));
  fadd := exact_lift2 Qcplus;
  fsub := exact_lift2 Qcminus;
  fmul := exact_lift2 Qcmult;
  fdiv := exact_div;
  fopp := exact_lift1 Qcopp;
  fabs := exact_lift1 (fun q => Q2Qc (Qabs q));
  fltb := exact_ltb;
  fisnan := exact_isnan;
  fisinf := fun _ => false;
  of_int := fun n => Fin (Q2Qc (inject_Z n));
  to_int := fun x => match x with
                     | Fin q => Z.quot (Qnum q) (Z.pos (Qden q))
                     | NaN => 0
                     end;
  fsingle := fun x => x
|}.

(** ** Outcomes of a call *)

Inductive exn : Type :=
  | runtime_error (what : string)
  | invalid_argument (what : string)
  | out_of_range (what : string)
  | length_error (what : string)
  | JSONException (what : string).

(** [Throw e]: the call leaves by the exception [e].  [Abort]: an [assert]
    failed.  [Undefined]: the call runs into undefined behaviour that the
    embedding tracks (a null training set, an index of [-1]). *)
Inductive result (A : Type) : Type :=
  | Ok (a : A)
  | Throw (e : exn)
  | Abort (what : string)
  | Undefined.
Arguments Ok {A} a.
Arguments Throw {A} e.
Arguments Abort {A} what.
Arguments Undefined {A}.

Definition bind {A B} (r : result A) (k : A -> result B) : result B :=
  match r with
  | Ok a => k a
  | Throw e => Throw e
  | Abort w => Abort w
  | Undefined => Undefined
  end.

#[export] Instance result_bind : MBind result := fun A B k r => bind r k.
#[export] Instance result_ret : MRet result := @Ok.

Definition assert (b : bool) (what : string) : result unit :=
  if b then Ok tt else Abort what.

Definition is_Ok {A} (r : result A) : Prop :=
  match r with Ok _ => True | _ => False end.

Definition throws {A} (r : result A) : Prop :=
  match r with Throw _ => True | _ => False end.

(** ** Loops

    [for (int i = 0; i < n; i++) body]: the state [s] goes through the body
    once per value of the counter, in increasing order. *)

Definition for_loop {St} (n : nat) (body : nat -> St -> St) (s : St) : St :=
  foldl (fun s i => body i s) s (seq 0 n).

Definition for_loopM {St} (n : nat) (body : nat -> St -> result St) (s : St)
  : result St :=
  foldl (fun r i => bind r (body i)) (Ok s) (seq 0 n).

(** [for (int t = n-1; t >= 0; t--) body]. *)
Definition for_down {St} (n : nat) (body : nat -> St -> result St) (s : St)
  : result St :=
  foldl (fun r i => bind r (body i)) (Ok s) (reverse (seq 0 n)).

(** [for (it = begin; it != end; it++)] over a container. *)
Definition for_each {A St} (l : list A) (body : A -> St -> St) (s : St) : St :=
  foldl (fun s a => body a s) s l.

Definition for_eachM {A St} (l : list A) (body : A -> St -> result St) (s : St)
  : result St :=
  foldl (fun r a => bind r (body a)) (Ok s) l.

(** ** Data *)

(** *** libjson's [JSONNode]: a named value. *)
#[warnings="-register-all"]
Inductive JSONNode (F : Type) : Type :=
  | JSON_NULL (name : string)
  | JSON_STRING (name : string) (s : string)
  | JSON_NUMBER (name : string) (x : F)
  | JSON_BOOL (name : string) (b : bool)
  | JSON_ARRAY (name : string) (children : list (JSONNode F))
  | JSON_NODE (name : string) (children : list (JSONNode F)).
Arguments JSON_NULL {F} name.
Arguments JSON_STRING {F} name s.
Arguments JSON_NUMBER {F} name x.
Arguments JSON_BOOL {F} name b.
Arguments JSON_ARRAY {F} name children.
Arguments JSON_NODE {F} name children.

Inductive JSONType : Type :=
  | T_NULL | T_STRING | T_NUMBER | T_BOOL | T_ARRAY | T_NODE.

#[export] Instance JSONType_eq_dec : EqDecision JSONType.
Proof. solve_decision. Defined.

Section Json.
Context {F : Type} `{Scalar F}.

Definition json_name (n : JSONNode F) : string :=
  match n with
  | JSON_NULL x | JSON_STRING x _ | JSON_NUMBER x _ | JSON_BOOL x _
  | JSON_ARRAY x _ | JSON_NODE x _ => x
  end.

Definition json_type (n : JSONNode F) : JSONType :=
  match n with
  | JSON_NULL _ => T_NULL
  | JSON_STRING _ _ => T_STRING
  | JSON_NUMBER _ _ => T_NUMBER
  | JSON_BOOL _ _ => T_BOOL
  | JSON_ARRAY _ _ => T_ARRAY
  | JSON_NODE _ _ => T_NODE
  end.

Definition set_name (x : string) (n : JSONNode F) : JSONNode F :=
  match n with
  | JSON_NULL _ => JSON_NULL x
  | JSON_STRING _ s => JSON_STRING x s
  | JSON_NUMBER _ v => JSON_NUMBER x v
  | JSON_BOOL _ b => JSON_BOOL x b
  | JSON_ARRAY _ c => JSON_ARRAY x c
  | JSON_NODE _ c => JSON_NODE x c
  end.

(** [begin()] .. [end()]: the children, in order. *)
Definition json_children (n : JSONNode F) : list (JSONNode F) :=
  match n with
  | JSON_ARRAY _ c | JSON_NODE _ c => c
  | _ => []
  end.

Definition as_bool (n : JSONNode F) : bool :=
  match n with
  | JSON_BOOL _ b => b
  | JSON_NUMBER _ x => negb (to_int x =? 0)
  | _ => false
  end.

Definition as_float (n : JSONNode F) : F :=
  match n with
  | JSON_NUMBER _ x => x
  | JSON_BOOL _ b => if b then fone else fzero
  | _ => fzero
  end.

Definition as_int (n : JSONNode F) : Z := to_int (as_float n).
End Json.

(** *** The state's emission model (class [GMM])

    [hmm.cpp] reads and writes the mixture coefficients and the mean and
    covariance of each component; the other members of a [GMM], and those of
    the parent classes, are private data of types left open. *)

Class PrivateData := {
  GMM_private : Type;
  EM_private : Type
}.

Record GaussianDistribution (F : Type) : Type := {
  mean : list F;
  covariance : list F
}.
Arguments mean {F}.
Arguments covariance {F}.

Record GMM `{PrivateData} (F : Type) : Type := {
  components : list (GaussianDistribution F);
  mixtureCoeffs : list F;
  gmm_private : GMM_private
}.
Arguments components {_ F}.
Arguments mixtureCoeffs {_ F}.
Arguments gmm_private {_ F}.

(** *** Phrases and the training set

    A phrase is what [hmm.cpp] calls on it: [length()], [operator()(t, d)]
    and the three frame pointers. *)
Record Phrase (F : Type) : Type := {
  length_ : Z;
  at_ : nat -> nat -> F;
  get_dataPointer : nat -> list F;
  get_dataPointer_input : nat -> list F;
  get_dataPointer_output : nat -> list F
}.
Arguments length_ {F}.
Arguments at_ {F}.
Arguments get_dataPointer {F}.
Arguments get_dataPointer_input {F}.
Arguments get_dataPointer_output {F}.

(** [map<int, Phrase*> phrases]: the entries in the order of iteration. *)
Record TrainingSet (F : Type) : Type := {
  phrases : list (Z * Phrase F)
}.
Arguments phrases {F}.

Section TrainingSetOps.
Context {F : Type}.

Definition is_empty (ts : TrainingSet F) : bool :=
  match phrases ts with [] => true | _ => false end.

Definition size (ts : TrainingSet F) : Z := Z.of_nat (length (phrases ts)).

(** [operator()(n)]: throws [out_of_range] if the phrase does not exist. *)
Definition phrase_at (ts : TrainingSet F) (n : Z) : result (Phrase F) :=
  match list_find (fun e => e.1 = n) (phrases ts) with
  | Some (_, e) => Ok e.2
  | None => Throw (out_of_range "Training set: phrase does not exist")
  end.
End TrainingSetOps.

(** *** The model *)

Inductive TRANSITION_MODE : Type := ERGODIC | LEFT_RIGHT.

#[export] Instance TRANSITION_MODE_eq_dec : EqDecision TRANSITION_MODE.
Proof. solve_decision. Defined.

(** The members of the parent classes that [hmm.cpp] reads or writes. *)
Record EMBasedModel `{PrivateData} (F : Type) : Type := {
  flags_ : Z;
  trainingSet : option (TrainingSet F);
  bimodal_ : bool;
  dimension_ : Z;
  dimension_input_ : Z;
  trained : bool;
  em_private : EM_private
}.
Arguments flags_ {_ F}.
Arguments trainingSet {_ F}.
Arguments bimodal_ {_ F}.
Arguments dimension_ {_ F}.
Arguments dimension_input_ {_ F}.
Arguments trained {_ F}.
Arguments em_private {_ F}.

(** The members of [HMM] that the training and file functions use.  The
    members used only while playing ([forwardInitialized_], [alpha_h],
    [results_hmm], [play_EM_stopCriterion_]) are kept beside the model, in
    the record [Playing]. *)
Record HMM `{PrivateData} (F : Type) : Type := {
  parent : EMBasedModel F;
  is_hierarchical_ : bool;
  nbStates_ : Z;
  nbMixtureComponents_ : Z;
  covarianceOffset_ : F;
  transitionMode_ : TRANSITION_MODE;
  estimateMeans_ : bool;
  prior_ : list F;
  transition_ : list F;
  exitProbabilities_ : list F;
  states_ : list (GMM F);
  alpha : list F;
  previousAlpha_ : list F;
  beta_ : list F;
  previousBeta_ : list F;
  gammaSequence_ : list (list F);
  epsilonSequence_ : list (list F);
  gammaSequencePerMixture_ : list (list (list F));
  alpha_seq_ : list F;
  beta_seq_ : list F;
  gammaSum_ : list F;
  gammaSumPerMixture_ : list F
}.
Arguments parent {_ F}.
Arguments is_hierarchical_ {_ F}.
Arguments nbStates_ {_ F}.
Arguments nbMixtureComponents_ {_ F}.
Arguments covarianceOffset_ {_ F}.
Arguments transitionMode_ {_ F}.
Arguments estimateMeans_ {_ F}.
Arguments prior_ {_ F}.
Arguments transition_ {_ F}.
Arguments exitProbabilities_ {_ F}.
Arguments states_ {_ F}.
Arguments alpha {_ F}.
Arguments previousAlpha_ {_ F}.
Arguments beta_ {_ F}.
Arguments previousBeta_ {_ F}.
Arguments gammaSequence_ {_ F}.
Arguments epsilonSequence_ {_ F}.
Arguments gammaSequencePerMixture_ {_ F}.
Arguments alpha_seq_ {_ F}.
Arguments beta_seq_ {_ F}.
Arguments gammaSum_ {_ F}.
Arguments gammaSumPerMixture_ {_ F}.

(** Assignment to a member: the record with that member replaced.  The
    tactic builds [fun f r => {| ...; p := f (p r); ... |}] from the
    eta-expansion of the record. *)
Ltac member_update eta proj :=
  lazymatch eval pattern proj in eta with
  | ?ctx _ =>
      let t := eval cbv beta in (fun f r => ctx (fun r' => f (proj r')) r) in
      exact t
  end.

Section Updates.
Context `{PrivateData} {F : Type}.

Let eta_gauss := fun g : GaussianDistribution F =>
  Build_GaussianDistribution F (mean g) (covariance g).
Definition upd_mean : (list F -> list F) -> _ -> GaussianDistribution F :=
  ltac:(let e := eval cbv delta [eta_gauss] in eta_gauss in member_update e (@mean F)).
Definition upd_covariance : (list F -> list F) -> _ -> GaussianDistribution F :=
  ltac:(let e := eval cbv delta [eta_gauss] in eta_gauss in member_update e (@covariance F)).

Let eta_gmm := fun g : GMM F => Build_GMM _ F (components g) (mixtureCoeffs g) (gmm_private g).
Definition upd_components
  : (list (GaussianDistribution F) -> list (GaussianDistribution F)) -> _ -> GMM F :=
  ltac:(let e := eval cbv delta [eta_gmm] in eta_gmm in member_update e (@components _ F)).
Definition upd_mixtureCoeffs : (list F -> list F) -> _ -> GMM F :=
  ltac:(let e := eval cbv delta [eta_gmm] in eta_gmm in member_update e (@mixtureCoeffs _ F)).

Let eta_em := fun b : EMBasedModel F =>
  Build_EMBasedModel _ F (flags_ b) (trainingSet b) (bimodal_ b) (dimension_ b)
    (dimension_input_ b) (trained b) (em_private b).
Definition upd_dimension_ : (Z -> Z) -> _ -> EMBasedModel F :=
  ltac:(let e := eval cbv delta [eta_em] in eta_em in member_update e (@dimension_ _ F)).
Definition upd_trained : (bool -> bool) -> _ -> EMBasedModel F :=
  ltac:(let e := eval cbv delta [eta_em] in eta_em in member_update e (@trained _ F)).

Let eta_hmm := fun m : HMM F =>
  Build_HMM _ F (parent m) (is_hierarchical_ m) (nbStates_ m)
    (nbMixtureComponents_ m) (covarianceOffset_ m) (transitionMode_ m)
    (estimateMeans_ m) (prior_ m) (transition_ m) (exitProbabilities_ m)
    (states_ m) (alpha m) (previousAlpha_ m) (beta_ m) (previousBeta_ m)
    (gammaSequence_ m) (epsilonSequence_ m) (gammaSequencePerMixture_ m)
    (alpha_seq_ m) (beta_seq_ m) (gammaSum_ m) (gammaSumPerMixture_ m).

Definition upd_parent : (EMBasedModel F -> EMBasedModel F) -> _ -> HMM F :=
  ltac:(let e := eval cbv delta [eta_hmm] in eta_hmm in member_update e (@parent _ F)).
Definition upd_nbStates_ : (Z -> Z) -> _ -> HMM F :=
  ltac:(let e := eval cbv delta [eta_hmm] in eta_hmm in member_update e (@nbStates_ _ F)).
Definition upd_nbMixtureComponents_ : (Z -> Z) -> _ -> HMM F :=
  ltac:(let e := eval cbv delta [eta_hmm] in eta_hmm in member_update e (@nbMixtureComponents_ _ F)).
Definition upd_covarianceOffset_ : (F -> F) -> _ -> HMM F :=
  ltac:(let e := eval cbv delta [eta_hmm] in eta_hmm in member_update e (@covarianceOffset_ _ F)).
Definition upd_transitionMode_ : (TRANSITION_MODE -> TRANSITION_MODE) -> _ -> HMM F :=
  ltac:(let e := eval cbv delta [eta_hmm] in eta_hmm in member_update e (@transitionMode_ _ F)).
Definition upd_estimateMeans_ : (bool -> bool) -> _ -> HMM F :=
  ltac:(let e := eval cbv delta [eta_hmm] in eta_hmm in member_update e (@estimateMeans_ _ F)).
Definition upd_prior_ : (list F -> list F) -> _ -> HMM F :=
  ltac:(let e := eval cbv delta [eta_hmm] in eta_hmm in member_update e (@prior_ _ F)).
Definition upd_transition_ : (list F -> list F) -> _ -> HMM F :=
  ltac:(let e := eval cbv delta [eta_hmm] in eta_hmm in member_update e (@transition_ _ F)).
Definition upd_exitProbabilities_ : (list F -> list F) -> _ -> HMM F :=
  ltac:(let e := eval cbv delta [eta_hmm] in eta_hmm in member_update e (@exitProbabilities_ _ F)).
Definition upd_states_ : (list (GMM F) -> list (GMM F)) -> _ -> HMM F :=
  ltac:(let e := eval cbv delta [eta_hmm] in eta_hmm in member_update e (@states_ _ F)).
Definition upd_alpha : (list F -> list F) -> _ -> HMM F :=
  ltac:(let e := eval cbv delta [eta_hmm] in eta_hmm in member_update e (@alpha _ F)).
Definition upd_previousAlpha_ : (list F -> list F) -> _ -> HMM F :=
  ltac:(let e := eval cbv delta [eta_hmm] in eta_hmm in member_update e (@previousAlpha_ _ F)).
Definition upd_beta_ : (list F -> list F) -> _ -> HMM F :=
  ltac:(let e := eval cbv delta [eta_hmm] in eta_hmm in member_update e (@beta_ _ F)).
Definition upd_previousBeta_ : (list F -> list F) -> _ -> HMM F :=
  ltac:(let e := eval cbv delta [eta_hmm] in eta_hmm in member_update e (@previousBeta_ _ F)).
Definition upd_gammaSequence_ : (list (list F) -> list (list F)) -> _ -> HMM F :=
  ltac:(let e := eval cbv delta [eta_hmm] in eta_hmm in member_update e (@gammaSequence_ _ F)).
Definition upd_epsilonSequence_ : (list (list F) -> list (list F)) -> _ -> HMM F :=
  ltac:(let e := eval cbv delta [eta_hmm] in eta_hmm in member_update e (@epsilonSequence_ _ F)).
Definition upd_gammaSequencePerMixture_
  : (list (list (list F)) -> list (list (list F))) -> _ -> HMM F :=
  ltac:(let e := eval cbv delta [eta_hmm] in eta_hmm in member_update e (@gammaSequencePerMixture_ _ F)).
Definition upd_alpha_seq_ : (list F -> list F) -> _ -> HMM F :=
  ltac:(let e := eval cbv delta [eta_hmm] in eta_hmm in member_update e (@alpha_seq_ _ F)).
Definition upd_beta_seq_ : (list F -> list F) -> _ -> HMM F :=
  ltac:(let e := eval cbv delta [eta_hmm] in eta_hmm in member_update e (@beta_seq_ _ F)).
Definition upd_gammaSum_ : (list F -> list F) -> _ -> HMM F :=
  ltac:(let e := eval cbv delta [eta_hmm] in eta_hmm in member_update e (@gammaSum_ _ F)).
Definition upd_gammaSumPerMixture_ : (list F -> list F) -> _ -> HMM F :=
  ltac:(let e := eval cbv delta [eta_hmm] in eta_hmm in member_update e (@gammaSumPerMixture_ _ F)).
End Updates.

(** ** Collaborators *)

(** The methods of [GMM] that [hmm.cpp] calls. *)
Class EmissionModel `{PrivateData} (F : Type) := {
  GMM_new : Z -> option (TrainingSet F) -> Z -> F -> GMM F;
  GMM_set_trainingSet : option (TrainingSet F) -> GMM F -> GMM F;
  GMM_initTraining : GMM F -> GMM F;
  GMM_setParametersToZero : GMM F -> GMM F;
  GMM_normalizeMixtureCoeffs : GMM F -> GMM F;
  GMM_addCovarianceOffset : GMM F -> GMM F;
  GMM_updateInverseCovariances : GMM F -> GMM F;
  GMM_obsProb : GMM F -> list F -> Z -> F;
  GMM_obsProb_input : GMM F -> list F -> Z -> F;
  GMM_obsProb_bimodal : GMM F -> list F -> list F -> Z -> F;
  GMM_to_json : GMM F -> JSONNode F;
  GMM_from_json : JSONNode F -> GMM F -> result (GMM F)
}.

(** The constants of the headers, [log] of the C library, the parent class
    and the JSON helpers. *)
Class Host `{PrivateData} (F : Type) := {
  HIERARCHICAL : Z;
  GAUSSIAN_DEFAULT_COVARIANCE_OFFSET : F;
  HMM_DEFAULT_ESTIMATEMEANS : bool;
  HMM_DEFAULT_EXITPROBABILITY_LAST_STATE : F;
  log : F -> F;
  EMBasedModel_new : Z -> option (TrainingSet F) -> EMBasedModel F;
  BaseModel_finishTraining : EMBasedModel F -> EMBasedModel F;
  EMBasedModel_to_json : EMBasedModel F -> JSONNode F;
  EMBasedModel_from_json : JSONNode F -> EMBasedModel F -> result (EMBasedModel F);
  vector2json : list F -> string -> JSONNode F;
  json2vector : JSONNode F -> list F -> Z -> result (list F)
}.

(** ** The member functions of [HMM] *)

Section Model.
Context `{PrivateData} {F : Type} `{Scalar F} `{!EmissionModel F} `{!Host F}.

#[local] Open Scope scalar_scope.

#[export] Instance scalar_inhabited : Inhabited F := populate fzero.

(** [nbStates_] as a loop bound. *)
Definition nbS (m : HMM F) : nat := Z.to_nat (nbStates_ m).
Definition nbC (m : HMM F) : nat := Z.to_nat (nbMixtureComponents_ m).
Definition dim (m : HMM F) : nat := Z.to_nat (dimension_ (parent m)).

(** [states_[n].components[c].mean[d]] and its covariance, read and
    written. *)
Definition get_mean (st : list (GMM F)) (n c d : nat) : F :=
  default fzero (g ← st !! n; k ← components g !! c; mean k !! d).
Definition get_covariance (st : list (GMM F)) (n c d : nat) : F :=
  default fzero (g ← st !! n; k ← components g !! c; covariance k !! d).
Definition upd_mean_at (n c d : nat) (f : F -> F) (st : list (GMM F))
  : list (GMM F) :=
  alter (upd_components (alter (upd_mean (alter f d)) c)) n st.
Definition upd_covariance_at (n c d : nat) (f : F -> F) (st : list (GMM F))
  : list (GMM F) :=
  alter (upd_components (alter (upd_covariance (alter f d)) c)) n st.

(** *** Exit probabilities *)

(** [exitProbabilities] is a pointer: [None] is [NULL], [Some a] an array.
    The [catch] around the element copy cannot fire (reading through a
    pointer does not throw), so [invalid_argument] is never thrown; an
    array shorter than [nbStates_] is read out of bounds.  A negative
    [nbStates_] makes [resize] throw. *)
Definition updateExitProbabilities (exitProbabilities : option (list F))
    (m : HMM F) : result (HMM F) :=
  if negb (is_hierarchical_ m) then
    Throw (runtime_error "Model is Not hierarchical: method cannot be used")
  else if nbStates_ m <? 0 then Throw (length_error "vector::_M_fill_insert")
  else
    let e := resize (nbS m) fzero (exitProbabilities_ m) in
    match exitProbabilities with
    | None =>
        if nbStates_ m =? 0 then Undefined
        else Ok (upd_exitProbabilities_ (fun _ =>
               <[Z.to_nat (nbStates_ m - 1) :=
                   HMM_DEFAULT_EXITPROBABILITY_LAST_STATE]> e) m)
    | Some a =>
        e ← for_loopM (nbS m) (fun i e =>
               match a !! i with
               | Some x => Ok (<[i := x]> e)
               | None => Undefined
               end) e;
        Ok (upd_exitProbabilities_ (fun _ => e) m)
    end.

Definition addExitPoint (stateIndex : Z) (proba : F) (m : HMM F)
  : result (HMM F) :=
  if negb (is_hierarchical_ m) then
    Throw (runtime_error "Model is Not hierarchical: method cannot be used")
  else if nbStates_ m <=? stateIndex then
    Throw (out_of_range "State index out of bounds")
  else if stateIndex <? 0 then Undefined
  else Ok (upd_exitProbabilities_ <[Z.to_nat stateIndex := proba]> m).

(** *** Parameters initialization *)

(** [resize] with a negative size asks for more than [max_size()]
    elements and throws. *)
Definition allocate (m : HMM F) : result (HMM F) :=
  if nbStates_ m <? 0 then Throw (length_error "vector::_M_default_append")
  else
    let n := nbS m in
    let m := upd_prior_ (resize n fzero) m in
    let m := upd_transition_ (resize (n * n) fzero) m in
    let m := upd_alpha (resize n fzero) m in
    let m := upd_previousAlpha_ (resize n fzero) m in
    let m := upd_beta_ (resize n fzero) m in
    let m := upd_previousBeta_ (resize n fzero) m in
    let m := upd_states_ (fun _ =>
               replicate n (GMM_new (flags_ (parent m)) (trainingSet (parent m))
                              (nbMixtureComponents_ m) (covarianceOffset_ m))) m in
    if is_hierarchical_ m then updateExitProbabilities None m else Ok m.

(** [1/(float)nbStates_] is a division of two [float]s: both operands are
    single-precision values and the quotient is rounded to single
    precision (rounding the double quotient of two singles once more gives
    the correctly rounded single quotient). *)
Definition setErgodic (m : HMM F) : HMM F :=
  for_loop (nbS m) (fun i m =>
    let m := upd_prior_
               <[i := fsingle (fone / fsingle (of_int (nbStates_ m)))]> m in
    for_loop (nbS m) (fun j m =>
      upd_transition_
        <[(i * nbS m + j)%nat :=
            fsingle (fone / fsingle (of_int (nbStates_ m)))]> m) m) m.

Definition setLeftRight (m : HMM F) : HMM F :=
  let m :=
    for_loop (nbS m) (fun i m =>
      let m := upd_prior_ <[i := fzero]> m in
      for_loop (nbS m) (fun j m =>
        upd_transition_
          <[(i * nbS m + j)%nat :=
              if bool_decide (i = j) || bool_decide ((i + 1)%nat = j)
              then fhalf else fzero]> m) m) m in
  let m := upd_transition_ <[Z.to_nat (nbStates_ m * nbStates_ m - 1) := fone]> m in
  upd_prior_ <[0%nat := fone]> m.

Definition normalizeTransitions (m : HMM F) : HMM F :=
  let '(norm_prior, m) :=
    for_loop (nbS m) (fun i '(norm_prior, m) =>
      let norm_prior := norm_prior + prior_ m !!! i in
      let norm_transition :=
        for_loop (nbS m) (fun j norm_transition =>
          norm_transition + transition_ m !!! (i * nbS m + j)%nat) fzero in
      let m :=
        for_loop (nbS m) (fun j m =>
          upd_transition_ (alter (fun x => x / norm_transition)
                             (i * nbS m + j)%nat) m) m in
      (norm_prior, m)) (fzero, m) in
  for_loop (nbS m) (fun i m =>
    upd_prior_ (alter (fun x => x / norm_prior) i) m) m.

(** *** Observation probabilities

    [stateIndex] is an [unsigned int], so the comparison with the [int]
    [nbStates_] is made on 32-bit unsigned values; [mixtureComponent]
    defaults to [-1]. *)

Definition unsigned (n : Z) : Z := n mod 2 ^ 32.

Definition state_at (m : HMM F) (stateIndex : nat) : result (GMM F) :=
  match states_ m !! stateIndex with
  | Some g => Ok g
  | None => Undefined
  end.

Definition obsProb (m : HMM F) (observation : list F) (stateIndex : nat)
    (mixtureComponent : Z) : result F :=
  if unsigned (nbStates_ m) <=? unsigned (Z.of_nat stateIndex) then
    Throw (out_of_range "State index is out of bounds")
  else
    g ← state_at m stateIndex;
    Ok (GMM_obsProb g observation mixtureComponent).

Definition obsProb_input (m : HMM F) (observation_input : list F)
    (stateIndex : nat) (mixtureComponent : Z) : result F :=
  if negb (bimodal_ (parent m)) then
    Throw (runtime_error "Model is not bimodal. Use the function 'obsProb'")
  else if unsigned (nbStates_ m) <=? unsigned (Z.of_nat stateIndex) then
    Throw (out_of_range "State index is out of bounds")
  else
    g ← state_at m stateIndex;
    Ok (GMM_obsProb_input g observation_input mixtureComponent).

Definition obsProb_bimodal (m : HMM F) (observation_input observation_output : list F)
    (stateIndex : nat) (mixtureComponent : Z) : result F :=
  if negb (bimodal_ (parent m)) then
    Throw (runtime_error "Model is not bimodal. Use the function 'obsProb'")
  else if unsigned (nbStates_ m) <=? unsigned (Z.of_nat stateIndex) then
    Throw (out_of_range "State index is out of bounds")
  else
    g ← state_at m stateIndex;
    Ok (GMM_obsProb_bimodal g observation_input observation_output mixtureComponent).

(** *** Forward-backward algorithm

    [observation_output] is a pointer that defaults to [NULL]. *)

(** The first loop of [forward_init]: the unscaled [alpha] and
    [norm_const]. *)
Definition forward_init_accumulate (observation : list F)
    (observation_output : option (list F)) (m : HMM F) : result (F * HMM F) :=
  for_loopM (nbS m) (fun i '(norm_const, m) =>
    o ← (if bimodal_ (parent m) then
           match observation_output with
           | Some out => obsProb_bimodal m observation out i (-1)
           | None => obsProb_input m observation i (-1)
           end
         else obsProb m observation i (-1));
    let m := upd_alpha <[i := prior_ m !!! i * o]> m in
    Ok (norm_const + alpha m !!! i, m)) (fzero, m).

(** The scaling that ends [forward_init] and [forward_update]. *)
Definition forward_scale (norm_const : F) (m : HMM F) : HMM F * F :=
  if fpos norm_const then
    (for_loop (nbS m) (fun i m =>
       upd_alpha (alter (fun x => x / norm_const) i) m) m,
     fone / norm_const)
  else
    (for_loop (nbS m) (fun j m =>
       upd_alpha <[j := fone / of_int (nbStates_ m)]> m) m,
     fone).

Definition forward_init (observation : list F)
    (observation_output : option (list F)) (m : HMM F) : result (HMM F * F) :=
  '(norm_const, m) ← forward_init_accumulate observation observation_output m;
  Ok (forward_scale norm_const m).

Definition forward_update_accumulate (observation : list F)
    (observation_output : option (list F)) (m : HMM F) : result (F * HMM F) :=
  let m := upd_previousAlpha_ (fun _ => alpha m) m in
  for_loopM (nbS m) (fun j '(norm_const, m) =>
    let m := upd_alpha <[j := fzero]> m in
    let m :=
      for_loop (nbS m) (fun i m =>
        upd_alpha (alter (fun x =>
          x + previousAlpha_ m !!! i * transition_ m !!! (i * nbS m + j)%nat) j) m) m in
    o ← (if bimodal_ (parent m) then
           match observation_output with
           | Some out => obsProb_bimodal m observation out j (-1)
           | None => obsProb_input m observation j (-1)
           end
         else obsProb m observation j (-1));
    let m := upd_alpha (alter (fun x => x * o) j) m in
    Ok (norm_const + alpha m !!! j, m)) (fzero, m).

Definition forward_update (observation : list F)
    (observation_output : option (list F)) (m : HMM F) : result (HMM F * F) :=
  '(norm_const, m) ← forward_update_accumulate observation observation_output m;
  Ok (forward_scale norm_const m).

Definition backward_init (ct : F) (m : HMM F) : HMM F :=
  for_loop (nbS m) (fun i m => upd_beta_ <[i := ct]> m) m.

Definition backward_update (ct : F) (observation : list F)
    (observation_output : option (list F)) (m : HMM F) : result (HMM F) :=
  let m := upd_previousBeta_ (fun _ => beta_ m) m in
  for_loopM (nbS m) (fun i m =>
    let m := upd_beta_ <[i := fzero]> m in
    m ← for_loopM (nbS m) (fun j m =>
           o ← (if bimodal_ (parent m) then
                  match observation_output with
                  | Some out => obsProb_bimodal m observation out j (-1)
                  | None => obsProb_input m observation j (-1)
                  end
                else obsProb m observation j (-1));
           Ok (upd_beta_ (alter (fun x =>
                 x + transition_ m !!! (i * nbS m + j)%nat
                     * previousBeta_ m !!! j * o) i) m)) m;
    let m := upd_beta_ (alter (fun x => x * ct) i) m in
    Ok (if fisnan (beta_ m !!! i) || fisinf (fabs (beta_ m !!! i))
        then upd_beta_ <[i := fhuge]> m else m)) m.

(** *** Initial means and covariances from the training set *)

Definition initMeansWithFirstPhrase (m : HMM F) : result (HMM F) :=
  match trainingSet (parent m) with
  | None => Ok m
  | Some ts =>
      if is_empty ts then Ok m
      else
        let m :=
          for_loop (nbS m) (fun n m =>
            for_loop (dim m) (fun d m =>
              upd_states_ (upd_mean_at n 0 d (fun _ => fzero)) m) m) m in
        let factor : list Z := replicate (nbS m) 0 in
        p ← phrase_at ts 0;
        if nbStates_ m =? 0 then Undefined
        else
          let step := Z.quot (length_ p) (nbStates_ m) in
          let '(m, _, factor) :=
            for_loop (nbS m) (fun n '((m, offset, factor) : HMM F * Z * list Z) =>
              let m :=
                for_loop (Z.to_nat step) (fun t m =>
                  for_loop (dim m) (fun d m =>
                    upd_states_ (upd_mean_at n 0 d (fun x =>
                      x + at_ p (Z.to_nat offset + t)%nat d)) m) m) m in
              (m, (offset + step)%Z, alter (Z.add step) n factor))
              (m, 0, factor) in
          Ok (for_loop (nbS m) (fun n m =>
                for_loop (dim m) (fun d m =>
                  upd_states_ (upd_mean_at n 0 d (fun x =>
                    x / of_int (factor !!! n))) m) m) m)
  end.

Definition initCovariancesWithAllPhrases_single (m : HMM F) : result (HMM F) :=
  match trainingSet (parent m) with
  | None => Ok m
  | Some ts =>
      if is_empty ts then Ok m
      else
        let nbPhrases := Z.to_nat (size ts) in
        let m :=
          for_loop (nbS m) (fun n m =>
            for_loop (dim m) (fun d1 m =>
              for_loop (dim m) (fun d2 m =>
                upd_states_ (upd_covariance_at n 0 (d1 * dim m + d2)%nat (fun _ =>
                  - get_mean (states_ m) n 0 d1 * get_mean (states_ m) n 0 d2)) m)
                m) m) m in
        let factor : list Z := replicate (nbS m) 0 in
        '(m, factor) ← for_loopM nbPhrases (fun i '(m, factor) =>
          p ← phrase_at ts (Z.of_nat i);
          if nbStates_ m =? 0 then Undefined
          else
            let step := Z.quot (length_ p) (nbStates_ m) in
            let '(m, _, factor) :=
              for_loop (nbS m) (fun n '((m, offset, factor) : HMM F * Z * list Z) =>
                let m :=
                  for_loop (Z.to_nat step) (fun t m =>
                    for_loop (dim m) (fun d1 m =>
                      for_loop (dim m) (fun d2 m =>
                        upd_states_ (upd_covariance_at n 0 (d1 * dim m + d2)%nat (fun x =>
                          x + at_ p (Z.to_nat offset + t)%nat d1
                              * at_ p (Z.to_nat offset + t)%nat d2)) m) m) m) m in
                (m, (offset + step)%Z, alter (Z.add step) n factor))
                (m, 0, factor) in
            Ok (m, factor)) (m, factor);
        Ok (for_loop (nbS m) (fun n m =>
              for_loop (dim m) (fun d1 m =>
                for_loop (dim m) (fun d2 m =>
                  upd_states_ (upd_covariance_at n 0 (d1 * dim m + d2)%nat (fun x =>
                    x / of_int (factor !!! n))) m) m) m) m)
  end.

Definition initMeansWithAllPhrases_mixture (m : HMM F) : result (HMM F) :=
  match trainingSet (parent m) with
  | None => Ok m
  | Some ts =>
      if is_empty ts then Ok m
      else
        let nbPhrases := size ts in
        for_loopM (Z.to_nat (Z.min nbPhrases (nbMixtureComponents_ m))) (fun i m =>
          p ← phrase_at ts (Z.of_nat i);
          if nbStates_ m =? 0 then Undefined
          else
            let step := Z.quot (length_ p) (nbStates_ m) in
            let '(m, _) :=
              for_loop (nbS m) (fun n '((m, offset) : HMM F * Z) =>
                let m :=
                  for_loop (dim m) (fun d m =>
                    upd_states_ (upd_mean_at n i d (fun _ => fzero)) m) m in
                let m :=
                  for_loop (Z.to_nat step) (fun t m =>
                    for_loop (dim m) (fun d m =>
                      upd_states_ (upd_mean_at n i d (fun x =>
                        x + at_ p (Z.to_nat offset + t)%nat d
                            / fsingle (of_int step))) m) m) m in
                (m, (offset + step)%Z)) (m, 0) in
            Ok m) m
  end.

Definition initCovariancesWithAllPhrases_mixture (m : HMM F) : result (HMM F) :=
  match trainingSet (parent m) with
  | None => Ok m
  | Some ts =>
      if is_empty ts then Ok m
      else
        let nbPhrases := size ts in
        for_loopM (Z.to_nat (Z.min nbPhrases (nbMixtureComponents_ m))) (fun i m =>
          p ← phrase_at ts (Z.of_nat i);
          if nbStates_ m =? 0 then Undefined
          else
            let step := Z.quot (length_ p) (nbStates_ m) in
            let '(m, _) :=
              for_loop (nbS m) (fun n '((m, offset) : HMM F * Z) =>
                let m :=
                  for_loop (dim m) (fun d1 m =>
                    for_loop (dim m) (fun d2 m =>
                      upd_states_ (upd_covariance_at n i (d1 * dim m + d2)%nat (fun _ =>
                        - get_mean (states_ m) n i d1 * get_mean (states_ m) n i d2)) m)
                      m) m in
                let m :=
                  for_loop (Z.to_nat step) (fun t m =>
                    for_loop (dim m) (fun d1 m =>
                      for_loop (dim m) (fun d2 m =>
                        upd_states_ (upd_covariance_at n i (d1 * dim m + d2)%nat (fun x =>
                          x + at_ p (Z.to_nat offset + t)%nat d1
                              * at_ p (Z.to_nat offset + t)%nat d2
                              / fsingle (of_int step))) m) m) m) m in
                (m, (offset + step)%Z)) (m, 0) in
            Ok m) m
  end.

(** *** Training algorithm *)

Definition initTraining (m : HMM F) : result (HMM F) :=
  let m := if decide (transitionMode_ m = ERGODIC) then setErgodic m
           else setLeftRight m in
  let m := for_loop (nbS m) (fun i m =>
             upd_states_ (alter GMM_initTraining i) m) m in
  match trainingSet (parent m) with
  | None => Ok m
  | Some ts =>
      m ← (if 1 <? nbMixtureComponents_ m then
             m ← initMeansWithAllPhrases_mixture m;
             initCovariancesWithAllPhrases_mixture m
           else
             m ← initMeansWithFirstPhrase m;
             initCovariancesWithAllPhrases_single m);
      let m := upd_parent (upd_trained (fun _ => false)) m in
      let nbPhrases := Z.to_nat (size ts) in
      let m := upd_gammaSequence_ (resize nbPhrases []) m in
      let m := upd_epsilonSequence_ (resize nbPhrases []) m in
      let m := upd_gammaSequencePerMixture_ (resize nbPhrases []) m in
      let '(m, maxT, _) :=
        for_each (phrases ts) (fun it '(m, maxT, i) =>
          let T := length_ it.2 in
          let m := upd_gammaSequence_
                     (alter (resize (Z.to_nat T * nbS m)%nat fzero) i) m in
          let m := upd_epsilonSequence_
                     (alter (resize (Z.to_nat T * nbS m * nbS m)%nat fzero) i) m in
          let m := upd_gammaSequencePerMixture_
                     (alter (resize (nbC m) []) i) m in
          let m := for_loop (nbC m) (fun c m =>
                     upd_gammaSequencePerMixture_
                       (alter (alter (resize (Z.to_nat T * nbS m)%nat fzero) c) i) m) m in
          (m, if maxT <? T then T else maxT, S i)) (m, 0, 0%nat) in
      let m := upd_alpha_seq_ (resize (Z.to_nat maxT * nbS m)%nat fzero) m in
      let m := upd_beta_seq_ (resize (Z.to_nat maxT * nbS m)%nat fzero) m in
      let m := upd_gammaSum_ (resize (nbS m) fzero) m in
      let m := upd_gammaSumPerMixture_ (resize (nbS m * nbC m)%nat fzero) m in
      Ok m
  end.

(** *** Constructor

    The members start default-constructed (empty vectors); the scalar
    members are assigned before they are read. *)
Definition HMM_new (flags : Z) (trainingSet : option (TrainingSet F))
    (nbStates nbMixtureComponents : Z) : result (HMM F) :=
  let m := {|
    parent := EMBasedModel_new flags trainingSet;
    is_hierarchical_ := Z.land flags HIERARCHICAL =? 0;
    nbStates_ := nbStates;
    nbMixtureComponents_ := nbMixtureComponents;
    covarianceOffset_ := GAUSSIAN_DEFAULT_COVARIANCE_OFFSET;
    transitionMode_ := LEFT_RIGHT;
    estimateMeans_ := HMM_DEFAULT_ESTIMATEMEANS;
    prior_ := []; transition_ := []; exitProbabilities_ := []; states_ := [];
    alpha := []; previousAlpha_ := []; beta_ := []; previousBeta_ := [];
    gammaSequence_ := []; epsilonSequence_ := []; gammaSequencePerMixture_ := [];
    alpha_seq_ := []; beta_seq_ := []; gammaSum_ := []; gammaSumPerMixture_ := []
  |} in
  m ← allocate m;
  let m := for_loop (Z.to_nat nbStates) (fun i m =>
             upd_states_ (alter (GMM_set_trainingSet trainingSet) i) m) m in
  let m := upd_transitionMode_ (fun _ => LEFT_RIGHT) m in
  let m := upd_estimateMeans_ (fun _ => HMM_DEFAULT_ESTIMATEMEANS) m in
  initTraining m.

Definition finishTraining (m : HMM F) : HMM F :=
  let m := normalizeTransitions m in
  upd_parent BaseModel_finishTraining m.

(** *** Baum-Welch *)

(** [copy(src.begin(), src.end(), dst.begin() + off)]. *)
Definition copy_to (src : list F) (off : nat) (dst : list F) : list F :=
  for_loop (length src) (fun k dst => <[(off + k)%nat := src !!! k]> dst) dst.

Definition get2 (v : list (list F)) (p k : nat) : F := (v !!! p) !!! k.
Definition get3 (v : list (list (list F))) (p c k : nat) : F :=
  ((v !!! p) !!! c) !!! k.

Definition baumWelch_forwardBackward (currentPhrase : Phrase F)
    (phraseIndex : nat) (m : HMM F) : result (HMM F * F) :=
  let T := Z.to_nat (length_ currentPhrase) in
  let ct : list F := replicate T fzero in
  if length_ currentPhrase <? 1 then Undefined
  else
    (* Forward algorithm *)
    '(m, c) ← (if bimodal_ (parent m) then
                 forward_init (get_dataPointer_input currentPhrase 0)
                   (Some (get_dataPointer_output currentPhrase 0)) m
               else forward_init (get_dataPointer currentPhrase 0) None m);
    let ct := <[0%nat := c]> ct in
    let log_prob := - log (ct !!! 0%nat) in
    let m := upd_alpha_seq_ (copy_to (alpha m) 0) m in
    '(m, ct, log_prob) ←
      for_loopM (T - 1) (fun k '((m, ct, log_prob) : HMM F * list F * F) =>
        let t := S k in
        '(m, c) ← (if bimodal_ (parent m) then
                     forward_update (get_dataPointer_input currentPhrase t)
                       (Some (get_dataPointer_output currentPhrase t)) m
                   else forward_update (get_dataPointer currentPhrase t) None m);
        let ct := <[t := c]> ct in
        let log_prob := log_prob - log (ct !!! t) in
        let m := upd_alpha_seq_ (copy_to (alpha m) (t * nbS m)) m in
        Ok (m, ct, log_prob)) (m, ct, log_prob);
    (* Backward algorithm *)
    let m := backward_init (ct !!! (T - 1)%nat) m in
    let m := upd_beta_seq_ (copy_to (beta_ m) ((T - 1) * nbS m)) m in
    m ← for_down (T - 1) (fun t m =>
           m ← (if bimodal_ (parent m) then
                  backward_update (ct !!! t)
                    (get_dataPointer_input currentPhrase (t + 1))
                    (Some (get_dataPointer_output currentPhrase (t + 1))) m
                else
                  backward_update (ct !!! t)
                    (get_dataPointer currentPhrase (t + 1)) None m);
           Ok (upd_beta_seq_ (copy_to (beta_ m) (t * nbS m)) m)) m;
    (* Compute Gamma Variable *)
    let m :=
      for_loop T (fun t m =>
        for_loop (nbS m) (fun i m =>
          upd_gammaSequence_ (alter
            <[(t * nbS m + i)%nat :=
                alpha_seq_ m !!! (t * nbS m + i)%nat
                * beta_seq_ m !!! (t * nbS m + i)%nat / ct !!! t]>
            phraseIndex) m) m) m in
    (* Compute Gamma variable for each mixture component *)
    m ← for_loopM T (fun t m =>
           for_loopM (nbS m) (fun i m =>
             '(m, norm_const) ←
               for_loopM (nbC m) (fun c '((m, norm_const) : HMM F * F) =>
                 oo ← (if bimodal_ (parent m) then
                         obsProb_bimodal m (get_dataPointer_input currentPhrase t)
                           (get_dataPointer_output currentPhrase t) i (Z.of_nat c)
                       else
                         obsProb m (get_dataPointer currentPhrase t) i (Z.of_nat c));
                 let m := upd_gammaSequencePerMixture_ (alter (alter
                            <[(t * nbS m + i)%nat :=
                                get2 (gammaSequence_ m) phraseIndex (t * nbS m + i) * oo]>
                            c) phraseIndex) m in
                 Ok (m, norm_const + oo)) (m, fzero);
             Ok (if fpos norm_const then
                   for_loop (nbC m) (fun c m =>
                     upd_gammaSequencePerMixture_ (alter (alter (alter
                       (fun x => x / norm_const) (t * nbS m + i)%nat) c)
                       phraseIndex) m) m
                 else m)) m) m;
    (* Compute Epsilon Variable *)
    m ← for_loopM (T - 1) (fun t m =>
           for_loopM (nbS m) (fun i m =>
             for_loopM (nbS m) (fun j m =>
               let m := upd_epsilonSequence_ (alter
                          <[(t * nbS m * nbS m + i * nbS m + j)%nat :=
                              alpha_seq_ m !!! (t * nbS m + i)%nat
                              * transition_ m !!! (i * nbS m + j)%nat
                              * beta_seq_ m !!! ((t + 1) * nbS m + j)%nat]>
                          phraseIndex) m in
               o ← (if bimodal_ (parent m) then
                      obsProb_bimodal m (get_dataPointer_input currentPhrase (t + 1))
                        (get_dataPointer_output currentPhrase (t + 1)) j (-1)
                    else
                      obsProb m (get_dataPointer currentPhrase (t + 1)) j (-1));
               Ok (upd_epsilonSequence_ (alter (alter (fun x => x * o)
                     (t * nbS m * nbS m + i * nbS m + j)%nat) phraseIndex) m)) m) m) m;
    Ok (m, log_prob).

Definition baumWelch_gammaSum (m : HMM F) : result (HMM F) :=
  let m :=
    for_loop (nbS m) (fun i m =>
      let m := upd_gammaSum_ <[i := fzero]> m in
      for_loop (nbC m) (fun c m =>
        upd_gammaSumPerMixture_ <[(i * nbC m + c)%nat := fzero]> m) m) m in
  match trainingSet (parent m) with
  | None => Undefined
  | Some ts =>
      Ok (for_each (phrases ts) (fun it '((m, phraseIndex) : HMM F * nat) =>
            let phraseLength := Z.to_nat (length_ it.2) in
            let m :=
              for_loop (nbS m) (fun i m =>
                for_loop phraseLength (fun t m =>
                  let m := upd_gammaSum_ (alter (fun x =>
                             x + get2 (gammaSequence_ m) phraseIndex (t * nbS m + i)) i) m in
                  for_loop (nbC m) (fun c m =>
                    upd_gammaSumPerMixture_ (alter (fun x =>
                      x + get3 (gammaSequencePerMixture_ m) phraseIndex c (t * nbS m + i))
                      (i * nbC m + c)%nat) m) m) m) m in
            (m, S phraseIndex)) (m, 0%nat)).1
  end.

Definition baumWelch_estimateMixtureCoefficients (m : HMM F) : result (HMM F) :=
  match trainingSet (parent m) with
  | None => Undefined
  | Some ts =>
      let m :=
        (for_each (phrases ts) (fun it '((m, phraseIndex) : HMM F * nat) =>
           let phraseLength := Z.to_nat (length_ it.2) in
           let m :=
             for_loop (nbS m) (fun i m =>
               for_loop phraseLength (fun t m =>
                 for_loop (nbC m) (fun c m =>
                   upd_states_ (alter (upd_mixtureCoeffs (alter (fun x =>
                     x + get3 (gammaSequencePerMixture_ m) phraseIndex c (t * nbS m + i))
                     c)) i) m) m) m) m in
           (m, S phraseIndex)) (m, 0%nat)).1 in
      (* Scale mixture coefficients *)
      Ok (for_loop (nbS m) (fun i m =>
            upd_states_ (alter GMM_normalizeMixtureCoeffs i) m) m)
  end.

Definition baumWelch_estimateMeans (m : HMM F) : result (HMM F) :=
  match trainingSet (parent m) with
  | None => Undefined
  | Some ts =>
      let m :=
        (for_each (phrases ts) (fun it '((m, phraseIndex) : HMM F * nat) =>
           let phraseLength := Z.to_nat (length_ it.2) in
           let m :=
             for_loop (nbS m) (fun i m =>
               let m :=
                 for_loop (nbC m) (fun c m =>
                   for_loop (dim m) (fun d m =>
                     upd_states_ (upd_mean_at i c d (fun _ => fzero)) m) m) m in
               for_loop phraseLength (fun t m =>
                 for_loop (nbC m) (fun c m =>
                   for_loop (dim m) (fun d m =>
                     upd_states_ (upd_mean_at i c d (fun x =>
                       x + get3 (gammaSequencePerMixture_ m) phraseIndex c (t * nbS m + i)
                           * at_ it.2 t d)) m) m) m) m) m in
           (m, S phraseIndex)) (m, 0%nat)).1 in
      (* Normalize mean *)
      Ok (for_loop (nbS m) (fun i m =>
            for_loop (nbC m) (fun c m =>
              if fpos (gammaSumPerMixture_ m !!! (i * nbC m + c)%nat) then
                for_loop (dim m) (fun d m =>
                  upd_states_ (upd_mean_at i c d (fun x =>
                    x / gammaSumPerMixture_ m !!! (i * nbC m + c)%nat)) m) m
              else m) m) m)
  end.

Definition baumWelch_estimateCovariances (m : HMM F) : result (HMM F) :=
  match trainingSet (parent m) with
  | None => Undefined
  | Some ts =>
      let m :=
        (for_each (phrases ts) (fun it '((m, phraseIndex) : HMM F * nat) =>
           let phraseLength := Z.to_nat (length_ it.2) in
           let m :=
             for_loop (nbS m) (fun i m =>
               for_loop phraseLength (fun t m =>
                 for_loop (nbC m) (fun c m =>
                   for_loop (dim m) (fun d1 m =>
                     for_loop (dim m) (fun d2 m =>
                       upd_states_ (upd_covariance_at i c (d1 * dim m + d2)%nat (fun x =>
                         x + get3 (gammaSequencePerMixture_ m) phraseIndex c (t * nbS m + i)
                             * (at_ it.2 t d1 - get_mean (states_ m) i c d1)
                             * (at_ it.2 t d2 - get_mean (states_ m) i c d2))) m)
                       m) m) m) m) m in
           (m, S phraseIndex)) (m, 0%nat)).1 in
      (* Scale covariance *)
      Ok (for_loop (nbS m) (fun i m =>
            let m :=
              for_loop (nbC m) (fun c m =>
                if fpos (gammaSumPerMixture_ m !!! (i * nbC m + c)%nat) then
                  for_loop (dim m * dim m) (fun d m =>
                    upd_states_ (upd_covariance_at i c d (fun x =>
                      x / gammaSumPerMixture_ m !!! (i * nbC m + c)%nat)) m) m
                else m) m in
            let m := upd_states_ (alter GMM_addCovarianceOffset i) m in
            upd_states_ (alter GMM_updateInverseCovariances i) m) m)
  end.

(** The message printed when [sumprior == 0] is not modelled; the
    division follows in either case. *)
Definition baumWelch_estimatePrior (m : HMM F) : result (HMM F) :=
  (* Set prior vector to 0 *)
  let m := for_loop (nbS m) (fun i m => upd_prior_ <[i := fzero]> m) m in
  (* Re-estimate Prior probabilities *)
  match trainingSet (parent m) with
  | None => Undefined
  | Some ts =>
      let '(m, sumprior, _) :=
        for_each (phrases ts) (fun it '((m, sumprior, phraseIndex) : HMM F * F * nat) =>
          let '(m, sumprior) :=
            for_loop (nbS m) (fun i '((m, sumprior) : HMM F * F) =>
              (upd_prior_ (alter (fun x =>
                 x + get2 (gammaSequence_ m) phraseIndex i) i) m,
               sumprior + get2 (gammaSequence_ m) phraseIndex i)) (m, sumprior) in
          (m, sumprior, S phraseIndex)) (m, fzero, 0%nat) in
      (* Scale Prior vector *)
      Ok (for_loop (nbS m) (fun i m =>
            upd_prior_ (alter (fun x => x / sumprior) i) m) m)
  end.

Definition baumWelch_estimateTransitions (m : HMM F) : result (HMM F) :=
  (* Set prior vector and transition matrix to 0 *)
  let m :=
    for_loop (nbS m) (fun i m =>
      for_loop (nbS m) (fun j m =>
        upd_transition_ <[(i * nbS m + j)%nat := fzero]> m) m) m in
  (* Re-estimate Prior and Transition probabilities *)
  match trainingSet (parent m) with
  | None => Undefined
  | Some ts =>
      let m :=
        (for_each (phrases ts) (fun it '((m, phraseIndex) : HMM F * nat) =>
           let phraseLength := Z.to_nat (length_ it.2 - 1) in
           let m :=
             for_loop (nbS m) (fun i m =>
               for_loop (nbS m) (fun j m =>
                 for_loop phraseLength (fun t m =>
                   upd_transition_ (alter (fun x =>
                     x + get2 (epsilonSequence_ m) phraseIndex
                           (t * nbS m * nbS m + i * nbS m + j)) (i * nbS m + j)%nat) m)
                   m) m) m in
           (m, S phraseIndex)) (m, 0%nat)).1 in
      (* Scale transition matrix *)
      Ok (for_loop (nbS m) (fun i m =>
            if fpos (gammaSum_ m !!! i) then
              for_loop (nbS m) (fun j m =>
                upd_transition_ (alter (fun x => x / gammaSum_ m !!! i)
                                   (i * nbS m + j)%nat) m) m
            else m) m)
  end.

Definition baumWelch_update (m : HMM F) : result (HMM F * F) :=
  match trainingSet (parent m) with
  | None => Undefined
  | Some ts =>
      (* Forward-backward for each phrase *)
      '(m, log_prob, _) ←
        for_eachM (phrases ts) (fun it '((m, log_prob, phraseIndex) : HMM F * F * nat) =>
          '(m, lp) ← baumWelch_forwardBackward it.2 phraseIndex m;
          Ok (m, log_prob + lp, S phraseIndex)) (m, fzero, 0%nat);
      m ← baumWelch_gammaSum m;
      (* Re-estimate model parameters *)
      let m := for_loop (nbS m) (fun i m =>
                 upd_states_ (alter GMM_setParametersToZero i) m) m in
      m ← baumWelch_estimateMixtureCoefficients m;
      m ← (if estimateMeans_ m then baumWelch_estimateMeans m else Ok m);
      m ← baumWelch_estimateCovariances m;
      m ← (if decide (transitionMode_ m = ERGODIC) then baumWelch_estimatePrior m
           else Ok m);
      m ← baumWelch_estimateTransitions m;
      Ok (m, log_prob)
  end.

Definition train_EM_update (m : HMM F) : result (HMM F * F) :=
  baumWelch_update m.

(** *** File IO *)

(** [int(transitionMode_)] and the cast back.  The enumeration is declared
    as [{ERGODIC = 0, LEFT_RIGHT = 1}]; a model that holds any other
    integer compares unequal to [ERGODIC] and is treated as left-right
    everywhere. *)
Definition int_of_mode (t : TRANSITION_MODE) : Z :=
  match t with ERGODIC => 0 | LEFT_RIGHT => 1 end.
Definition mode_of_int (n : Z) : TRANSITION_MODE :=
  if n =? 0 then ERGODIC else LEFT_RIGHT.

Definition to_json (m : HMM F) : JSONNode F :=
  let json_hmm : list (JSONNode F) := [] in
  (* Write Parent: EM Learning Model *)
  let json_emmodel := set_name "EMBasedModel" (EMBasedModel_to_json (parent m)) in
  let json_hmm := json_hmm ++ [json_emmodel] in
  (* Scalar Attributes *)
  let json_hmm := json_hmm ++ [JSON_BOOL "is_hierarchical" (is_hierarchical_ m)] in
  let json_hmm := json_hmm ++ [JSON_BOOL "estimateMeans" (estimateMeans_ m)] in
  let json_hmm := json_hmm ++ [JSON_NUMBER "dimension" (of_int (dimension_ (parent m)))] in
  let json_hmm := json_hmm ++ [JSON_NUMBER "nbStates" (of_int (nbStates_ m))] in
  let json_hmm := json_hmm ++ [JSON_NUMBER "nbMixtureComponents"
                                 (of_int (nbMixtureComponents_ m))] in
  let json_hmm := json_hmm ++ [JSON_NUMBER "covarianceOffset" (covarianceOffset_ m)] in
  let json_hmm := json_hmm ++ [JSON_NUMBER "transitionMode"
                                 (of_int (int_of_mode (transitionMode_ m)))] in
  (* Model Parameters *)
  let json_hmm := json_hmm ++ [vector2json (prior_ m) "prior"] in
  let json_hmm := json_hmm ++ [vector2json (transition_ m) "transition"] in
  let json_hmm :=
    if is_hierarchical_ m then
      json_hmm ++ [vector2json (exitProbabilities_ m) "exitProbabilities"]
    else json_hmm in
  (* States *)
  let json_states :=
    for_loop (nbS m) (fun i json_states =>
      match states_ m !! i with
      | Some g => json_states ++ [GMM_to_json g]
      | None => json_states
      end) [] in
  let json_hmm := json_hmm ++ [JSON_ARRAY "states" json_states] in
  JSON_NODE "HMM" json_hmm.

(** The three [assert]s on the node under the iterator. *)
Definition expect (root_it : list (JSONNode F)) (name : string) (type : JSONType)
  : result (JSONNode F) :=
  match root_it with
  | [] => Abort "root_it != root.end()"
  | n :: _ =>
      _ ← assert (bool_decide (json_name n = name)) "root_it->name()";
      _ ← assert (bool_decide (json_type n = type)) "root_it->type()";
      Ok n
  end.

(** [catch (JSONException &e) { throw JSONException(e); }
     catch (exception &e) { throw JSONException(e, root.name()); }] *)
Definition rethrow_as_JSONException {A} (r : result A) : result A :=
  match r with
  | Throw (JSONException w) => Throw (JSONException w)
  | Throw (runtime_error w) | Throw (invalid_argument w)
  | Throw (out_of_range w) | Throw (length_error w) => Throw (JSONException w)
  | r => r
  end.

Definition from_json (root : JSONNode F) (m : HMM F) : result (HMM F) :=
  m ← rethrow_as_JSONException (
    _ ← assert (bool_decide (json_type root = T_NODE)) "root.type() == JSON_NODE";
    let root_it := json_children root in
    (* Get Parent: EMBasedModel *)
    n ← expect root_it "EMBasedModel" T_NODE;
    p ← EMBasedModel_from_json n (parent m);
    let m := upd_parent (fun _ => p) m in
    let root_it := tail root_it in
    (* Get If Hierarchical *)
    n ← expect root_it "is_hierarchical" T_BOOL;
    if negb (Bool.eqb (is_hierarchical_ m) (as_bool n)) then
      if is_hierarchical_ m then
        Throw (JSONException
                 "Trying to read a non-hierarchical model in a hierarchical model.")
      else
        Throw (JSONException
                 "Trying to read a hierarchical model in a non-hierarchical model.")
    else
    let root_it := tail root_it in
    (* Get If estimate means *)
    n ← expect root_it "estimateMeans" T_BOOL;
    let m := upd_estimateMeans_ (fun _ => as_bool n) m in
    let root_it := tail root_it in
    (* Get Dimension *)
    n ← expect root_it "dimension" T_NUMBER;
    let m := upd_parent (upd_dimension_ (fun _ => as_int n)) m in
    let root_it := tail root_it in
    (* Get Number of states *)
    n ← expect root_it "nbStates" T_NUMBER;
    let m := upd_nbStates_ (fun _ => as_int n) m in
    let root_it := tail root_it in
    (* Get Number of Mixture Components *)
    n ← expect root_it "nbMixtureComponents" T_NUMBER;
    let m := upd_nbMixtureComponents_ (fun _ => as_int n) m in
    let root_it := tail root_it in
    (* Get Covariance Offset *)
    n ← expect root_it "covarianceOffset" T_NUMBER;
    let m := upd_covarianceOffset_ (fun _ => as_float n) m in
    let root_it := tail root_it in
    (* Get Transition Mode *)
    n ← expect root_it "transitionMode" T_NUMBER;
    let m := upd_transitionMode_ (fun _ => mode_of_int (as_int n)) m in
    let root_it := tail root_it in
    (* Reallocate model parameters *)
    m ← allocate m;
    (* Get Prior Probabilities *)
    n ← expect root_it "prior" T_ARRAY;
    v ← json2vector n (prior_ m) (nbStates_ m);
    let m := upd_prior_ (fun _ => v) m in
    let root_it := tail root_it in
    (* Get Transition Matrix *)
    n ← expect root_it "transition" T_ARRAY;
    v ← json2vector n (transition_ m) (nbStates_ m * nbStates_ m);
    let m := upd_transition_ (fun _ => v) m in
    let root_it := tail root_it in
    (* Get Exit probabilities *)
    n ← expect root_it "exitProbabilities" T_ARRAY;
    v ← json2vector n (exitProbabilities_ m) (nbStates_ m);
    let m := upd_exitProbabilities_ (fun _ => v) m in
    let root_it := tail root_it in
    (* Get States *)
    n ← expect root_it "states" T_ARRAY;
    for_loopM (nbS m) (fun i m =>
      match json_children n !! i, states_ m !! i with
      | Some j, Some g =>
          g ← GMM_from_json j g;
          Ok (upd_states_ <[i := g]> m)
      | _, _ => Undefined
      end) m);
  Ok (upd_parent (upd_trained (fun _ => true)) m).

End Model.

(** ** Accessors, copies and the members used while playing

    The remaining member functions of [hmm.cpp].  They call a few more
    methods of the collaborators, gathered in [Companions]. *)

Class Companions `{PrivateData} (F : Type) := {
  GMM_initParametersToDefault : GMM F -> GMM F;
  GMM_set_nbMixtureComponents : Z -> GMM F -> GMM F;
  GMM_set_covarianceOffset : F -> GMM F -> GMM F;
  (* EMBasedModel::_copy(dst, src): the parent part of dst afterwards *)
  EMBasedModel_copy : EMBasedModel F -> EMBasedModel F -> EMBasedModel F;
  EMBasedModel_initPlaying : EMBasedModel F -> EMBasedModel F
}.

(** [play_EM_stopCriterion_]. *)
Record StopCriterion (F : Type) : Type := {
  minSteps : Z;
  maxSteps : Z;
  percentChg : F
}.
Arguments minSteps {F}.
Arguments maxSteps {F}.
Arguments percentChg {F}.

(** The object with the members that only the playing functions, the
    copy and the destructor touch, beside the members of [HMM]:
    [alpha_h] is the array of three vectors, [progress] is
    [results_hmm.progress] and [predicted_output] is
    [results.predicted_output]. *)
Record Playing `{PrivateData} (F : Type) : Type := {
  base : HMM F;
  forwardInitialized_ : bool;
  alpha_h : list (list F);
  play_EM_stopCriterion_ : StopCriterion F;
  progress : F;
  predicted_output : list F
}.
Arguments base {_ F}.
Arguments forwardInitialized_ {_ F}.
Arguments alpha_h {_ F}.
Arguments play_EM_stopCriterion_ {_ F}.
Arguments progress {_ F}.
Arguments predicted_output {_ F}.

Section Members.
Context `{PrivateData} {F : Type}.

Definition upd_base (f : HMM F -> HMM F) (o : Playing F) : Playing F :=
  {| base := f (base o); forwardInitialized_ := forwardInitialized_ o;
     alpha_h := alpha_h o; play_EM_stopCriterion_ := play_EM_stopCriterion_ o;
     progress := progress o; predicted_output := predicted_output o |}.

Definition upd_forwardInitialized_ (f : bool -> bool) (o : Playing F) : Playing F :=
  {| base := base o; forwardInitialized_ := f (forwardInitialized_ o);
     alpha_h := alpha_h o; play_EM_stopCriterion_ := play_EM_stopCriterion_ o;
     progress := progress o; predicted_output := predicted_output o |}.

Definition upd_alpha_h (f : list (list F) -> list (list F)) (o : Playing F)
  : Playing F :=
  {| base := base o; forwardInitialized_ := forwardInitialized_ o;
     alpha_h := f (alpha_h o); play_EM_stopCriterion_ := play_EM_stopCriterion_ o;
     progress := progress o; predicted_output := predicted_output o |}.

Definition upd_play_EM_stopCriterion_ (f : StopCriterion F -> StopCriterion F)
    (o : Playing F) : Playing F :=
  {| base := base o; forwardInitialized_ := forwardInitialized_ o;
     alpha_h := alpha_h o; play_EM_stopCriterion_ := f (play_EM_stopCriterion_ o);
     progress := progress o; predicted_output := predicted_output o |}.

Definition upd_progress (f : F -> F) (o : Playing F) : Playing F :=
  {| base := base o; forwardInitialized_ := forwardInitialized_ o;
     alpha_h := alpha_h o; play_EM_stopCriterion_ := play_EM_stopCriterion_ o;
     progress := f (progress o); predicted_output := predicted_output o |}.

Definition upd_predicted_output (f : list F -> list F) (o : Playing F) : Playing F :=
  {| base := base o; forwardInitialized_ := forwardInitialized_ o;
     alpha_h := alpha_h o; play_EM_stopCriterion_ := play_EM_stopCriterion_ o;
     progress := progress o; predicted_output := f (predicted_output o) |}.
End Members.

Section Accessors.
Context `{PrivateData} {F : Type} `{Scalar F} `{!EmissionModel F} `{!Host F}
        `{!Companions F}.
#[local] Open Scope scalar_scope.

(** *** Copy between models *)

(** [_copy(dst, src)].  [is_hierarchical_], [exitProbabilities_],
    [forwardInitialized_], [alpha_h] and the buffers of the training
    algorithm are not among the members copied; the four vectors of
    the forward-backward algorithm are resized, not copied. *)
Definition _copy (dst src : Playing F) : result (Playing F) :=
  let d := base dst in
  let s := base src in
  let d := upd_parent (fun p => EMBasedModel_copy p (parent s)) d in
  let d := upd_nbMixtureComponents_ (fun _ => nbMixtureComponents_ s) d in
  let d := upd_covarianceOffset_ (fun _ => covarianceOffset_ s) d in
  let d := upd_nbStates_ (fun _ => nbStates_ s) d in
  let d := upd_estimateMeans_ (fun _ => estimateMeans_ s) d in
  if nbStates_ d <? 0 then Throw (length_error "vector::_M_default_append")
  else
    let d := upd_alpha (resize (nbS d) fzero) d in
    let d := upd_previousAlpha_ (resize (nbS d) fzero) d in
    let d := upd_beta_ (resize (nbS d) fzero) d in
    let d := upd_previousBeta_ (resize (nbS d) fzero) d in
    let d := upd_transition_ (fun _ => transition_ s) d in
    let d := upd_prior_ (fun _ => prior_ s) d in
    let d := upd_transitionMode_ (fun _ => transitionMode_ s) d in
    let d := upd_states_ (fun _ => states_ s) d in
    Ok (upd_play_EM_stopCriterion_ (fun _ => play_EM_stopCriterion_ src)
          (upd_base (fun _ => d) dst)).

(** [operator=]; [same] tells whether [this == &src]. *)
Definition assign (same : bool) (this src : Playing F) : result (Playing F) :=
  if negb same then _copy this src else Ok this.

(** *** Accessors *)

Definition get_nbStates (m : HMM F) : Z := nbStates_ m.

Definition set_nbStates (nbStates : Z) (m : HMM F) : result (HMM F) :=
  if nbStates <? 1 then Throw (invalid_argument "Number of states must be > 0")
  else if nbStates =? nbStates_ m then Ok m
  else
    let m := upd_nbStates_ (fun _ => nbStates) m in
    m ← allocate m;
    Ok (upd_parent (upd_trained (fun _ => false)) m).

Definition get_nbMixtureComponents (m : HMM F) : Z := nbMixtureComponents_ m.

Definition set_nbMixtureComponents (nbMixtureComponents : Z) (m : HMM F)
  : result (HMM F) :=
  if nbMixtureComponents <? 1 then
    Throw (invalid_argument "The number of Gaussian mixture components must be > 0")
  else if nbMixtureComponents =? nbMixtureComponents_ m then Ok m
  else
    let m := for_loop (nbS m) (fun i m =>
               upd_states_
                 (alter (GMM_set_nbMixtureComponents nbMixtureComponents) i) m) m in
    let m := upd_nbMixtureComponents_ (fun _ => nbMixtureComponents) m in
    Ok (upd_parent (upd_trained (fun _ => false)) m).

(** [x == y] on numbers: false when either is not a number. *)
Definition feqb (x y : F) : bool :=
  negb (fisnan x) && negb (fisnan y) && negb (fltb x y) && negb (fltb y x).

Definition get_covarianceOffset (m : HMM F) : F := covarianceOffset_ m.

Definition set_covarianceOffset (covarianceOffset : F) (m : HMM F) : HMM F :=
  if feqb covarianceOffset (covarianceOffset_ m) then m
  else
    let m := for_loop (nbS m) (fun i m =>
               upd_states_ (alter (GMM_set_covarianceOffset covarianceOffset) i) m) m in
    upd_covarianceOffset_ (fun _ => covarianceOffset) m.

Definition get_transitionMode (m : HMM F) : string :=
  if decide (transitionMode_ m = ERGODIC) then "ergodic" else "left-right".

Definition set_transitionMode (transMode_str : string) (m : HMM F)
  : result (HMM F) :=
  if bool_decide (transMode_str = "ergodic") then
    Ok (upd_transitionMode_ (fun _ => ERGODIC) m)
  else if bool_decide (transMode_str = "left-right") then
    Ok (upd_transitionMode_ (fun _ => LEFT_RIGHT) m)
  else
    Throw (invalid_argument
             "Wrong Transition mode. choose 'ergodic' or 'left-right'").

(** *** Parameters initialization *)

(** The quotient of two [int]s; a zero [factor] is a division by zero. *)
Definition evaluateNbStates (factor : Z) (m : HMM F) : result (HMM F) :=
  match trainingSet (parent m) with
  | None => Ok m
  | Some ts =>
      if is_empty ts then Ok m
      else
        p ← phrase_at ts 0;
        if factor =? 0 then Undefined
        else set_nbStates (Z.quot (length_ p) factor) m
  end.

Definition initParametersToDefault (m : HMM F) : HMM F :=
  for_loop (nbS m) (fun i m =>
    upd_states_ (alter GMM_initParametersToDefault i) m) m.

Definition initMeansWithAllPhrases_single (m : HMM F) : result (HMM F) :=
  match trainingSet (parent m) with
  | None => Ok m
  | Some ts =>
      if is_empty ts then Ok m
      else
        let nbPhrases := Z.to_nat (size ts) in
        let m :=
          for_loop (nbS m) (fun n m =>
            for_loop (dim m) (fun d m =>
              upd_states_ (upd_mean_at n 0 d (fun _ => fzero)) m) m) m in
        let factor : list Z := replicate (nbS m) 0%Z in
        '(m, factor) ← for_loopM nbPhrases (fun i '(m, factor) =>
          p ← phrase_at ts (Z.of_nat i);
          if nbStates_ m =? 0 then Undefined
          else
            let step := Z.quot (length_ p) (nbStates_ m) in
            let '(m, _, factor) :=
              for_loop (nbS m) (fun n '((m, offset, factor) : HMM F * Z * list Z) =>
                let m :=
                  for_loop (Z.to_nat step) (fun t m =>
                    for_loop (dim m) (fun d m =>
                      upd_states_ (upd_mean_at n 0 d (fun x =>
                        x + at_ p (Z.to_nat offset + t)%nat d)) m) m) m in
                (m, (offset + step)%Z, alter (Z.add step) n factor))
                (m, 0%Z, factor) in
            Ok (m, factor)) (m, factor);
        Ok (for_loop (nbS m) (fun n m =>
              for_loop (dim m) (fun d m =>
                upd_states_ (upd_mean_at n 0 d (fun x =>
                  x / of_int (factor !!! n))) m) m) m)
  end.

(** *** Play *)

(** With a null [observation_output] the checks of [obsProb_bimodal] are
    still made before the pointer reaches the mixture. *)
Definition obsProb_bimodal_ptr (m : HMM F) (observation_input : list F)
    (observation_output : option (list F)) (stateIndex : nat)
    (mixtureComponent : Z) : result F :=
  match observation_output with
  | Some out => obsProb_bimodal m observation_input out stateIndex mixtureComponent
  | None =>
      if negb (bimodal_ (parent m)) then
        Throw (runtime_error "Model is not bimodal. Use the function 'obsProb'")
      else if unsigned (nbStates_ m) <=? unsigned (Z.of_nat stateIndex) then
        Throw (out_of_range "State index is out of bounds")
      else Undefined
  end.

(** The first loop of the initialised branch of
    [forward_update_withNewObservation]: [previousAlpha_] is not
    refreshed, and the likelihood is always the bimodal one. *)
Definition forward_update_withNewObservation_accumulate (observation : list F)
    (observation_output : option (list F)) (m : HMM F) : result (F * HMM F) :=
  for_loopM (nbS m) (fun j '(norm_const, m) =>
    let m := upd_alpha <[j := fzero]> m in
    let m :=
      for_loop (nbS m) (fun i m =>
        upd_alpha (alter (fun x =>
          x + previousAlpha_ m !!! i * transition_ m !!! (i * nbS m + j)%nat) j) m) m in
    o ← obsProb_bimodal_ptr m observation observation_output j (-1);
    let m := upd_alpha (alter (fun x => x * o) j) m in
    Ok (norm_const + alpha m !!! j, m)) (fzero, m).

Definition forward_update_withNewObservation (observation : list F)
    (observation_output : option (list F)) (o : Playing F)
  : result (Playing F * F) :=
  if forwardInitialized_ o then
    '(norm_const, m) ←
      forward_update_withNewObservation_accumulate observation observation_output
        (base o);
    let '(m, ct) := forward_scale norm_const m in
    Ok (upd_base (fun _ => m) o, ct)
  else
    '(m, ct) ← forward_init observation observation_output (base o);
    Ok (upd_base (fun _ => m) o, ct).

(** [resize] to a negative size throws. *)
Definition initPlaying (o : Playing F) : result (Playing F) :=
  let o := upd_base (upd_parent EMBasedModel_initPlaying) o in
  let o := upd_forwardInitialized_ (fun _ => false) o in
  o ← (if is_hierarchical_ (base o) then
         if nbStates_ (base o) <? 0 then
           Throw (length_error "vector::_M_fill_insert")
         else
           let o := for_loop 3 (fun i o =>
                      upd_alpha_h (alter (resize (nbS (base o)) fzero) i) o) o in
           let o := upd_base (upd_alpha (fun _ => [])) o in
           let o := upd_base (upd_previousAlpha_ (fun _ => [])) o in
           let o := upd_base (upd_beta_ (fun _ => [])) o in
           Ok (upd_base (upd_previousBeta_ (fun _ => [])) o)
       else Ok o);
  if bimodal_ (parent (base o)) then
    let n := (dimension_ (parent (base o)) - dimension_input_ (parent (base o)))%Z in
    if n <? 0 then Throw (length_error "vector::_M_default_append")
    else Ok (upd_predicted_output (resize (Z.to_nat n) fzero) o)
  else Ok o.

(** The write is [transition_[(nbStates_-1)*nbStates_]]: the first entry
    of the last row. *)
Definition addCyclicTransition (proba : F) (m : HMM F) : HMM F :=
  if negb (is_hierarchical_ m) then
    upd_transition_ <[Z.to_nat ((nbStates_ m - 1) * nbStates_ m) := proba]> m
  else m.

(** The loop counter is an [unsigned int]. *)
Definition updateTimeProgression (o : Playing F) : Playing F :=
  let m := base o in
  let o := upd_progress (fun _ => fzero) o in
  let o :=
    for_loop (Z.to_nat (unsigned (nbStates_ m))) (fun i o =>
      if is_hierarchical_ m then
        upd_progress (fun x =>
          x + ((alpha_h o !!! 0%nat) !!! i) * of_int (Z.of_nat i)) o
      else
        upd_progress (fun x => x + (alpha m !!! i) * of_int (Z.of_nat i)) o) o in
  upd_progress (fun x => x / of_int (nbStates_ m - 1)) o.

End Accessors.

(** ** Sample collaborators

    Concrete stand-ins for the collaborators, used to run the embedding on
    doubles: a mixture model that ignores its training data and gives every
    observation the likelihood it is told to, and a host whose JSON helpers
    write a vector as an array of numbers. *)

Module Sample.

Definition no_private : PrivateData := {| GMM_private := unit; EM_private := unit |}.
#[local] Existing Instance no_private.

Definition gmm {F : Type} (likelihood : F) : EmissionModel F := {|
  GMM_new := fun _ _ _ _ =>
    {| components := []; mixtureCoeffs := []; gmm_private := tt |};
  GMM_set_trainingSet := fun _ g => g;
  GMM_initTraining := fun g => g;
  GMM_setParametersToZero := fun g => g;
  GMM_normalizeMixtureCoeffs := fun g => g;
  GMM_addCovarianceOffset := fun g => g;
  GMM_updateInverseCovariances := fun g => g;
  GMM_obsProb := fun _ _ _ => likelihood;
  GMM_obsProb_input := fun _ _ _ => likelihood;
  GMM_obsProb_bimodal := fun _ _ _ _ => likelihood;
  GMM_to_json := fun _ => JSON_NODE "GMM" [];
  GMM_from_json := fun _ g => Ok g
|}.

Definition host {F : Type} `{Scalar F} : Host F := {|
  HIERARCHICAL := 4;
  GAUSSIAN_DEFAULT_COVARIANCE_OFFSET := fhalf;
  HMM_DEFAULT_ESTIMATEMEANS := true;
  HMM_DEFAULT_EXITPROBABILITY_LAST_STATE := fhalf;
  log := fun x => x;
  EMBasedModel_new := fun flags ts =>
    {| flags_ := flags; trainingSet := ts; bimodal_ := false; dimension_ := 1;
       dimension_input_ := 0; trained := false; em_private := tt |};
  BaseModel_finishTraining := fun b => b;
  EMBasedModel_to_json := fun _ => JSON_NODE "EMBasedModel" [];
  EMBasedModel_from_json := fun _ b => Ok b;
  vector2json := fun v name => JSON_ARRAY name (JSON_NUMBER "" <$> v);
  json2vector := fun n _ _ => Ok (as_float <$> json_children n)
|}.

(** A model with [n] states and vectors of the sizes [allocate] gives
    them. *)
Definition model {F : Type} `{Scalar F} (hierarchical : bool) (n : nat)
    (prior transition : list F) : HMM F := {|
  parent := {| flags_ := 0; trainingSet := None; bimodal_ := false;
               dimension_ := 1; dimension_input_ := 0; trained := false;
               em_private := tt |};
  is_hierarchical_ := hierarchical;
  nbStates_ := Z.of_nat n;
  nbMixtureComponents_ := 1;
  covarianceOffset_ := fzero;
  transitionMode_ := LEFT_RIGHT;
  estimateMeans_ := true;
  prior_ := prior;
  transition_ := transition;
  exitProbabilities_ := if hierarchical then replicate n fzero else [];
  states_ := replicate n {| components := []; mixtureCoeffs := []; gmm_private := tt |};
  alpha := replicate n fzero;
  previousAlpha_ := replicate n fzero;
  beta_ := replicate n fzero;
  previousBeta_ := replicate n fzero;
  gammaSequence_ := []; epsilonSequence_ := []; gammaSequencePerMixture_ := [];
  alpha_seq_ := []; beta_seq_ := []; gammaSum_ := []; gammaSumPerMixture_ := []
|}.

(** A phrase of [n] frames, each holding the value [x]. *)
Definition constant_phrase {F : Type} (n : Z) (x : F) : Phrase F := {|
  length_ := n;
  at_ := fun _ _ => x;
  get_dataPointer := fun _ => [x];
  get_dataPointer_input := fun _ => [x];
  get_dataPointer_output := fun _ => []
|}.

(** The model [m] with the phrases [ps] as its training set. *)
Definition with_training {F : Type} (ps : list (Phrase F)) (m : HMM F) : HMM F :=
  upd_parent (fun b =>
    {| flags_ := flags_ b;
       trainingSet := Some {| phrases := imap (fun i p => (Z.of_nat i, p)) ps |};
       bimodal_ := bimodal_ b; dimension_ := dimension_ b;
       dimension_input_ := dimension_input_ b; trained := trained b;
       em_private := em_private b |}) m.

End Sample.

(** Stand-ins for the further collaborators, and an object around a
    sample model. *)
Module SamplePlay.
#[local] Existing Instance Sample.no_private.

Definition companions {F : Type} : Companions F := {|
  GMM_initParametersToDefault := fun g => g;
  GMM_set_nbMixtureComponents := fun _ g => g;
  GMM_set_covarianceOffset := fun _ g => g;
  EMBasedModel_copy := fun _ src => src;
  EMBasedModel_initPlaying := fun b => b
|}.

Definition object {F : Type} `{Scalar F} (initialized : bool) (m : HMM F)
  : Playing F := {|
  base := m;
  forwardInitialized_ := initialized;
  alpha_h := [[]; []; []];
  play_EM_stopCriterion_ := {| minSteps := 0; maxSteps := 0; percentChg := fzero |};
  progress := fzero;
  predicted_output := []
|}.

(** The sample model with the parent's [bimodal_] flag set. *)
Definition bimodal {F : Type} (m : HMM F) : HMM F :=
  upd_parent (fun b =>
    {| flags_ := flags_ b; trainingSet := trainingSet b; bimodal_ := true;
       dimension_ := dimension_ b; dimension_input_ := dimension_input_ b;
       trained := trained b; em_private := em_private b |}) m.

(** A state with one component whose mean is [mu]. *)
Definition state {F : Type} (mu : list F) : GMM F := {|
  components := [{| mean := mu; covariance := [] |}];
  mixtureCoeffs := [];
  gmm_private := tt
|}.

(** A phrase of dimension 1 with the given frames. *)
Definition frames {F : Type} `{Scalar F} (values : list F) : Phrase F := {|
  length_ := Z.of_nat (length values);
  at_ := fun t _ => values !!! t;
  get_dataPointer := fun t => [values !!! t];
  get_dataPointer_input := fun t => [values !!! t];
  get_dataPointer_output := fun _ => []
|}.
End SamplePlay.

(** ** Vocabulary of the properties *)

(** The sums and quotients of [0], [0.5] and [1] that a left-right model
    meets are exact. *)
Class LeftRightArithmetic (F : Type) `{Scalar F} : Prop := {
  add_0_0 : fadd fzero fzero = fzero;
  add_0_half : fadd fzero fhalf = fhalf;
  add_half_half : fadd fhalf fhalf = fone;
  add_1_0 : fadd fone fzero = fone;
  add_0_1 : fadd fzero fone = fone;
  div_0_1 : fdiv fzero fone = fzero;
  div_half_1 : fdiv fhalf fone = fhalf;
  div_1_1 : fdiv fone fone = fone
}.

(** What a product with a zero likelihood can be, and the sums of such
    values: never positive. *)
Class NullArithmetic (F : Type) `{Scalar F} := {
  is_null : F -> Prop;
  null_zero : is_null fzero;
  null_mul_zero : forall x, is_null (fmul x fzero);
  null_add : forall x y, is_null x -> is_null y -> is_null (fadd x y);
  null_not_pos : forall x, is_null x -> fpos x = false
}.

Definition float_null (x : float) : Prop :=
  match Prim2SF x with
  | S754_zero _ | S754_nan => True
  | _ => False
  end.

Definition exact_null (x : exact) : Prop := x = Fin 0%Qc \/ x = NaN.

Section Rows.
Context {A : Type}.

(** Row [i] of a row-major matrix of width [w]. *)
Definition row_of (w : nat) (t : list A) (i : nat) : list A :=
  take w (drop (i * w) t).

(** [f i0], [f (i0+1)], ... applied to the first [k] rows of width [w]. *)
Fixpoint imap_rows (w : nat) (f : nat -> list A -> list A) (i0 k : nat)
    (t : list A) : list A :=
  match k with
  | O => t
  | S k' => f i0 (take w t) ++ imap_rows w f (S i0) k' (drop w t)
  end.

Definition keeps_width (w : nat) (f : nat -> list A -> list A) : Prop :=
  forall i r, length r = w -> length (f i r) = w.
End Rows.

Section Vocabulary.
Context `{PrivateData} {F : Type} `{Scalar F} `{!EmissionModel F} `{!Host F}.

(** The class invariant that [set_nbStates] and [allocate] maintain: at
    least one state, a count that fits an [int], and vectors of the sizes
    [allocate] gives them. *)
Record well_formed (m : HMM F) : Prop := {
  wf_nbStates : 1 <= nbStates_ m < 2 ^ 31;
  wf_prior : length (prior_ m) = nbS m;
  wf_transition : length (transition_ m) = (nbS m * nbS m)%nat;
  wf_states : length (states_ m) = nbS m;
  wf_alpha : length (alpha m) = nbS m;
  wf_beta : length (beta_ m) = nbS m
}.

(** What initialisation and training never touch: the mode flags, the
    sizes, the training set, the exit probabilities, and the lengths of
    the vectors that [allocate] sized. *)
Record frame (m0 m : HMM F) : Prop := {
  kept_hierarchical : is_hierarchical_ m = is_hierarchical_ m0;
  kept_exit : exitProbabilities_ m = exitProbabilities_ m0;
  kept_nbStates : nbStates_ m = nbStates_ m0;
  kept_nbMixtureComponents : nbMixtureComponents_ m = nbMixtureComponents_ m0;
  kept_transitionMode : transitionMode_ m = transitionMode_ m0;
  kept_estimateMeans : estimateMeans_ m = estimateMeans_ m0;
  kept_trainingSet : trainingSet (parent m) = trainingSet (parent m0);
  kept_bimodal : bimodal_ (parent m) = bimodal_ (parent m0);
  kept_dimension : dimension_ (parent m) = dimension_ (parent m0);
  kept_states : length (states_ m) = length (states_ m0);
  kept_prior_length : length (prior_ m) = length (prior_ m0);
  kept_transition_length : length (transition_ m) = length (transition_ m0);
  kept_alpha_length : length (alpha m) = length (alpha m0);
  kept_beta_length : length (beta_ m) = length (beta_ m0)
}.

(** The same, and the prior too. *)
Definition keeps_prior (m0 m : HMM F) : Prop :=
  frame m0 m /\ prior_ m = prior_ m0.

(** The emission likelihood of state [i], by the modality of the model
    and of the call: the branch that the forward and backward functions
    repeat. *)
Definition emission (m : HMM F) (observation : list F)
    (observation_output : option (list F)) (i : nat) : result F :=
  if bimodal_ (parent m) then
    match observation_output with
    | Some out => obsProb_bimodal m observation out i (-1)
    | None => obsProb_input m observation i (-1)
    end
  else obsProb m observation i (-1).

(** The sum of a vector, accumulated from the left as the code does. *)
Definition vsum (v : list F) : F := foldl fadd fzero v.

(** Row [i] of the transition matrix. *)
Definition row (m : HMM F) (i : nat) : list F :=
  row_of (nbS m) (transition_ m) i.

(** A vector divided by its sum. *)
Definition normalized (v : list F) : list F :=
  (fun x => fdiv x (vsum v)) <$> v.

Definition normalize_row : nat -> list F -> list F := fun _ r => normalized r.

(** Row [i] as the double loop of [setLeftRight] writes it. *)
Definition left_right_raw (n : nat) : nat -> list F -> list F := fun i _ =>
  (fun j => if bool_decide (i = j) || bool_decide ((i + 1)%nat = j)
            then fhalf else fzero) <$> seq 0 n.

(** Row [i] of the left-right transition matrix of [n] states: one half
    on the state and on the next one, and the last state absorbing. *)
Definition left_right_row (n i : nat) : list F :=
  (fun j => if bool_decide (S i = n) then
              if bool_decide (i = j) then fone else fzero
            else if bool_decide (i = j) || bool_decide ((i + 1)%nat = j)
                 then fhalf else fzero) <$> seq 0 n.
Definition one_hot (n : nat) : list F :=
  match n with
  | O => []
  | S k => fone :: replicate k fzero
  end.

(** [isnan(x) || isinf(abs(x))] is false. *)
Definition finite (x : F) : Prop :=
  fisnan x = false /\ fisinf (fabs x) = false.

(** What [to_json] and [from_json] ask of [vector2json] and
    [json2vector]: the node carries the name it was given, is an array,
    and reads back as the vector it was written from. *)
Definition vectors_round_trip : Prop :=
  forall (v dst : list F) (name : string),
    json_name (vector2json v name) = name /\
    json_type (vector2json v name) = T_ARRAY /\
    json2vector (vector2json v name) dst (Z.of_nat (length v)) = Ok v.

(** The integer members survive the trip through a number node. *)
Record integers_round_trip (m : HMM F) : Prop := {
  rt_dimension : to_int (of_int (dimension_ (parent m))) = dimension_ (parent m);
  rt_nbStates : to_int (of_int (nbStates_ m)) = nbStates_ m;
  rt_nbMixtureComponents :
    to_int (of_int (nbMixtureComponents_ m)) = nbMixtureComponents_ m;
  rt_transitionMode :
    mode_of_int (to_int (of_int (int_of_mode (transitionMode_ m))))
    = transitionMode_ m
}.

(** A vector member of the model, read and updated. *)
Record member : Type := {
  get : HMM F -> list F;
  upd : (list F -> list F) -> HMM F -> HMM F;
  get_upd : forall f m, get (upd f m) = f (get m);
  upd_upd : forall f g m, upd f (upd g m) = upd (fun v => f (g v)) m;
  upd_get : forall m, upd (fun _ => get m) m = m;
  upd_nbStates : forall f m, nbStates_ (upd f m) = nbStates_ m
}.

Definition prior_member : member.
Proof.
  refine {| get := prior_; upd := upd_prior_ |}; try reflexivity.
  intros []; reflexivity.
Defined.
Definition transition_member : member.
Proof.
  refine {| get := transition_; upd := upd_transition_ |}; try reflexivity.
  intros []; reflexivity.
Defined.
Definition alpha_member : member.
Proof.
  refine {| get := alpha; upd := upd_alpha |}; try reflexivity.
  intros []; reflexivity.
Defined.
Definition beta_member : member.
Proof.
  refine {| get := beta_; upd := upd_beta_ |}; try reflexivity.
  intros []; reflexivity.
Defined.
End Vocabulary.

(** ** Further vocabulary *)

Section FurtherVocabulary.
Context `{PrivateData} {F : Type} `{Scalar F} `{!EmissionModel F} `{!Host F}.
#[local] Open Scope nat_scope.

(** The value that [setErgodic] writes everywhere. *)
Definition ergodic_value (m : HMM F) : F :=
  fsingle (fdiv fone (fsingle (of_int (nbStates_ m)))).

Definition ergodic_raw (n : nat) (u : F) : nat -> list F -> list F :=
  fun _ _ => (fun _ => u) <$> seq 0 n.

(** The sum over the states [i] of [previous[i] * transition[i][j]], added
    up in the order of the loop. *)
Definition transition_sum (previous transition : list F) (n j : nat) : F :=
  for_loop n (fun i acc =>
    fadd acc (fmul (previous !!! i) (transition !!! (i * n + j)))) fzero.

(** The unscaled forward variable: entry [j] is the transition sum times
    the likelihood of state [j]. *)
Definition forward_step (previous transition : list F) (lik : nat -> F)
    (n : nat) : list F :=
  (fun j => fmul (transition_sum previous transition n j) (lik j)) <$> seq 0 n.

(** What the scaling makes of an unscaled [alpha]. *)
Definition scaled (n : nat) (nbStates : Z) (a : list F) : list F * F :=
  if fpos (vsum a) then ((fun x => fdiv x (vsum a)) <$> a, fdiv fone (vsum a))
  else (replicate n (fdiv fone (of_int nbStates)), fone).

(** The likelihood that state [j] gives the observation, as the forward
    and backward loops ask for it. *)
Definition likelihood (m : HMM F) (observation : list F)
    (observation_output : option (list F)) (j : nat) : F :=
  match states_ m !! j with
  | Some g =>
      if bimodal_ (parent m) then
        match observation_output with
        | Some out => GMM_obsProb_bimodal g observation out (-1)
        | None => GMM_obsProb_input g observation (-1)
        end
      else GMM_obsProb g observation (-1)
  | None => fzero
  end.
End FurtherVocabulary.

Section BackwardVocabulary.
Context `{PrivateData} {F : Type} `{Scalar F} `{!EmissionModel F} `{!Host F}.
#[local] Open Scope nat_scope.

(** The sum over the states [j] of
    [transition[i][j] * previous[j] * likelihood[j]], added up in the
    order of the loop. *)
Definition backward_sum (previous transition : list F) (lik : nat -> F)
    (n i : nat) : F :=
  for_loop n (fun j acc =>
    fadd acc (fmul (fmul (transition !!! (i * n + j)) (previous !!! j)) (lik j)))
    fzero.

(** The value kept for an entry of [beta_]: the sentinel when the entry
    is not a number or infinite. *)
Definition guarded (x : F) : F :=
  if fisnan x || fisinf (fabs x) then fhuge else x.

Definition backward_step (previous transition : list F) (lik : nat -> F)
    (ct : F) (n : nat) : list F :=
  (fun i => guarded (fmul (backward_sum previous transition lik n i) ct))
    <$> seq 0 n.
End BackwardVocabulary.

Section MeansVocabulary.
Context `{PrivateData} {F : Type} `{Scalar F}.
#[local] Open Scope nat_scope.

(** Every one of the first [N] states has a first component whose mean
    holds at least [D] entries: the writes of [mean[d]], [d < D], stay
    inside the vectors. *)
Definition has_means (st : list (GMM F)) (N D : nat) : Prop :=
  forall n, n < N ->
    exists g k, st !! n = Some g /\ components g !! 0 = Some k /\
                D <= length (mean k).

(** The mean of entry [d] over segment [n] of a phrase cut into
    [nbStates] segments of [length / nbStates] frames: the frames are
    added up in order, from zero, and the sum is divided by the number of
    frames. *)
Definition segment_mean (p : Phrase F) (nbStates : Z) (n d : nat) : F :=
  let step := Z.quot (length_ p) nbStates in
  fdiv (for_loop (Z.to_nat step) (fun t acc =>
          fadd acc (at_ p (Z.to_nat (Z.of_nat n * step) + t) d)) fzero)
       (of_int step).
End MeansVocabulary.

(** * Properties *)

(** ** Loops *)

Section LoopFacts.
Context {St : Type}.

Lemma for_loop_0 (body : nat -> St -> St) s : for_loop 0 body s = s.
Proof. reflexivity. Qed.

Lemma for_loop_S n (body : nat -> St -> St) s :
  for_loop (S n) body s = body n (for_loop n body s).
Proof. unfold for_loop. rewrite seq_S, foldl_app. reflexivity. Qed.

Lemma for_loopM_S n (body : nat -> St -> result St) s :
  for_loopM (S n) body s = bind (for_loopM n body s) (body n).
Proof. unfold for_loopM. rewrite seq_S, foldl_app. reflexivity. Qed.

(** A loop invariant [P k s]: "[s] is the state after [k] rounds". *)
Lemma for_loop_inv (P : nat -> St -> Prop) n body s :
  P 0%nat s ->
  (forall i s, (i < n)%nat -> P i s -> P (S i) (body i s)) ->
  P n (for_loop n body s).
Proof.
  intros H0 Hstep. induction n as [|n IH]; [exact H0|].
  rewrite for_loop_S. apply Hstep; [lia|]. apply IH.
  intros i s' Hi. apply Hstep. lia.
Qed.

(** The same for a loop whose body can fail: when every round succeeds
    from a state that satisfies the invariant, so does the loop. *)
Lemma for_loopM_inv (P : nat -> St -> Prop) n body s :
  P 0%nat s ->
  (forall i s, (i < n)%nat -> P i s -> exists s', body i s = Ok s' /\ P (S i) s') ->
  exists s', for_loopM n body s = Ok s' /\ P n s'.
Proof.
  intros H0 Hstep. induction n as [|n IH]; [exists s; split; [reflexivity|exact H0]|].
  destruct IH as (s1 & E1 & P1); [intros i s' Hi; apply Hstep; lia|].
  destruct (Hstep n s1) as (s2 & E2 & P2); [lia|exact P1|].
  exists s2. split; [|exact P2]. rewrite for_loopM_S, E1. exact E2.
Qed.

(** What holds of every state a round can leave holds of the result. *)
Lemma for_loopM_post (Q : St -> Prop) n body s s' :
  Q s ->
  (forall i s s', Q s -> body i s = Ok s' -> Q s') ->
  for_loopM n body s = Ok s' -> Q s'.
Proof.
  intros H0 Hstep. revert s'. induction n as [|n IH]; intros s' E.
  - injection E as <-. exact H0.
  - rewrite for_loopM_S in E. destruct (for_loopM n body s) as [s1| | |] eqn:E1;
      try discriminate. apply (Hstep n s1); [apply IH; reflexivity|exact E].
Qed.

Lemma foldl_inv {A} (Q : St -> Prop) (f : St -> A -> St) l s :
  Q s -> (forall s a, Q s -> Q (f s a)) -> Q (foldl f s l).
Proof. intros H0 Hstep. revert s H0. induction l; simpl; auto. Qed.

Lemma for_each_inv {A} (Q : St -> Prop) (l : list A) body s :
  Q s -> (forall a s, Q s -> Q (body a s)) -> Q (for_each l body s).
Proof. intros. unfold for_each. apply foldl_inv; auto. Qed.

Lemma for_loop_pres (Q : St -> Prop) n body s :
  Q s -> (forall i s, Q s -> Q (body i s)) -> Q (for_loop n body s).
Proof. intros. unfold for_loop. apply foldl_inv; auto. Qed.

Lemma foldlM_post {A} (Q : St -> Prop) (body : A -> St -> result St) l s s' :
  Q s ->
  (forall a s s', Q s -> body a s = Ok s' -> Q s') ->
  foldl (fun r a => bind r (body a)) (Ok s) l = Ok s' -> Q s'.
Proof.
  intros H0 Hstep. revert s'. induction l as [|a l IH] using rev_ind; intros s' E.
  - injection E as <-. exact H0.
  - rewrite foldl_app in E. simpl in E.
    destruct (foldl _ (Ok s) l) as [s1| | |] eqn:E1; try discriminate.
    apply (Hstep a s1); [apply IH; reflexivity|exact E].
Qed.

Lemma foldlM_ok {A} (Q : St -> Prop) (body : A -> St -> result St) l s :
  Q s ->
  (forall a s, a ∈ l -> Q s -> exists s', body a s = Ok s' /\ Q s') ->
  exists s', foldl (fun r a => bind r (body a)) (Ok s) l = Ok s' /\ Q s'.
Proof.
  intros H0 Hstep. induction l as [|a l IH] using rev_ind.
  - exists s. split; [reflexivity|exact H0].
  - destruct IH as (s1 & E1 & Q1).
    { intros b t Hb. apply Hstep. apply elem_of_app. left. exact Hb. }
    destruct (Hstep a s1) as (s2 & E2 & Q2); [|exact Q1|].
    { apply elem_of_app. right. apply list_elem_of_singleton. reflexivity. }
    exists s2. split; [|exact Q2]. rewrite foldl_app. simpl. rewrite E1. exact E2.
Qed.
End LoopFacts.

(** Reading a member of an updated record. *)
Ltac hmm_simpl :=
  unfold nbS, nbC, dim in *;
  cbn [parent is_hierarchical_ nbStates_ nbMixtureComponents_ covarianceOffset_
       transitionMode_ estimateMeans_ prior_ transition_ exitProbabilities_
       states_ alpha previousAlpha_ beta_ previousBeta_ gammaSequence_
       epsilonSequence_ gammaSequencePerMixture_ alpha_seq_ beta_seq_ gammaSum_
       gammaSumPerMixture_
       upd_parent upd_nbStates_ upd_nbMixtureComponents_ upd_covarianceOffset_
       upd_transitionMode_ upd_estimateMeans_ upd_prior_ upd_transition_
       upd_exitProbabilities_ upd_states_ upd_alpha upd_previousAlpha_ upd_beta_
       upd_previousBeta_ upd_gammaSequence_ upd_epsilonSequence_
       upd_gammaSequencePerMixture_ upd_alpha_seq_ upd_beta_seq_ upd_gammaSum_
       upd_gammaSumPerMixture_
       flags_ trainingSet bimodal_ dimension_ dimension_input_ trained em_private
       upd_dimension_ upd_trained
       get upd prior_member transition_member alpha_member beta_member
       fst snd] in *;
  repeat match goal with
    | |- context [Z.to_nat (nbStates_ ?m)] =>
        change (Z.to_nat (nbStates_ m)) with (nbS m)
    | H : context [Z.to_nat (nbStates_ ?m)] |- _ =>
        change (Z.to_nat (nbStates_ m)) with (nbS m) in H
    | |- context [Z.to_nat (nbMixtureComponents_ ?m)] =>
        change (Z.to_nat (nbMixtureComponents_ m)) with (nbC m)
    | H : context [Z.to_nat (nbMixtureComponents_ ?m)] |- _ =>
        change (Z.to_nat (nbMixtureComponents_ m)) with (nbC m) in H
    | |- context [Z.to_nat (dimension_ (parent ?m))] =>
        change (Z.to_nat (dimension_ (parent m))) with (dim m)
    | H : context [Z.to_nat (dimension_ (parent ?m))] |- _ =>
        change (Z.to_nat (dimension_ (parent m))) with (dim m) in H
    end.

Section ResultFacts.
Context {A B : Type}.

Lemma bind_Ok_inv (r : result A) (k : A -> result B) b :
  bind r k = Ok b -> exists a, r = Ok a /\ k a = Ok b.
Proof. destruct r; simpl; try discriminate. eauto. Qed.

Lemma mbind_Ok_inv (r : result A) (k : A -> result B) b :
  r ≫= k = Ok b -> exists a, r = Ok a /\ k a = Ok b.
Proof. apply bind_Ok_inv. Qed.

Lemma throws_bind (r : result A) (k : A -> result B) :
  throws (bind r k) <-> throws r \/ exists a, r = Ok a /\ throws (k a).
Proof.
  destruct r; simpl; split; try tauto; eauto.
  - intros [[]|(a' & E & T)]; congruence.
  - intros [[]|(a' & E & T)]. discriminate.
  - intros [[]|(a' & E & T)]. discriminate.
Qed.
End ResultFacts.

Lemma for_loopM_no_throw {St} n (body : nat -> St -> result St) s :
  (forall i s, ~ throws (body i s)) -> ~ throws (for_loopM n body s).
Proof.
  intros Hb. induction n as [|n IH]; [simpl; tauto|].
  rewrite for_loopM_S. rewrite throws_bind. intros [T|(a & _ & T)].
  - exact (IH T).
  - exact (Hb _ _ T).
Qed.

Section ExitProbabilities.
Context `{PrivateData} {F : Type} `{Scalar F} `{!EmissionModel F} `{!Host F}.

Lemma updateExitProbabilities_throws a (m : HMM F) :
  0 <= nbStates_ m ->
  throws (updateExitProbabilities a m) <-> is_hierarchical_ m = false.
Proof.
  intros HS. unfold updateExitProbabilities.
  destruct (is_hierarchical_ m); simpl.
  - destruct (Z.ltb_spec (nbStates_ m) 0); [lia|].
    split; [|discriminate]. intros T. exfalso. destruct a as [a|].
    + change (throws (bind (for_loopM (nbS m) (fun i e =>
                match a !! i with Some x => Ok (<[i:=x]> e) | None => Undefined end)
                (resize (nbS m) fzero (exitProbabilities_ m)))
                (fun e => Ok (upd_exitProbabilities_ (fun _ => e) m)))) in T.
      apply throws_bind in T. destruct T as [T|(e & _ & T)]; [|exact T].
      revert T. apply for_loopM_no_throw. intros i e. destruct (a !! i); simpl; tauto.
    + destruct (nbStates_ m =? 0); exact T.
  - tauto.
Qed.

Lemma updateExitProbabilities_NULL (m : HMM F) :
  is_hierarchical_ m = true -> 1 <= nbStates_ m ->
  updateExitProbabilities None m =
    Ok (upd_exitProbabilities_ (fun e =>
          <[Z.to_nat (nbStates_ m - 1) := HMM_DEFAULT_EXITPROBABILITY_LAST_STATE]>
            (resize (nbS m) fzero e)) m).
Proof.
  intros Hh HS. unfold updateExitProbabilities. rewrite Hh. simpl.
  destruct (Z.ltb_spec (nbStates_ m) 0); [lia|].
  destruct (Z.eqb_spec (nbStates_ m) 0); [lia|]. reflexivity.
Qed.

Lemma updateExitProbabilities_array a (m : HMM F) :
  is_hierarchical_ m = true -> 0 <= nbStates_ m -> (nbS m <= length a)%nat ->
  is_Ok (updateExitProbabilities (Some a) m).
Proof.
  intros Hh HS Ha. unfold updateExitProbabilities. rewrite Hh. simpl.
  destruct (Z.ltb_spec (nbStates_ m) 0); [lia|].
  destruct (for_loopM_inv (fun _ _ => True) (nbS m) (fun i e =>
     match a !! i with Some x => Ok (<[i:=x]> e) | None => Undefined end)
     (resize (nbS m) fzero (exitProbabilities_ m))) as (e & E & _); [exact I| |].
  - intros i e Hi _. destruct (lookup_lt_is_Some_2 a i) as [x Hx]; [lia|].
    rewrite Hx. eauto.
  - unfold mbind, result_bind. rewrite E. exact I.
Qed.

Lemma addExitPoint_throws i p (m : HMM F) :
  throws (addExitPoint i p m) <-> is_hierarchical_ m = false \/ nbStates_ m <= i.
Proof.
  unfold addExitPoint. destruct (is_hierarchical_ m); simpl.
  - destruct (Z.leb_spec (nbStates_ m) i); simpl.
    + split; [right; assumption|tauto].
    + destruct (i <? 0); simpl; split; try tauto; intros [|]; [discriminate|lia|discriminate|lia].
  - tauto.
Qed.

Lemma addExitPoint_in_range i p (m : HMM F) :
  is_hierarchical_ m = true -> 0 <= i < nbStates_ m ->
  addExitPoint i p m = Ok (upd_exitProbabilities_ <[Z.to_nat i := p]> m).
Proof.
  intros Hh Hi. unfold addExitPoint. rewrite Hh. simpl.
  destruct (Z.leb_spec (nbStates_ m) i); [lia|].
  destruct (Z.ltb_spec i 0); [lia|]. reflexivity.
Qed.

End ExitProbabilities.


(** On a hierarchical model [addExitPoint] tests the state index against
    [nbStates_] only: an index at or past [nbStates_] throws
    [out_of_range]; a negative index passes the test and is written
    through, outside the vector. *)
Theorem addExitPoint_out_of_range `{PrivateData} {F : Type} `{Scalar F}
    (m : HMM F) (i : Z) (p : F) :
  is_hierarchical_ m = true ->
  (nbStates_ m <= i ->
     addExitPoint i p m = Throw (out_of_range "State index out of bounds")) /\
  (i < 0 -> i < nbStates_ m -> addExitPoint i p m = Undefined).
Proof.
  intros Hh. unfold addExitPoint. rewrite Hh. simpl. split.
  - intros Hi. destruct (Z.leb_spec (nbStates_ m) i); [reflexivity|lia].
  - intros Hi Hn. destruct (Z.leb_spec (nbStates_ m) i); [lia|].
    destruct (Z.ltb_spec i 0); [reflexivity|lia].
Qed.

Lemma addExitPoint_out_of_range_witness :
  let m := Sample.model true 2 [1; 0]%float [0.5; 0.5; 0; 1]%float in
  addExitPoint 2 0.5%float m = Throw (out_of_range "State index out of bounds") /\
  addExitPoint (-1) 0.5%float m = Undefined.
Proof.
  intros m.
  destruct (addExitPoint_out_of_range m 2 0.5%float eq_refl) as [W1 _].
  destruct (addExitPoint_out_of_range m (-1) 0.5%float eq_refl) as [_ W2].
  split; [apply W1; simpl; lia|apply W2; simpl; lia].
Defined.

(** ** Loops over a range of a vector *)

Section RangeFacts.
Context {A : Type} `{Inhabited A}.
Implicit Types (t : list A) (b n : nat).
#[local] Open Scope nat_scope.

Lemma insert_range (g : nat -> A) t b n :
  b + n <= length t ->
  for_loop n (fun j t => <[b + j := g j]> t) t
  = take b t ++ (g <$> seq 0 n) ++ drop (b + n) t.
Proof.
  induction n as [|n IH]; intros Hn.
  - simpl. rewrite Nat.add_0_r, take_drop. reflexivity.
  - rewrite for_loop_S, IH by lia.
    destruct (lookup_lt_is_Some_2 t (b + n)) as [x Hx]; [lia|].
    rewrite (drop_S _ _ _ Hx), seq_S, fmap_app. simpl.
    rewrite insert_app_r_alt by (rewrite length_take; lia).
    rewrite length_take, Nat.min_l by lia.
    rewrite insert_app_r_alt by (rewrite length_fmap, length_seq; lia).
    rewrite length_fmap, length_seq.
    replace (b + n - b - n) with 0 by lia. simpl.
    rewrite <- app_assoc. simpl. replace (b + S n) with (S (b + n)) by lia.
    reflexivity.
Qed.

Lemma alter_range (f : A -> A) t b n :
  b + n <= length t ->
  for_loop n (fun j t => alter f (b + j) t) t
  = take b t ++ (f <$> take n (drop b t)) ++ drop (b + n) t.
Proof.
  induction n as [|n IH]; intros Hn.
  - simpl. rewrite Nat.add_0_r, take_drop. reflexivity.
  - rewrite for_loop_S, IH by lia.
    destruct (lookup_lt_is_Some_2 t (b + n)) as [x Hx]; [lia|].
    assert (Hx' : drop b t !! n = Some x) by (rewrite lookup_drop; exact Hx).
    rewrite (drop_S _ _ _ Hx), (take_S_r _ _ _ Hx'), fmap_app. simpl.
    rewrite alter_app_r_alt by (rewrite length_take; lia).
    rewrite length_take, Nat.min_l by lia.
    rewrite alter_app_r_alt
      by (rewrite length_fmap, length_take, length_drop; lia).
    rewrite length_fmap, length_take, length_drop, Nat.min_l by lia.
    replace (b + n - b - n) with 0 by lia. simpl.
    rewrite <- app_assoc. simpl. replace (b + S n) with (S (b + n)) by lia.
    reflexivity.
Qed.

Lemma read_range t b n :
  b + n <= length t ->
  (fun j => t !!! (b + j)) <$> seq 0 n = take n (drop b t).
Proof.
  intros Hn. apply list_eq. intros k.
  rewrite list_lookup_fmap. destruct (decide (k < n)) as [Hk|Hk].
  - rewrite lookup_seq_lt by lia. simpl. rewrite lookup_take_lt, lookup_drop by lia.
    destruct (lookup_lt_is_Some_2 t (b + k)) as [x Hx]; [lia|].
    rewrite Hx. f_equal. apply list_lookup_total_correct. exact Hx.
  - rewrite lookup_seq_ge by lia. simpl. symmetry. apply lookup_ge_None.
    rewrite length_take. lia.
Qed.

Lemma fold_range {B} (op : B -> A -> B) (g : nat -> A) n a :
  for_loop n (fun j acc => op acc (g j)) a = foldl op a (g <$> seq 0 n).
Proof.
  induction n as [|n IH]; [reflexivity|].
  rewrite for_loop_S, IH, seq_S, fmap_app, foldl_app. reflexivity.
Qed.

(** Writing every element, or altering every element, of a vector. *)
Lemma insert_all (g : nat -> A) t :
  for_loop (length t) (fun j t => <[j := g j]> t) t = g <$> seq 0 (length t).
Proof.
  transitivity (for_loop (length t) (fun j t => <[0 + j := g j]> t) t);
    [reflexivity|].
  rewrite insert_range by lia. simpl.
  rewrite drop_all, app_nil_r. reflexivity.
Qed.

Lemma alter_all (f : A -> A) t :
  for_loop (length t) (fun j t => alter f j t) t = f <$> t.
Proof.
  transitivity (for_loop (length t) (fun j t => alter f (0 + j) t) t);
    [reflexivity|].
  rewrite alter_range by lia. simpl.
  rewrite drop_all, app_nil_r, drop_0, firstn_all. reflexivity.
Qed.
End RangeFacts.

(** ** A matrix stored row by row *)

Section RowFacts.
Context {A : Type}.
Implicit Types (t r : list A) (w i k : nat).
#[local] Open Scope nat_scope.

Lemma length_imap_rows w f i0 k t :
  keeps_width w f -> k * w <= length t ->
  length (imap_rows w f i0 k t) = length t.
Proof.
  intros Hf. revert i0 t. induction k as [|k IH]; intros i0 t Hk; [reflexivity|].
  simpl in *. rewrite length_app, IH by (rewrite length_drop; lia).
  rewrite Hf by (rewrite length_take; lia). rewrite length_drop. lia.
Qed.

Lemma imap_rows_snoc w f i0 k t :
  keeps_width w f -> (S k) * w <= length t ->
  imap_rows w f i0 (S k) t
  = let u := imap_rows w f i0 k t in
    take (k * w) u ++ f (i0 + k) (take w (drop (k * w) u)) ++ drop (k * w + w) u.
Proof.
  intros Hf. revert i0 t. induction k as [|k IH]; intros i0 t Hk.
  - simpl. rewrite Nat.add_0_r, drop_0. reflexivity.
  - change (imap_rows w f i0 (S (S k)) t)
      with (f i0 (take w t) ++ imap_rows w f (S i0) (S k) (drop w t)).
    rewrite IH by (rewrite length_drop; simpl in *; lia).
    cbv zeta. change (imap_rows w f i0 (S k) t)
      with (f i0 (take w t) ++ imap_rows w f (S i0) k (drop w t)).
    set (u := imap_rows w f (S i0) k (drop w t)).
    assert (Hl : w = length (f i0 (take w t)))
      by (symmetry; apply Hf; rewrite length_take; simpl in *; lia).
    replace (S k * w) with (w + k * w) by lia.
    rewrite take_app_add' by exact Hl.
    rewrite drop_app_add' by exact Hl.
    replace (w + k * w + w) with (w + (k * w + w)) by lia.
    rewrite drop_app_add' by exact Hl.
    rewrite <- app_assoc. replace (S i0 + k) with (i0 + S k) by lia. reflexivity.
Qed.

Lemma row_of_imap_rows w f i0 k t i :
  keeps_width w f -> k * w <= length t -> i < k ->
  row_of w (imap_rows w f i0 k t) i = f (i0 + i) (row_of w t i).
Proof.
  intros Hf. unfold row_of. revert i0 t i. induction k as [|k IH]; intros i0 t i Hk Hi; [lia|].
  simpl in Hk. simpl.
  assert (Hl : w = length (f i0 (take w t)))
    by (symmetry; apply Hf; rewrite length_take; lia).
  destruct i as [|i].
  - simpl. rewrite drop_0, Nat.add_0_r, take_app_length' by exact Hl. reflexivity.
  - replace (S i * w) with (w + i * w) by lia.
    rewrite drop_app_add' by exact Hl.
    rewrite IH by (rewrite ?length_drop; lia).
    rewrite drop_drop. replace (S i0 + i) with (i0 + S i) by lia. reflexivity.
Qed.

Lemma imap_rows_id w f i0 k t :
  k * w <= length t ->
  (forall i, i < k -> f (i0 + i) (row_of w t i) = row_of w t i) ->
  imap_rows w f i0 k t = t.
Proof.
  revert i0 t. induction k as [|k IH]; intros i0 t Hk Hf; [reflexivity|].
  simpl in *. pose proof (Hf 0 ltac:(lia)) as H0. unfold row_of in H0.
  simpl in H0. rewrite drop_0, Nat.add_0_r in H0. rewrite H0.
  rewrite IH; [apply take_drop|rewrite length_drop; lia|].
  intros i Hi. specialize (Hf (S i) ltac:(lia)). unfold row_of in *.
  rewrite drop_drop. replace (w + i * w) with (S i * w) by lia.
  replace (S i0 + i) with (i0 + S i) by lia. exact Hf.
Qed.

Lemma row_of_ext w t u :
  length t = length u ->
  (exists k, length t = k * w) -> 0 < w ->
  (forall i, i * w < length t -> row_of w t i = row_of w u i) -> t = u.
Proof.
  intros Hl [k Hk] Hw Hr. revert t u Hl Hk Hr.
  induction k as [|k IH]; intros t u Hl Hk Hr.
  - destruct t; [|simpl in Hk; lia]. destruct u; [reflexivity|simpl in Hl; lia].
  - rewrite <- (take_drop w t), <- (take_drop w u). f_equal.
    + specialize (Hr 0 ltac:(lia)). unfold row_of in Hr. simpl in Hr.
      rewrite !drop_0 in Hr. exact Hr.
    + apply IH; rewrite ?length_drop; try lia.
      intros i Hi. specialize (Hr (S i) ltac:(simpl; lia)). unfold row_of in *.
      rewrite !drop_drop. replace (w + i * w) with (S i * w) by lia. exact Hr.
Qed.
End RowFacts.

(** ** The transition model *)

Section TransitionModel.
Context `{PrivateData} {F : Type} `{Scalar F} `{!EmissionModel F} `{!Host F}.
#[local] Open Scope nat_scope.

(** A loop that only assigns to one vector member is a loop on that
    vector. *)
Lemma for_loop_member (L : member) n (body : nat -> HMM F -> HMM F)
    (h : nat -> list F -> list F) m :
  (forall j v, j < n ->
     body j (upd L (fun _ => v) m) = upd L (fun _ => h j v) m) ->
  for_loop n body m = upd L (fun _ => for_loop n h (get L m)) m.
Proof.
  intros Hb.
  apply (for_loop_inv
           (fun k m' => m' = upd L (fun _ => for_loop k h (get L m)) m)).
  - simpl. symmetry. apply upd_get.
  - intros i m' Hi ->. rewrite Hb by exact Hi. rewrite for_loop_S. reflexivity.
Qed.

Lemma vsum_snoc (v : list F) x : vsum (v ++ [x]) = fadd (vsum v) x.
Proof. unfold vsum. rewrite foldl_app. reflexivity. Qed.

Lemma vsum_take_S (v : list F) i :
  i < length v -> vsum (take (S i) v) = fadd (vsum (take i v)) (v !!! i).
Proof.
  intros Hi. destruct (lookup_lt_is_Some_2 v i Hi) as [x Hx].
  rewrite (take_S_r _ _ _ Hx), vsum_snoc.
  rewrite (list_lookup_total_correct _ _ _ Hx). reflexivity.
Qed.

Lemma normalize_row_width w : keeps_width w normalize_row.
Proof. intros i r Hr. unfold normalize_row, normalized. rewrite length_fmap. exact Hr. Qed.

(** [normalizeTransitions] divides every row of the transition matrix,
    and the prior, by its sum. *)
Lemma normalizeTransitions_eq (m : HMM F) :
  well_formed m ->
  normalizeTransitions m
  = upd_prior_ (fun _ => normalized (prior_ m))
      (upd_transition_ (fun _ =>
         imap_rows (nbS m) normalize_row 0 (nbS m) (transition_ m)) m).
Proof.
  intros [HS Hp Ht _ _ _]. unfold normalizeTransitions.
  set (n := nbS m) in *.
  pose proof (for_loop_inv
    (fun i (s : F * HMM F) =>
       s.1 = vsum (take i (prior_ m)) /\
       s.2 = upd_transition_ (fun _ =>
               imap_rows n normalize_row 0 i (transition_ m)) m) n
    (fun i '(norm_prior, m) =>
      let norm_prior := fadd norm_prior (prior_ m !!! i) in
      let norm_transition :=
        for_loop (nbS m) (fun j norm_transition =>
          fadd norm_transition (transition_ m !!! (i * nbS m + j)%nat)) fzero in
      let m :=
        for_loop (nbS m) (fun j m =>
          upd_transition_ (alter (fun x => fdiv x norm_transition)
                             (i * nbS m + j)%nat) m) m in
      (norm_prior, m)) (fzero, m)) as Hinv.
  destruct Hinv as [Hnp Hm'].
  - simpl. split; [reflexivity|]. symmetry. apply (upd_get transition_member).
  - intros i [np m'] Hi [Hnp Hm']. simpl in Hnp, Hm'. subst np m'.
    cbn [fst snd]. split.
    + cbn. rewrite vsum_take_S by lia. reflexivity.
    + cbv zeta. change (nbS (upd_transition_ _ m)) with n.
      set (u := imap_rows n normalize_row 0 i (transition_ m)).
      assert (Hu : length u = length (transition_ m)).
      { apply length_imap_rows; [apply normalize_row_width|]. rewrite Ht. fold n. nia. }
      rewrite (fold_range fadd (fun j => u !!! (i * n + j)) n fzero).
      rewrite read_range by (rewrite Hu, Ht; fold n; nia).
      rewrite (for_loop_member transition_member n _
                 (fun j t => alter (fun x => fdiv x (vsum (row_of n u i))) (i * n + j) t))
        by (intros; reflexivity).
      rewrite imap_rows_snoc
        by (try apply normalize_row_width; rewrite Ht; fold n; nia).
      cbv zeta. fold u. hmm_simpl.
      rewrite alter_range by (rewrite Hu, Ht; fold n; nia).
      reflexivity.
  - destruct (for_loop n _ (fzero, m)) as [np m']. simpl in Hnp, Hm'. subst np m'.
    change (nbS (upd_transition_ _ m)) with n.
    rewrite (for_loop_member prior_member n _
               (fun i p => alter (fun x => fdiv x (vsum (take n (prior_ m)))) i p))
      by (intros; reflexivity).
    cbn.
    assert (E : for_loop n (fun i p =>
                  alter (fun x => fdiv x (vsum (take n (prior_ m)))) i p) (prior_ m)
                = normalized (prior_ m)).
    { clearbody n. subst n. rewrite alter_all, firstn_all. reflexivity. }
    rewrite E. reflexivity.
Qed.

Lemma left_right_raw_width n : keeps_width n (left_right_raw n).
Proof. intros i r _. unfold left_right_raw. rewrite length_fmap, length_seq. reflexivity. Qed.

Lemma setLeftRight_eq (m : HMM F) :
  well_formed m ->
  setLeftRight m
  = upd_prior_ (fun _ => one_hot (nbS m))
      (upd_transition_ (fun _ =>
         <[nbS m * nbS m - 1 := fone]>
           (imap_rows (nbS m) (left_right_raw (nbS m)) 0 (nbS m) (transition_ m))) m).
Proof.
  intros [HS Hp Ht _ _ _]. unfold setLeftRight.
  set (n := nbS m) in *.
  rewrite (for_loop_inv
    (fun i m' => m' = upd_prior_ (fun _ => replicate i fzero ++ drop i (prior_ m))
                   (upd_transition_ (fun _ =>
                      imap_rows n (left_right_raw n) 0 i (transition_ m)) m)) n _ m).
  - cbn. replace (Z.to_nat (nbStates_ m * nbStates_ m - 1)) with (n * n - 1)
      by (unfold n, nbS; rewrite Z2Nat.inj_sub, Z2Nat.inj_mul by lia; reflexivity).
    rewrite drop_ge by lia. rewrite app_nil_r.
    assert (Hn : 1 <= n) by (unfold n, nbS; lia).
    unfold one_hot. clearbody n. destruct n as [|k]; [lia|]. reflexivity.
  - simpl. destruct m; reflexivity.
  - intros i m' Hi ->. cbv zeta.
    change (nbS (upd_prior_ _ _)) with n.
    set (u := imap_rows n (left_right_raw n) 0 i (transition_ m)).
    assert (Hu : length u = length (transition_ m)).
    { apply length_imap_rows; [apply left_right_raw_width|]. rewrite Ht. fold n. nia. }
    rewrite (for_loop_member transition_member n _
               (fun j t => <[i * n + j :=
                  if bool_decide (i = j) || bool_decide (i + 1 = j)
                  then fhalf else fzero]> t))
      by (intros; reflexivity).
    rewrite imap_rows_snoc
      by (try apply left_right_raw_width; rewrite Ht; fold n; nia).
    cbv zeta. fold u. hmm_simpl.
    rewrite insert_range by (rewrite Hu, Ht; fold n; nia).
    assert (E : <[i := fzero]> (replicate i fzero ++ drop i (prior_ m))
                = replicate (S i) fzero ++ drop (S i) (prior_ m)).
    { destruct (lookup_lt_is_Some_2 (prior_ m) i) as [x Hx]; [lia|].
      rewrite (drop_S _ _ _ Hx).
      rewrite insert_app_r_alt by (rewrite length_replicate; lia).
      rewrite length_replicate, Nat.sub_diag.
      rewrite replicate_S_end, <- app_assoc. reflexivity. }
    rewrite <- E. clearbody u. destruct m. reflexivity.
Qed.
End TransitionModel.

(** ** Sums in exact arithmetic *)

Section ExactSums.
Implicit Types (v : list exact) (qs : list Qc) (a s : Qc).

Lemma foldl_fadd_NaN v : foldl fadd NaN v = NaN.
Proof. induction v as [|x v IH]; [reflexivity|]. simpl. exact IH. Qed.

Lemma foldl_fadd_Fin a qs :
  foldl fadd (Fin a) (Fin <$> qs) = Fin (foldl Qcplus a qs).
Proof. revert a. induction qs as [|q qs IH]; intros a; [reflexivity|]. simpl. apply IH. Qed.

(** A sum that is a number is a sum of numbers. *)
Lemma foldl_fadd_Fin_inv a v s :
  foldl fadd (Fin a) v = Fin s ->
  exists qs, v = Fin <$> qs /\ foldl Qcplus a qs = s.
Proof.
  revert a. induction v as [|x v IH]; intros a E.
  - exists []. split; [reflexivity|]. simpl in *. injection E as ->. reflexivity.
  - destruct x as [q|]; simpl in E.
    + destruct (IH _ E) as (qs & -> & Es). exists (q :: qs). split; [reflexivity|exact Es].
    + rewrite foldl_fadd_NaN in E. discriminate.
Qed.

Lemma foldl_Qcplus_shift a qs : foldl Qcplus a qs = (a + foldl Qcplus 0 qs)%Qc.
Proof.
  revert a. induction qs as [|q qs IH]; intros a; simpl.
  - ring.
  - rewrite (IH (a + q)%Qc), (IH (0 + q)%Qc). ring.
Qed.

Lemma foldl_Qcplus_div a s qs :
  s <> 0%Qc ->
  foldl Qcplus a ((fun q => q / s)%Qc <$> qs) = (a + foldl Qcplus 0 qs / s)%Qc.
Proof.
  intros Hs. revert a. induction qs as [|q qs IH]; intros a; simpl.
  - field. exact Hs.
  - rewrite IH, (foldl_Qcplus_shift (0 + q)%Qc). field. exact Hs.
Qed.

Lemma fpos_Fin s : fpos (Fin s) = true -> s <> 0%Qc.
Proof.
  unfold fpos. simpl. intros E ->. discriminate.
Qed.

Lemma fpos_inv (x : exact) : fpos x = true -> exists s, x = Fin s /\ s <> 0%Qc.
Proof.
  destruct x as [s|]; [|discriminate]. intros E. exists s. split; [reflexivity|].
  apply fpos_Fin. exact E.
Qed.

(** A vector with a positive sum, divided by that sum, sums to one. *)
Lemma vsum_normalized v : fpos (vsum v) = true -> vsum (normalized v) = fone.
Proof.
  intros Hpos. destruct (fpos_inv _ Hpos) as (s & Es & Hs).
  destruct (foldl_fadd_Fin_inv _ _ _ Es) as (qs & -> & Eq).
  unfold normalized. rewrite Es.
  assert (E : (fun x => fdiv x (Fin s)) <$> (Fin <$> qs)
              = Fin <$> ((fun q => q / s)%Qc <$> qs)).
  { rewrite <- !list_fmap_compose. apply list_fmap_ext. intros i q _. simpl.
    destruct (Qc_eq_dec s 0%Qc); [contradiction|reflexivity]. }
  rewrite E.
  unfold vsum. change (@fzero exact _) with (Fin 0%Qc).
  rewrite foldl_fadd_Fin, foldl_Qcplus_div by exact Hs.
  rewrite Eq. change (@fone exact _) with (Fin 1%Qc). f_equal. field. exact Hs.
Qed.
End ExactSums.

Section Normalize.
Context `{PrivateData} {F : Type} `{Scalar F} `{!EmissionModel F} `{!Host F}.
#[local] Open Scope nat_scope.

Lemma prior_normalizeTransitions (m : HMM F) :
  well_formed m -> prior_ (normalizeTransitions m) = normalized (prior_ m).
Proof. intros Hwf. rewrite normalizeTransitions_eq by exact Hwf. reflexivity. Qed.

Lemma row_normalizeTransitions (m : HMM F) i :
  well_formed m -> i < nbS m ->
  row (normalizeTransitions m) i = normalized (row m i).
Proof.
  intros Hwf Hi. rewrite normalizeTransitions_eq by exact Hwf.
  unfold row. hmm_simpl.
  change (Z.to_nat (nbStates_ m)) with (nbS m).
  rewrite row_of_imap_rows; [reflexivity|apply normalize_row_width| |exact Hi].
  rewrite (wf_transition m Hwf). lia.
Qed.

Lemma well_formed_normalizeTransitions (m : HMM F) :
  well_formed m -> well_formed (normalizeTransitions m).
Proof.
  intros Hwf. rewrite normalizeTransitions_eq by exact Hwf.
  destruct Hwf as [HS Hp Ht Hs Ha Hb].
  split; hmm_simpl; try assumption.
  - unfold normalized. rewrite length_fmap. exact Hp.
  - change (Z.to_nat (nbStates_ m)) with (nbS m).
    rewrite length_imap_rows; [exact Ht|apply normalize_row_width|]. rewrite Ht. lia.
Qed.
End Normalize.


(** [normalizeTransitions] works row by row: the prior is divided by its
    sum and every row of the transition matrix by its own sum, whatever
    the sums are, and the sizes, the exit probabilities and the states are
    left as they were. *)
Theorem normalizeTransitions_rowwise `{PrivateData} {F : Type} `{Scalar F}
    (m : HMM F) :
  well_formed m ->
  prior_ (normalizeTransitions m) = normalized (prior_ m) /\
  (forall i, (i < nbS m)%nat ->
     row (normalizeTransitions m) i = normalized (row m i)) /\
  nbStates_ (normalizeTransitions m) = nbStates_ m /\
  exitProbabilities_ (normalizeTransitions m) = exitProbabilities_ m /\
  states_ (normalizeTransitions m) = states_ m.
Proof.
  intros Hwf. split; [apply prior_normalizeTransitions; exact Hwf|].
  split; [intros i Hi; apply row_normalizeTransitions; assumption|].
  rewrite normalizeTransitions_eq by exact Hwf. repeat split; reflexivity.
Qed.

(** ** The left-right topology *)

#[export] Instance binary64_left_right : LeftRightArithmetic float.
Proof. split; reflexivity. Qed.

#[export] Instance exact_left_right : LeftRightArithmetic exact.
Proof.
  split; vm_compute; try reflexivity; f_equal; apply Qc_is_canon; reflexivity.
Qed.

Section LeftRight.
Context `{PrivateData} {F : Type} `{Scalar F} `{!EmissionModel F} `{!Host F}.
Context `{!LeftRightArithmetic F}.
#[local] Open Scope nat_scope.

Lemma lookup_row_of {A} w (t : list A) i j :
  j < w -> row_of w t i !! j = t !! (i * w + j).
Proof. intros Hj. unfold row_of. rewrite lookup_take_lt, lookup_drop by lia. reflexivity. Qed.

Lemma length_row_of {A} w (t : list A) i :
  i * w + w <= length t -> length (row_of w t i) = w.
Proof. intros Hl. unfold row_of. rewrite length_take, length_drop. lia. Qed.

Lemma length_left_right_row n i : length (left_right_row (F:=F) n i) = n.
Proof. unfold left_right_row. rewrite length_fmap, length_seq. reflexivity. Qed.

(** The matrix that [setLeftRight] writes. *)
Lemma row_of_setLeftRight (m : HMM F) i :
  well_formed m -> i < nbS m ->
  row (setLeftRight m) i = left_right_row (nbS m) i.
Proof.
  intros Hwf Hi. rewrite setLeftRight_eq by exact Hwf.
  destruct Hwf as [HS Hp Ht _ _ _]. unfold row. hmm_simpl.
  change (Z.to_nat (nbStates_ m)) with (nbS m). set (n := nbS m) in *.
  set (X := imap_rows n (left_right_raw n) 0 n (transition_ m)).
  assert (HX : length X = n * n).
  { unfold X. rewrite length_imap_rows; [exact Ht|apply left_right_raw_width|lia]. }
  apply list_eq. intros j. destruct (decide (j < n)) as [Hj|Hj].
  2:{ rewrite (lookup_ge_None_2 (row_of _ _ _)).
      - symmetry. apply lookup_ge_None_2. rewrite length_left_right_row. lia.
      - rewrite length_row_of; [lia|]. rewrite length_insert, HX. nia. }
  rewrite lookup_row_of by exact Hj.
  unfold left_right_row. rewrite list_lookup_fmap, lookup_seq_lt by exact Hj. simpl.
  assert (Hraw : X !! (i * n + j)
                 = Some (if bool_decide (i = j) || bool_decide (i + 1 = j)
                         then fhalf else fzero)).
  { rewrite <- lookup_row_of by exact Hj. unfold X.
    rewrite row_of_imap_rows by (try apply left_right_raw_width; lia).
    unfold left_right_raw. rewrite list_lookup_fmap, lookup_seq_lt by exact Hj.
    reflexivity. }
  destruct (decide (i * n + j = n * n - 1)) as [E|E].
  - rewrite E, list_lookup_insert_eq by (rewrite HX; nia).
    assert (i = n - 1 /\ j = n - 1) as [-> ->] by nia.
    rewrite bool_decide_true by lia. rewrite bool_decide_true by lia. reflexivity.
  - rewrite list_lookup_insert_ne by lia. rewrite Hraw.
    destruct (decide (S i = n)) as [Ei|Ei].
    + rewrite (bool_decide_true (S i = n)) by exact Ei.
      rewrite (bool_decide_false (i = j)) by nia.
      rewrite (bool_decide_false (i + 1 = j)) by lia. reflexivity.
    + rewrite (bool_decide_false (S i = n)) by exact Ei. reflexivity.
Qed.

Lemma prior_setLeftRight (m : HMM F) :
  well_formed m -> prior_ (setLeftRight m) = one_hot (nbS m).
Proof. intros Hwf. rewrite setLeftRight_eq by exact Hwf. reflexivity. Qed.

Lemma well_formed_setLeftRight (m : HMM F) :
  well_formed m -> well_formed (setLeftRight m).
Proof.
  intros Hwf. rewrite setLeftRight_eq by exact Hwf.
  destruct Hwf as [HS Hp Ht Hs Ha Hb].
  split; hmm_simpl; try assumption.
  - change (Z.to_nat (nbStates_ m)) with (nbS m).
    destruct (nbS m) as [|k] eqn:E; [unfold nbS in E; lia|].
    simpl. rewrite length_replicate. reflexivity.
  - change (Z.to_nat (nbStates_ m)) with (nbS m).
    rewrite length_insert, length_imap_rows;
      [exact Ht|apply left_right_raw_width|]. rewrite Ht. lia.
Qed.

(** The running sum of a left-right row. *)
Lemma vsum_left_right_prefix n i k :
  i < n -> k <= n ->
  foldl fadd fzero (take k (left_right_row n i))
  = if bool_decide (k <= i) then fzero
    else if bool_decide (S i = n) then fone
    else if bool_decide (k = i + 1) then fhalf else fone.
Proof.
  intros Hi. induction k as [|k IH]; intros Hk.
  - rewrite bool_decide_true by lia. reflexivity.
  - assert (Hx : left_right_row n i !! k
                 = Some (if bool_decide (S i = n) then
                           if bool_decide (i = k) then fone else fzero
                         else if bool_decide (i = k) || bool_decide (i + 1 = k)
                              then fhalf else fzero)).
    { unfold left_right_row. rewrite list_lookup_fmap, lookup_seq_lt by lia. reflexivity. }
    rewrite (take_S_r _ _ _ Hx), foldl_app, IH by lia. simpl.
    repeat case_bool_decide; simpl; try lia;
      first [apply add_0_0|apply add_0_half|apply add_half_half|apply add_1_0|apply add_0_1].
Qed.

Lemma vsum_left_right_row n i : i < n -> vsum (left_right_row n i) = fone.
Proof.
  intros Hi. unfold vsum.
  rewrite <- (firstn_all (left_right_row n i)), length_left_right_row.
  rewrite vsum_left_right_prefix by lia.
  repeat case_bool_decide; try lia; reflexivity.
Qed.

Lemma normalized_left_right_row n i :
  i < n -> normalized (left_right_row n i) = left_right_row n i.
Proof.
  intros Hi. unfold normalized. rewrite vsum_left_right_row by exact Hi.
  unfold left_right_row. rewrite <- list_fmap_compose. apply list_fmap_ext.
  intros k j _. simpl.
  repeat case_bool_decide; simpl;
    first [apply div_0_1|apply div_half_1|apply div_1_1].
Qed.

Lemma vsum_one_hot n : 1 <= n -> vsum (one_hot n) = fone.
Proof.
  intros Hn. destruct n as [|k]; [lia|]. unfold vsum. simpl. rewrite add_0_1.
  clear Hn. induction k as [|k IH]; [reflexivity|]. simpl. rewrite add_1_0. exact IH.
Qed.

Lemma normalized_one_hot n : 1 <= n -> normalized (one_hot n) = one_hot n.
Proof.
  intros Hn. unfold normalized. rewrite vsum_one_hot by exact Hn.
  destruct n as [|k]; [lia|]. simpl. rewrite div_1_1. f_equal.
  clear Hn. induction k as [|k IH]; [reflexivity|]. simpl. rewrite div_0_1, IH. reflexivity.
Qed.

(** Normalising a freshly set left-right model changes nothing. *)
Lemma normalizeTransitions_setLeftRight (m : HMM F) :
  well_formed m -> normalizeTransitions (setLeftRight m) = setLeftRight m.
Proof.
  intros Hwf. pose proof (well_formed_setLeftRight m Hwf) as Hwf1.
  rewrite normalizeTransitions_eq by exact Hwf1.
  assert (Hn : nbS (setLeftRight m) = nbS m)
    by (rewrite setLeftRight_eq by exact Hwf; reflexivity).
  rewrite prior_setLeftRight by exact Hwf. rewrite Hn.
  rewrite normalized_one_hot by (destruct Hwf; unfold nbS; lia).
  rewrite imap_rows_id.
  - rewrite <- (prior_setLeftRight m Hwf). destruct (setLeftRight m); reflexivity.
  - rewrite (wf_transition _ Hwf1), Hn. lia.
  - intros i Hi. change (0 + i) with i. unfold normalize_row.
    pose proof (row_of_setLeftRight m i Hwf Hi) as Hr. unfold row in Hr.
    rewrite Hn in Hr. rewrite Hr. apply normalized_left_right_row. exact Hi.
Qed.

(** [setLeftRight] overwrites the prior and the transition matrix
    whatever they held. *)
Lemma setLeftRight_idempotent (m : HMM F) :
  well_formed m -> setLeftRight (setLeftRight m) = setLeftRight m.
Proof.
  intros Hwf. pose proof (well_formed_setLeftRight m Hwf) as Hwf1.
  assert (Hn : nbS (setLeftRight m) = nbS m)
    by (rewrite setLeftRight_eq by exact Hwf; reflexivity).
  assert (Ht : transition_ (setLeftRight (setLeftRight m)) = transition_ (setLeftRight m)).
  { pose proof (well_formed_setLeftRight _ Hwf1) as Hwf2.
    assert (Hn2 : nbS (setLeftRight (setLeftRight m)) = nbS m)
      by (rewrite (setLeftRight_eq (setLeftRight m)) by exact Hwf1; exact Hn).
    pose proof (wf_nbStates _ Hwf) as HS.
    apply (row_of_ext (nbS m)).
    - rewrite (wf_transition _ Hwf2), (wf_transition _ Hwf1), Hn2, Hn. reflexivity.
    - exists (nbS m). rewrite (wf_transition _ Hwf2), Hn2. reflexivity.
    - unfold nbS. lia.
    - intros i Hi. rewrite (wf_transition _ Hwf2), Hn2 in Hi.
      assert (Hi' : i < nbS m) by nia.
      pose proof (row_of_setLeftRight _ i Hwf1 ltac:(rewrite Hn; exact Hi')) as R2.
      pose proof (row_of_setLeftRight m i Hwf Hi') as R1.
      unfold row in R1, R2. rewrite Hn2 in R2. rewrite Hn in R1, R2.
      rewrite R1, R2. reflexivity. }
  rewrite (setLeftRight_eq (setLeftRight m)) in * by exact Hwf1.
  hmm_simpl. rewrite Ht. change (Z.to_nat (nbStates_ (setLeftRight m))) with (nbS (setLeftRight m)).
  rewrite Hn. rewrite <- (prior_setLeftRight m Hwf).
  destruct (setLeftRight m); reflexivity.
Qed.
End LeftRight.

(** C5.  On doubles: for a well-formed model (so with at least one state),
    [setLeftRight] followed by [normalizeTransitions] leaves the prior
    one-hot at state 0 and every row of the transition matrix the
    left-right row (0.5 on the state and the next, 1 on the last state's
    self-loop); normalising a second time, or applying the pair a second
    time, returns the very same model. *)
Theorem setLeftRight_normalize_idempotent `{PrivateData} (m : HMM float) :
  well_formed m ->
  let once := normalizeTransitions (setLeftRight m) in
  prior_ once = one_hot (nbS m) /\
  (forall i, (i < nbS m)%nat -> row once i = left_right_row (nbS m) i) /\
  normalizeTransitions once = once /\
  normalizeTransitions (setLeftRight once) = once.
Proof.
  intros Hwf once. unfold once.
  rewrite !normalizeTransitions_setLeftRight by exact Hwf.
  rewrite setLeftRight_idempotent by exact Hwf.
  rewrite !normalizeTransitions_setLeftRight by exact Hwf.
  repeat split.
  - apply prior_setLeftRight. exact Hwf.
  - intros i Hi. apply row_of_setLeftRight; assumption.
Qed.

(** ** The forward and backward recursions *)

Section ForwardBackward.
Context `{PrivateData} {F : Type} `{Scalar F} `{!EmissionModel F} `{!Host F}.
#[local] Open Scope nat_scope.

Lemma unsigned_small n : (0 <= n < 2 ^ 31)%Z -> unsigned n = n.
Proof. intros Hn. unfold unsigned. apply Z.mod_small. lia. Qed.

(** The likelihood calls of a loop over the states do not throw. *)
Lemma emission_Ok (m : HMM F) observation observation_output i :
  well_formed m -> i < nbS m ->
  exists g, states_ m !! i = Some g /\
    emission m observation observation_output i
    = Ok (if bimodal_ (parent m) then
            match observation_output with
            | Some out => GMM_obsProb_bimodal g observation out (-1)
            | None => GMM_obsProb_input g observation (-1)
            end
          else GMM_obsProb g observation (-1)).
Proof.
  intros Hwf Hi. pose proof (wf_nbStates _ Hwf) as HS.
  destruct (lookup_lt_is_Some_2 (states_ m) i) as [g Hg];
    [rewrite (wf_states _ Hwf); exact Hi|].
  exists g. split; [exact Hg|].
  assert (Hc : (unsigned (nbStates_ m) <=? unsigned (Z.of_nat i))%Z = false).
  { unfold nbS in Hi. rewrite !unsigned_small by lia. apply Z.leb_gt. lia. }
  unfold emission, obsProb, obsProb_input, obsProb_bimodal, state_at.
  rewrite Hc, Hg. destruct (bimodal_ (parent m)); [destruct observation_output|];
    reflexivity.
Qed.

Lemma obsProb_Ok (m : HMM F) observation i c :
  well_formed m -> i < nbS m ->
  exists g, states_ m !! i = Some g /\
    obsProb m observation i c = Ok (GMM_obsProb g observation c).
Proof.
  intros Hwf Hi. pose proof (wf_nbStates _ Hwf) as HS.
  destruct (lookup_lt_is_Some_2 (states_ m) i) as [g Hg];
    [rewrite (wf_states _ Hwf); exact Hi|].
  exists g. split; [exact Hg|].
  assert (Hc : (unsigned (nbStates_ m) <=? unsigned (Z.of_nat i))%Z = false).
  { unfold nbS in Hi. rewrite !unsigned_small by lia. apply Z.leb_gt. lia. }
  unfold obsProb, state_at. rewrite Hc, Hg. reflexivity.
Qed.

Lemma obsProb_bimodal_Ok (m : HMM F) observation out i c :
  well_formed m -> bimodal_ (parent m) = true -> i < nbS m ->
  exists g, states_ m !! i = Some g /\
    obsProb_bimodal m observation out i c = Ok (GMM_obsProb_bimodal g observation out c).
Proof.
  intros Hwf Hb Hi. pose proof (wf_nbStates _ Hwf) as HS.
  destruct (lookup_lt_is_Some_2 (states_ m) i) as [g Hg];
    [rewrite (wf_states _ Hwf); exact Hi|].
  exists g. split; [exact Hg|].
  assert (Hc : (unsigned (nbStates_ m) <=? unsigned (Z.of_nat i))%Z = false).
  { unfold nbS in Hi. rewrite !unsigned_small by lia. apply Z.leb_gt. lia. }
  unfold obsProb_bimodal, state_at. rewrite Hb, Hc, Hg. reflexivity.
Qed.

(** What the first loop of [forward_init] leaves: only [alpha] has
    changed, entry [i] is the prior times the likelihood of state [i],
    and [norm_const] is the sum of the entries. *)
Lemma forward_init_accumulate_spec (m : HMM F) observation observation_output :
  well_formed m ->
  exists a,
    forward_init_accumulate observation observation_output m
    = Ok (vsum a, upd_alpha (fun _ => a) m) /\
    length a = nbS m /\
    forall i, i < nbS m ->
      exists o, emission m observation observation_output i = Ok o /\
                a !!! i = fmul (prior_ m !!! i) o.
Proof.
  intros Hwf. pose proof (wf_alpha _ Hwf) as Ha.
  unfold forward_init_accumulate.
  destruct (for_loopM_inv
    (fun k (s : F * HMM F) =>
       exists a, s = (vsum (take k a), upd_alpha (fun _ => a) m) /\
         length a = nbS m /\
         forall i, i < k ->
           exists o, emission m observation observation_output i = Ok o /\
                     a !!! i = fmul (prior_ m !!! i) o)
    (nbS m)
    (fun i '(norm_const, m) =>
       o ← (if bimodal_ (parent m) then
              match observation_output with
              | Some out => obsProb_bimodal m observation out i (-1)
              | None => obsProb_input m observation i (-1)
              end
            else obsProb m observation i (-1));
       let m := upd_alpha <[i := fmul (prior_ m !!! i) o]> m in
       Ok (fadd norm_const (alpha m !!! i), m))
    (fzero, m)) as ([nc m1] & E & a & Es & Hl & Hv).
  - exists (alpha m). split; [|split; [exact Ha|intros; lia]].
    simpl. f_equal. symmetry. apply (upd_get alpha_member).
  - intros i [nc m'] Hi (a & Es & Hl & Hv). injection Es as -> ->.
    destruct (emission_Ok m observation observation_output i Hwf Hi) as (g & Hg & Eo).
    change (if bimodal_ (parent (upd_alpha (fun _ => a) m)) then _ else _)
      with (emission m observation observation_output i).
    rewrite Eo. eexists. split; [reflexivity|]. hmm_simpl.
    exists (<[i := fmul (prior_ m !!! i)
               (if bimodal_ (parent m) then
                  match observation_output with
                  | Some out => GMM_obsProb_bimodal g observation out (-1)
                  | None => GMM_obsProb_input g observation (-1)
                  end
                else GMM_obsProb g observation (-1))]> a).
    split; [|split].
    + rewrite vsum_take_S by (rewrite length_insert; lia).
      rewrite take_insert_ge by lia. reflexivity.
    + rewrite length_insert. exact Hl.
    + intros k Hk. destruct (decide (k = i)) as [->|Hne].
      * eexists. split; [exact Eo|]. apply list_lookup_total_insert_eq. lia.
      * destruct (Hv k ltac:(lia)) as (o & Eo' & Ea). exists o. split; [exact Eo'|].
        rewrite list_lookup_total_insert_ne by congruence. exact Ea.
  - injection Es as -> ->. exists a.
    assert (Et : take (nbS m) a = a) by (rewrite <- Hl; apply firstn_all).
    rewrite Et in E. split; [exact E|]. split; [exact Hl|exact Hv].
Qed.

(** The scaling step on a model whose [alpha] is [a]. *)
Lemma forward_scale_eq (m : HMM F) norm_const :
  length (alpha m) = nbS m ->
  forward_scale norm_const m
  = if fpos norm_const then
      (upd_alpha (fun _ => (fun x => fdiv x norm_const) <$> alpha m) m,
       fdiv fone norm_const)
    else
      (upd_alpha (fun _ =>
         replicate (nbS m) (fdiv fone (of_int (nbStates_ m)))) m, fone).
Proof.
  intros Ha. unfold forward_scale. destruct (fpos norm_const).
  - f_equal.
    rewrite (for_loop_member alpha_member (nbS m) _
               (fun i a => alter (fun x => fdiv x norm_const) i a))
      by (intros; reflexivity).
    hmm_simpl. rewrite <- Ha, alter_all. reflexivity.
  - f_equal.
    rewrite (for_loop_member alpha_member (nbS m) _
               (fun j a => <[j := fdiv fone (of_int (nbStates_ m))]> a))
      by (intros; reflexivity).
    hmm_simpl. rewrite <- Ha, insert_all.
    assert (E : forall n, (fun _ : nat => fdiv fone (of_int (nbStates_ m))) <$> seq 0 n
                          = replicate n (fdiv fone (of_int (nbStates_ m)))).
    { intros n. generalize 0. induction n as [|n IH]; intros b; [reflexivity|].
      simpl. f_equal. apply IH. }
    rewrite E. reflexivity.
Qed.

(** The same for [forward_update]: [previousAlpha_] takes the old
    [alpha], and entry [j] of the new one is a transition-weighted sum
    times the likelihood of state [j]. *)
Lemma forward_update_accumulate_spec (m : HMM F) observation observation_output :
  well_formed m ->
  exists a,
    forward_update_accumulate observation observation_output m
    = Ok (vsum a, upd_alpha (fun _ => a) (upd_previousAlpha_ (fun _ => alpha m) m)) /\
    length a = nbS m /\
    forall j, j < nbS m ->
      exists x o, emission m observation observation_output j = Ok o /\
                  a !!! j = fmul x o.
Proof.
  intros Hwf. pose proof (wf_alpha _ Hwf) as Ha.
  unfold forward_update_accumulate. cbv zeta.
  set (m0 := upd_previousAlpha_ (fun _ => alpha m) m).
  destruct (for_loopM_inv
    (fun k (s : F * HMM F) =>
       exists a, s = (vsum (take k a), upd_alpha (fun _ => a) m0) /\
         length a = nbS m /\
         forall j, j < k ->
           exists x o, emission m observation observation_output j = Ok o /\
                       a !!! j = fmul x o)
    (nbS m0)
    (fun j '(norm_const, m) =>
       let m := upd_alpha <[j := fzero]> m in
       let m :=
         for_loop (nbS m) (fun i m =>
           upd_alpha (alter (fun x =>
             fadd x (fmul (previousAlpha_ m !!! i)
                       (transition_ m !!! (i * nbS m + j)%nat))) j) m) m in
       o ← (if bimodal_ (parent m) then
              match observation_output with
              | Some out => obsProb_bimodal m observation out j (-1)
              | None => obsProb_input m observation j (-1)
              end
            else obsProb m observation j (-1));
       let m := upd_alpha (alter (fun x => fmul x o) j) m in
       Ok (fadd norm_const (alpha m !!! j), m))
    (fzero, m0)) as ([nc m1] & E & a & Es & Hl & Hv).
  - exists (alpha m). split; [|split; [exact Ha|intros; lia]].
    reflexivity.
  - intros j [nc m'] Hj (a & Es & Hl & Hv). injection Es as -> ->.
    change (nbS m0) with (nbS m) in Hj.
    destruct (emission_Ok m observation observation_output j Hwf Hj) as (g & Hg & Eo).
    cbv zeta.
    rewrite (for_loop_member alpha_member _ _
               (fun i a' => alter (fun x =>
                  fadd x (fmul (alpha m !!! i)
                            (transition_ m !!! (i * nbS m + j)%nat))) j a'))
      by (intros; reflexivity).
    set (a1 := for_loop _ _ _).
    assert (Hl1 : length a1 = nbS m).
    { unfold a1. apply (for_loop_pres (fun a' => length a' = nbS m)).
      - hmm_simpl. rewrite length_insert. exact Hl.
      - intros i a' Hl'. rewrite length_alter. exact Hl'. }
    assert (Hpre : take j a1 = take j a).
    { unfold a1. apply (for_loop_pres (fun a' => take j a' = take j a)).
      - hmm_simpl. apply take_insert_ge. lia.
      - intros i a' Hpre. rewrite <- Hpre.
        apply list_eq. intros k. destruct (decide (k < j)) as [Hk|Hk].
        + rewrite !lookup_take_lt by lia. apply list_lookup_alter_ne. lia.
        + rewrite !lookup_take_ge by lia. reflexivity. }
    assert (Hoth : forall k, k <> j -> a1 !!! k = a !!! k).
    { intros k Hk. unfold a1.
      apply (for_loop_pres (fun a' => a' !!! k = a !!! k)).
      - hmm_simpl. apply list_lookup_total_insert_ne. congruence.
      - intros i a' Hk'. rewrite list_lookup_total_alter_ne by congruence. exact Hk'. }
    change (if bimodal_ (parent _) then _ else _)
      with (emission m observation observation_output j).
    rewrite Eo. eexists. split; [reflexivity|]. hmm_simpl.
    match type of Eo with _ = Ok ?v => set (oj := v) in * end.
    exists (alter (fun x => fmul x oj) j a1). split; [|split].
    + f_equal. rewrite vsum_take_S by (rewrite length_alter; lia).
      f_equal. f_equal. rewrite <- Hpre.
      apply list_eq. intros k. destruct (decide (k < j)) as [Hk|Hk].
      * rewrite !lookup_take_lt by lia. symmetry. apply list_lookup_alter_ne. lia.
      * rewrite !lookup_take_ge by lia. reflexivity.
    + rewrite length_alter. exact Hl1.
    + intros k Hk. destruct (decide (k = j)) as [->|Hne].
      * eexists _, _. split; [exact Eo|].
        rewrite list_lookup_total_alter_eq by lia. reflexivity.
      * destruct (Hv k ltac:(lia)) as (x & o & Eo' & Ea). exists x, o.
        split; [exact Eo'|].
        rewrite list_lookup_total_alter_ne by congruence.
        rewrite Hoth by exact Hne. exact Ea.
  - injection Es as -> ->. exists a. change (nbS m0) with (nbS m) in *.
    assert (Et : take (nbS m) a = a) by (rewrite <- Hl; apply firstn_all).
    rewrite Et in E. split; [exact E|]. split; [exact Hl|exact Hv].
Qed.
End ForwardBackward.

(** ** Degenerate observations *)

#[export] Instance binary64_null : NullArithmetic float.
Proof.
  refine {| is_null := float_null |}.
  - exact I.
  - intros x. unfold float_null. simpl. rewrite mul_spec.
    change (Prim2SF 0) with (S754_zero false).
    destruct (Prim2SF x) as [s|s| |s m e]; simpl; exact I.
  - intros x y. unfold float_null. simpl. rewrite add_spec.
    destruct (Prim2SF x) as [s|s| |s m e]; try contradiction;
      destruct (Prim2SF y) as [s'|s'| |s' m' e']; try contradiction; intros _ _;
      simpl; try exact I.
    destruct s, s'; exact I.
  - intros x. unfold float_null, fpos. simpl. rewrite ltb_spec.
    change (Prim2SF 0) with (S754_zero false).
    destruct (Prim2SF x) as [s|s| |s m e]; try contradiction; reflexivity.
Defined.

#[export] Instance exact_nulls : NullArithmetic exact.
Proof.
  refine {| is_null := exact_null |}.
  - left. reflexivity.
  - intros [q| ]; [left|right]; simpl; [ |reflexivity]. f_equal. ring.
  - intros x y [-> | ->] [-> | ->]; simpl; [left|right|right|right]; reflexivity.
  - intros x [-> | ->]; reflexivity.
Defined.

Section Degenerate.
Context `{PrivateData} {F : Type} `{Scalar F} `{!EmissionModel F} `{!Host F}.
Context `{!NullArithmetic F}.
#[local] Open Scope nat_scope.

Lemma foldl_fadd_null (a : F) (v : list F) :
  is_null a -> Forall is_null v -> is_null (foldl fadd a v).
Proof.
  intros Ha Hv. revert a Ha. induction Hv as [|x v Hx Hv IH]; intros a Ha; [exact Ha|].
  simpl. apply IH. apply null_add; assumption.
Qed.

Lemma vsum_null (v : list F) :
  (forall i, i < length v -> is_null (v !!! i)) -> fpos (vsum v) = false.
Proof.
  intros Hv. apply null_not_pos. apply foldl_fadd_null; [apply null_zero|].
  apply Forall_lookup. intros i x Hx.
  rewrite <- (list_lookup_total_correct _ _ _ Hx). apply Hv.
  apply lookup_lt_Some in Hx. exact Hx.
Qed.

(** When every state gives the observation the likelihood [0],
    [forward_init] falls back to the uniform distribution. *)
Lemma forward_init_degenerate (m : HMM F) observation observation_output :
  well_formed m ->
  (forall i, i < nbS m -> emission m observation observation_output i = Ok fzero) ->
  exists m', forward_init observation observation_output m = Ok (m', fone) /\
             alpha m' = replicate (nbS m) (fdiv fone (of_int (nbStates_ m))).
Proof.
  intros Hwf Hz.
  destruct (forward_init_accumulate_spec m observation observation_output Hwf)
    as (a & E & Hl & Hv).
  unfold forward_init. rewrite E. cbn [mbind result_bind bind].
  rewrite forward_scale_eq by exact Hl.
  rewrite vsum_null.
  - eexists. split; reflexivity.
  - intros i Hi. rewrite Hl in Hi. destruct (Hv i Hi) as (o & Eo & ->).
    rewrite Hz in Eo by exact Hi. injection Eo as <-. apply null_mul_zero.
Qed.

Lemma forward_update_degenerate (m : HMM F) observation observation_output :
  well_formed m ->
  (forall i, i < nbS m -> emission m observation observation_output i = Ok fzero) ->
  exists m', forward_update observation observation_output m = Ok (m', fone) /\
             alpha m' = replicate (nbS m) (fdiv fone (of_int (nbStates_ m))).
Proof.
  intros Hwf Hz.
  destruct (forward_update_accumulate_spec m observation observation_output Hwf)
    as (a & E & Hl & Hv).
  unfold forward_update. rewrite E. cbn [mbind result_bind bind].
  rewrite forward_scale_eq by exact Hl.
  rewrite vsum_null.
  - eexists. split; reflexivity.
  - intros i Hi. rewrite Hl in Hi. destruct (Hv i Hi) as (x & o & Eo & ->).
    rewrite Hz in Eo by exact Hi. injection Eo as <-. apply null_mul_zero.
Qed.
End Degenerate.

(** C6.  On doubles: when every state of a well-formed model gives the
    observation the likelihood [0], [forward_init] and [forward_update]
    return normally, with the scale factor [1] and every [alpha[i]] set to
    [1/nbStates_]. *)
Theorem forward_zero_likelihood `{PrivateData} `{!EmissionModel float}
    (m : HMM float) (observation : list float)
    (observation_output : option (list float)) :
  well_formed m ->
  (forall i, (i < nbS m)%nat ->
     emission m observation observation_output i = Ok fzero) ->
  (exists m', forward_init observation observation_output m = Ok (m', fone) /\
              alpha m' = replicate (nbS m) (fdiv fone (of_int (nbStates_ m)))) /\
  (exists m', forward_update observation observation_output m = Ok (m', fone) /\
              alpha m' = replicate (nbS m) (fdiv fone (of_int (nbStates_ m)))).
Proof.
  intros Hwf Hz. split.
  - apply forward_init_degenerate; assumption.
  - apply forward_update_degenerate; assumption.
Qed.


Section Backward.
Context `{PrivateData} {F : Type} `{Scalar F} `{!EmissionModel F} `{!Host F}.
#[local] Open Scope nat_scope.

(** [backward_update] returns; only [beta_] and [previousBeta_] have
    changed, and every entry of the new [beta_] either passed the test
    [isnan(x) || isinf(abs(x))] or is the sentinel. *)
Lemma backward_update_spec (m : HMM F) ct observation observation_output :
  well_formed m ->
  exists b,
    backward_update ct observation observation_output m
    = Ok (upd_beta_ (fun _ => b) (upd_previousBeta_ (fun _ => beta_ m) m)) /\
    length b = nbS m /\
    forall i, i < nbS m -> b !!! i = fhuge \/ finite (b !!! i).
Proof.
  intros Hwf. pose proof (wf_beta _ Hwf) as Hb.
  unfold backward_update. cbv zeta.
  set (m0 := upd_previousBeta_ (fun _ => beta_ m) m).
  destruct (for_loopM_inv
    (fun k (m' : HMM F) =>
       exists b, m' = upd_beta_ (fun _ => b) m0 /\ length b = nbS m /\
         forall i, i < k -> b !!! i = fhuge \/ finite (b !!! i))
    (nbS m0)
    (fun i m =>
       let m := upd_beta_ <[i := fzero]> m in
       m ← for_loopM (nbS m) (fun j m =>
              o ← (if bimodal_ (parent m) then
                     match observation_output with
                     | Some out => obsProb_bimodal m observation out j (-1)
                     | None => obsProb_input m observation j (-1)
                     end
                   else obsProb m observation j (-1));
              Ok (upd_beta_ (alter (fun x =>
                    fadd x (fmul (fmul (transition_ m !!! (i * nbS m + j)%nat)
                                    (previousBeta_ m !!! j)) o)) i) m)) m;
       let m := upd_beta_ (alter (fun x => fmul x ct) i) m in
       Ok (if fisnan (beta_ m !!! i) || fisinf (fabs (beta_ m !!! i))
           then upd_beta_ <[i := fhuge]> m else m))
    m0) as (m1 & E & b & -> & Hl & Hv).
  - exists (beta_ m). split; [reflexivity|]. split; [exact Hb|intros; lia].
  - intros i m' Hi (b & -> & Hl & Hv). change (nbS m0) with (nbS m) in Hi.
    cbv zeta.
    destruct (for_loopM_inv
      (fun (k : nat) (m' : HMM F) =>
         exists b', m' = upd_beta_ (fun _ => b') m0 /\ length b' = nbS m /\
           forall k', k' <> i -> b' !!! k' = b !!! k')
      (nbS (upd_beta_ <[i := fzero]> (upd_beta_ (fun _ => b) m0)))
      (fun j m =>
         o ← (if bimodal_ (parent m) then
                match observation_output with
                | Some out => obsProb_bimodal m observation out j (-1)
                | None => obsProb_input m observation j (-1)
                end
              else obsProb m observation j (-1));
         Ok (upd_beta_ (alter (fun x =>
               fadd x (fmul (fmul (transition_ m !!! (i * nbS m + j)%nat)
                               (previousBeta_ m !!! j)) o)) i) m))
      (upd_beta_ <[i := fzero]> (upd_beta_ (fun _ => b) m0)))
      as (m2 & E2 & b2 & -> & Hl2 & Hv2).
    + exists (<[i := fzero]> b). split; [reflexivity|].
      split; [rewrite length_insert; exact Hl|].
      intros k' Hk'. apply list_lookup_total_insert_ne. congruence.
    + intros j m'' Hj (b' & -> & Hl' & Hv'). change (nbS _) with (nbS m) in Hj.
      destruct (emission_Ok m observation observation_output j Hwf Hj) as (g & Hg & Eo).
      change (if bimodal_ (parent _) then _ else _)
        with (emission m observation observation_output j).
      rewrite Eo. eexists. split; [reflexivity|]. eexists.
      split; [reflexivity|]. split; [rewrite length_alter; exact Hl'|].
      intros k' Hk'. rewrite list_lookup_total_alter_ne by congruence.
      apply Hv'. exact Hk'.
    + rewrite E2. cbn [mbind result_bind bind]. eexists. split; [reflexivity|].
      hmm_simpl. set (b3 := alter (fun x => fmul x ct) i b2).
      assert (Hl3 : length b3 = nbS m) by (unfold b3; rewrite length_alter; exact Hl2).
      assert (Hv3 : forall k', k' <> i -> b3 !!! k' = b !!! k').
      { intros k' Hk'. unfold b3. rewrite list_lookup_total_alter_ne by congruence.
        apply Hv2. exact Hk'. }
      destruct (fisnan (b3 !!! i) || fisinf (fabs (b3 !!! i))) eqn:Et.
      * exists (<[i := fhuge]> b3). split; [reflexivity|].
        split; [rewrite length_insert; exact Hl3|].
        intros k Hk. destruct (decide (k = i)) as [->|Hne].
        -- left. apply list_lookup_total_insert_eq. lia.
        -- rewrite list_lookup_total_insert_ne by congruence.
           rewrite Hv3 by exact Hne. apply Hv. lia.
      * exists b3. split; [reflexivity|]. split; [exact Hl3|].
        intros k Hk. destruct (decide (k = i)) as [->|Hne].
        -- right. apply orb_false_elim in Et. exact Et.
        -- rewrite Hv3 by exact Hne. apply Hv. lia.
  - exists b. change (nbS m0) with (nbS m) in *. split; [exact E|].
    split; [exact Hl|exact Hv].
Qed.
End Backward.


(** ** What initialisation and training leave alone *)

Section Frame.
Context `{PrivateData} {F : Type} `{Scalar F} `{!EmissionModel F} `{!Host F}.
#[local] Open Scope nat_scope.

Lemma frame_refl (m : HMM F) : frame m m.
Proof. split; reflexivity. Qed.

Lemma keeps_prior_refl (m : HMM F) : keeps_prior m m.
Proof. split; [apply frame_refl|reflexivity]. Qed.

Lemma frame_trans (m0 m1 m2 : HMM F) : frame m0 m1 -> frame m1 m2 -> frame m0 m2.
Proof. intros [] []. split; congruence. Qed.

Lemma keeps_prior_trans (m0 m1 m2 : HMM F) :
  keeps_prior m0 m1 -> keeps_prior m1 m2 -> keeps_prior m0 m2.
Proof.
  intros [F1 P1] [F2 P2]. split; [exact (frame_trans _ _ _ F1 F2)|congruence].
Qed.

Lemma keeps_prior_frame (m0 m1 m2 : HMM F) :
  frame m0 m1 -> keeps_prior m1 m2 -> frame m0 m2.
Proof. intros F1 [F2 _]. exact (frame_trans _ _ _ F1 F2). Qed.

Lemma frame_well_formed (m0 m : HMM F) :
  well_formed m0 -> frame m0 m -> well_formed m.
Proof.
  intros [] []. split; unfold nbS in *; congruence.
Qed.
End Frame.

(** The leaf of a frame proof: an assignment to one member of [s]. *)
Ltac frame_leaf :=
  unfold keeps_prior;
  repeat match goal with |- _ /\ _ => split end;
  try split; unfold upd_mean_at, upd_covariance_at; hmm_simpl;
  repeat first [rewrite length_alter | rewrite length_insert]; reflexivity.

(** Loops, branches and assignments on the way. *)
Ltac frame_step :=
  match goal with
  | |- keeps_prior _ _ => assumption
  | |- frame _ _ => assumption
  | |- keeps_prior ?m0 (for_loop _ _ _) =>
      apply (for_loop_pres (keeps_prior m0)); [|intros ? ? ?]
  | |- frame ?m0 (for_loop _ _ _) =>
      apply (for_loop_pres (frame m0)); [|intros ? ? ?]
  | |- keeps_prior _ (if ?c then _ else _) => destruct c
  | |- frame _ (if ?c then _ else _) => destruct c
  | |- keeps_prior _ _ => progress cbv zeta
  | |- frame _ _ => progress cbv zeta
  | |- keeps_prior ?m0 (?u ?f ?s) =>
      apply (keeps_prior_trans m0 s); [|solve [frame_leaf]]
  | |- frame ?m0 (?u ?f ?s) =>
      apply (frame_trans m0 s); [|solve [frame_leaf]]
  end.

Ltac frame_tac := repeat frame_step.

(** From the equation [E : for_loop n body s = r] of a loop over tuples,
    what the invariant [Q] gives for [r]. *)
Ltac loop_result E Q :=
  match type of E with
  | for_loop ?n ?body ?s = ?r =>
      let K := fresh "K" in
      assert (K : Q r); [rewrite <- E; apply (for_loop_pres Q)|]
  | for_each ?l ?body ?s = ?r =>
      let K := fresh "K" in
      assert (K : Q r); [rewrite <- E; apply (for_each_inv Q)|]
  end.

Section FrameInit.
Context `{PrivateData} {F : Type} `{Scalar F} `{!EmissionModel F} `{!Host F}.
#[local] Open Scope nat_scope.

Lemma frame_setLeftRight (m : HMM F) : frame m (setLeftRight m).
Proof. unfold setLeftRight. pose proof (frame_refl m). frame_tac. Qed.

Lemma frame_setErgodic (m : HMM F) : frame m (setErgodic m).
Proof. unfold setErgodic. pose proof (frame_refl m). frame_tac. Qed.

Lemma keeps_initMeansWithFirstPhrase (m m' : HMM F) :
  initMeansWithFirstPhrase m = Ok m' -> keeps_prior m m'.
Proof.
  unfold initMeansWithFirstPhrase. intros E.
  pose proof (keeps_prior_refl m) as Hm.
  destruct (trainingSet (parent m)) as [ts|]; [|injection E as <-; exact Hm].
  destruct (is_empty ts); [injection E as <-; exact Hm|].
  cbv zeta in E. apply mbind_Ok_inv in E. destruct E as (p & _ & E).
  match type of E with (if ?c then _ else _) = _ => destruct c; [discriminate|] end.
  match type of E with
  | context [for_loop ?n ?b ?s] =>
      destruct (for_loop n b s) as [[m2 o2] f2] eqn:E2
  end.
  injection E as <-.
  loop_result E2 (fun s : HMM F * Z * list Z => keeps_prior m s.1.1).
  - cbn [fst snd]. frame_tac.
  - intros i [[m1 o1] f1] Hm1. cbn [fst snd] in *. frame_tac.
  - cbn [fst snd] in *. frame_tac.
Qed.

Lemma keeps_initCovariancesWithAllPhrases_single (m m' : HMM F) :
  initCovariancesWithAllPhrases_single m = Ok m' -> keeps_prior m m'.
Proof.
  unfold initCovariancesWithAllPhrases_single. intros E.
  pose proof (keeps_prior_refl m) as Hm.
  destruct (trainingSet (parent m)) as [ts|]; [|injection E as <-; exact Hm].
  destruct (is_empty ts); [injection E as <-; exact Hm|].
  cbv zeta in E. apply mbind_Ok_inv in E. destruct E as ([m3 f3] & E3 & E).
  injection E as <-.
  assert (K3 : keeps_prior m m3).
  { revert E3. apply (for_loopM_post (fun s : HMM F * list Z => keeps_prior m s.1)).
    - cbn [fst snd]. frame_tac.
    - intros i [m1 f1] [m2 f2] Hm1 E1. cbn [fst snd] in *.
      apply mbind_Ok_inv in E1. destruct E1 as (p & _ & E1).
      match type of E1 with (if ?c then _ else _) = _ => destruct c; [discriminate|] end.
      match type of E1 with
      | context [for_loop ?n ?b ?s] =>
          destruct (for_loop n b s) as [[m4 o4] f4] eqn:E4
      end.
      injection E1 as <- <-.
      loop_result E4 (fun s : HMM F * Z * list Z => keeps_prior m s.1.1).
      + cbn [fst snd]. exact Hm1.
      + intros j [[m5 o5] f5] Hm5. cbn [fst snd] in *. frame_tac.
      + exact K. }
  frame_tac.
Qed.

Lemma keeps_initMeansWithAllPhrases_mixture (m m' : HMM F) :
  initMeansWithAllPhrases_mixture m = Ok m' -> keeps_prior m m'.
Proof.
  unfold initMeansWithAllPhrases_mixture. intros E.
  pose proof (keeps_prior_refl m) as Hm.
  destruct (trainingSet (parent m)) as [ts|]; [|injection E as <-; exact Hm].
  destruct (is_empty ts); [injection E as <-; exact Hm|].
  cbv zeta in E. revert E. apply (for_loopM_post (keeps_prior m)); [exact Hm|].
  intros i m1 m2 Hm1 E1.
  apply mbind_Ok_inv in E1. destruct E1 as (p & _ & E1).
  match type of E1 with (if ?c then _ else _) = _ => destruct c; [discriminate|] end.
  match type of E1 with
  | context [for_loop ?n ?b ?s] =>
      destruct (for_loop n b s) as [m4 o4] eqn:E4
  end.
  injection E1 as <-.
  loop_result E4 (fun s : HMM F * Z => keeps_prior m s.1).
  - cbn [fst snd]. exact Hm1.
  - intros j [m5 o5] Hm5. cbn [fst snd] in *. frame_tac.
  - exact K.
Qed.

Lemma keeps_initCovariancesWithAllPhrases_mixture (m m' : HMM F) :
  initCovariancesWithAllPhrases_mixture m = Ok m' -> keeps_prior m m'.
Proof.
  unfold initCovariancesWithAllPhrases_mixture. intros E.
  pose proof (keeps_prior_refl m) as Hm.
  destruct (trainingSet (parent m)) as [ts|]; [|injection E as <-; exact Hm].
  destruct (is_empty ts); [injection E as <-; exact Hm|].
  cbv zeta in E. revert E. apply (for_loopM_post (keeps_prior m)); [exact Hm|].
  intros i m1 m2 Hm1 E1.
  apply mbind_Ok_inv in E1. destruct E1 as (p & _ & E1).
  match type of E1 with (if ?c then _ else _) = _ => destruct c; [discriminate|] end.
  match type of E1 with
  | context [for_loop ?n ?b ?s] =>
      destruct (for_loop n b s) as [m4 o4] eqn:E4
  end.
  injection E1 as <-.
  loop_result E4 (fun s : HMM F * Z => keeps_prior m s.1).
  - cbn [fst snd]. exact Hm1.
  - intros j [m5 o5] Hm5. cbn [fst snd] in *. frame_tac.
  - exact K.
Qed.
End FrameInit.

Section Construction.
Context `{PrivateData} {F : Type} `{Scalar F} `{!EmissionModel F} `{!Host F}.

(** [initTraining] sets the prior and the transitions by the transition
    mode, and then leaves them alone. *)
Lemma initTraining_frame (m m' : HMM F) :
  initTraining m = Ok m' ->
  frame m m' /\
  prior_ m' = prior_ (if decide (transitionMode_ m = ERGODIC) then setErgodic m
                      else setLeftRight m).
Proof.
  unfold initTraining. cbv zeta.
  set (m1 := if decide (transitionMode_ m = ERGODIC) then setErgodic m
             else setLeftRight m).
  assert (F1 : frame m m1).
  { unfold m1. destruct (decide _); [apply frame_setErgodic|apply frame_setLeftRight]. }
  set (m2 := for_loop (nbS m1) _ m1).
  assert (K2 : keeps_prior m1 m2).
  { unfold m2. pose proof (keeps_prior_refl m1). frame_tac. }
  clearbody m2. clearbody m1. intros E.
  assert (Hgoal : keeps_prior m2 m' ->
                  frame m m' /\ prior_ m' = prior_ m1).
  { intros K. pose proof (keeps_prior_trans _ _ _ K2 K) as [K' P'].
    split; [exact (frame_trans _ _ _ F1 K')|exact P']. }
  apply Hgoal. clear Hgoal K2 F1.
  destruct (trainingSet (parent m2)) as [ts|];
    [|injection E as <-; apply keeps_prior_refl].
  apply mbind_Ok_inv in E. destruct E as (m3 & E3 & E).
  assert (K3 : keeps_prior m2 m3).
  { destruct (1 <? nbMixtureComponents_ m2).
    - apply mbind_Ok_inv in E3. destruct E3 as (m3' & E3' & E3).
      apply keeps_initMeansWithAllPhrases_mixture in E3'.
      apply keeps_initCovariancesWithAllPhrases_mixture in E3.
      exact (keeps_prior_trans _ _ _ E3' E3).
    - apply mbind_Ok_inv in E3. destruct E3 as (m3' & E3' & E3).
      apply keeps_initMeansWithFirstPhrase in E3'.
      apply keeps_initCovariancesWithAllPhrases_single in E3.
      exact (keeps_prior_trans _ _ _ E3' E3). }
  match type of E with
  | context [for_each ?l ?b ?s] =>
      destruct (for_each l b s) as [[m4 maxT] k4] eqn:E4
  end.
  injection E as <-.
  loop_result E4 (fun s : HMM F * Z * nat => keeps_prior m2 s.1.1).
  - cbn [fst snd]. frame_tac.
  - intros it [[m5 t5] k5] K5. cbn [fst snd] in *. frame_tac.
  - cbn [fst snd] in K. frame_tac.
Qed.

(** What [allocate] does to the exit probabilities. *)
Lemma allocate_exit (m m' : HMM F) :
  allocate m = Ok m' ->
  is_hierarchical_ m' = is_hierarchical_ m /\
  nbStates_ m' = nbStates_ m /\
  exitProbabilities_ m'
  = (if is_hierarchical_ m then
       <[Z.to_nat (nbStates_ m - 1) := HMM_DEFAULT_EXITPROBABILITY_LAST_STATE]>
         (resize (nbS m) fzero (exitProbabilities_ m))
     else exitProbabilities_ m) /\
  (is_hierarchical_ m = true -> 1 <= nbStates_ m).
Proof.
  unfold allocate. destruct (nbStates_ m <? 0) eqn:En; [discriminate|].
  cbv zeta. hmm_simpl. destruct (is_hierarchical_ m) eqn:Eh.
  - unfold updateExitProbabilities. hmm_simpl. rewrite Eh, En. simpl.
    destruct (Z.eqb_spec (nbStates_ m) 0); [discriminate|].
    intros E. injection E as <-. hmm_simpl.
    repeat split; try assumption. apply Z.ltb_ge in En. lia.
  - intros E. injection E as <-. hmm_simpl. repeat split; try assumption.
    discriminate.
Qed.

Lemma insert_last_replicate {A} (x y : A) n :
  (1 <= n)%nat -> <[(n - 1)%nat := y]> (replicate n x) = replicate (n - 1) x ++ [y].
Proof.
  intros Hn. destruct n as [|k]; [lia|]. replace (S k - 1)%nat with k by lia.
  rewrite replicate_S_end.
  rewrite insert_app_r_alt by (rewrite length_replicate; lia).
  rewrite length_replicate, Nat.sub_diag. reflexivity.
Qed.

Lemma HMM_new_exit flags ts nbStates nbMixtureComponents (m : HMM F) :
  HMM_new flags ts nbStates nbMixtureComponents = Ok m ->
  is_hierarchical_ m = (Z.land flags HIERARCHICAL =? 0) /\
  nbStates_ m = nbStates /\
  exitProbabilities_ m
  = (if Z.land flags HIERARCHICAL =? 0 then
       replicate (Z.to_nat (nbStates - 1)) fzero
         ++ [HMM_DEFAULT_EXITPROBABILITY_LAST_STATE]
     else []).
Proof.
  unfold HMM_new. cbv zeta. intros E.
  apply mbind_Ok_inv in E. destruct E as (m1 & E1 & E).
  apply allocate_exit in E1. hmm_simpl. destruct E1 as (Eh & En & Ee & HS).
  apply initTraining_frame in E. destruct E as [Fr _].
  destruct Fr as [Kh Ke Kn _ _ _ _ _ _ _ _ _ _ _]. hmm_simpl.
  match type of Kh with _ = is_hierarchical_ ?m2 =>
    assert (K : keeps_prior m1 m2)
  end.
  { pose proof (keeps_prior_refl m1). frame_tac. }
  destruct K as [[Kh' Ke' Kn' _ _ _ _ _ _ _ _ _ _ _] _].
  rewrite Kh' in Kh. rewrite Ke' in Ke. rewrite Kn' in Kn.
  rewrite Kh, Ke, Kn, Eh, En, Ee. split; [reflexivity|]. split; [reflexivity|].
  destruct (Z.land flags HIERARCHICAL =? 0); [|reflexivity].
  specialize (HS eq_refl). rewrite resize_nil.
  replace (Z.to_nat (nbStates - 1)) with (Z.to_nat nbStates - 1)%nat by lia.
  apply insert_last_replicate. lia.
Qed.

End Construction.


(** ** File IO *)

Section FileIO.
Context `{PrivateData} {F : Type} `{Scalar F} `{!EmissionModel F} `{!Host F}.

Lemma rethrow_Ok_inv {A} (r : result A) a :
  rethrow_as_JSONException r = Ok a -> r = Ok a.
Proof. destruct r as [x|[]| |]; simpl; congruence. Qed.

Lemma expect_Ok_inv (root_it : list (JSONNode F)) name type n :
  expect root_it name type = Ok n ->
  exists rest, root_it = n :: rest /\ json_name n = name /\ json_type n = type.
Proof.
  unfold expect. destruct root_it as [|x rest]; [discriminate|].
  unfold assert. intros E.
  destruct (bool_decide (json_name x = name)) eqn:E1; [|discriminate].
  destruct (bool_decide (json_type x = type)) eqn:E2; [|discriminate].
  apply bool_decide_eq_true in E1. apply bool_decide_eq_true in E2.
  injection E as <-. exists rest. auto.
Qed.

(** C1 (as the code has it).  [to_json] writes the member
    ["exitProbabilities"] only for a hierarchical model, and [from_json]
    asserts it for every model: reading back the document of a
    non-hierarchical model, into any model, never returns normally. *)
Theorem from_json_to_json_flat (m target : HMM F) :
  is_hierarchical_ m = false ->
  ~ is_Ok (from_json (to_json m) target).
Proof.
  intros Hh HOk. destruct (from_json (to_json m) target) as [r| | |] eqn:E;
    try contradiction. clear HOk.
  unfold from_json in E. apply mbind_Ok_inv in E. destruct E as (m1 & E & _).
  apply rethrow_Ok_inv in E.
  apply mbind_Ok_inv in E. destruct E as (_ & _ & E).
  unfold to_json in E. rewrite Hh in E. cbn [json_children app] in E.
  cbv zeta in E.
  repeat match type of E with
  | (_ ≫= _) = Ok _ =>
      let E' := fresh "E" in
      apply mbind_Ok_inv in E; destruct E as (? & E' & E);
      try (apply expect_Ok_inv in E'; destruct E' as (? & E' & ? & ?);
           cbn [tail] in E'; try discriminate)
  | (if ?c then _ else _) = Ok _ => destruct c; [try discriminate|]
  end.
  all: repeat match goal with
    | Hx : _ :: _ = _ :: _ |- _ => injection Hx as ? ?; subst
    end.
  all: try discriminate.
Qed.
End FileIO.

Lemma from_json_to_json_flat_witness :
  let m : HMM float := Sample.model false 1 [1%float] [1%float] in
  is_hierarchical_ m = false /\
  ~ is_Ok (from_json (EmissionModel0 := Sample.gmm fzero) (Host0 := Sample.host)
             (to_json (EmissionModel0 := Sample.gmm fzero) (Host0 := Sample.host) m) m).
Proof.
  intros m. split; [reflexivity|].
  apply (from_json_to_json_flat (EmissionModel0 := Sample.gmm fzero)
           (Host0 := Sample.host) m m eq_refl).
Defined.

Section FileIOHierarchical.
Context `{PrivateData} {F : Type} `{Scalar F} `{!EmissionModel F} `{!Host F}.

Lemma json_name_set_name x (n : JSONNode F) : json_name (set_name x n) = x.
Proof. destruct n; reflexivity. Qed.

Lemma json_type_set_name x (n : JSONNode F) :
  json_type (set_name x n) = json_type n.
Proof. destruct n; reflexivity. Qed.

Lemma expect_head (n : JSONNode F) rest name type :
  json_name n = name -> json_type n = type ->
  expect (n :: rest) name type = Ok n.
Proof.
  intros Hn Ht. unfold expect, assert.
  rewrite !bool_decide_true by assumption. reflexivity.
Qed.

(** The array that [to_json] writes for the states. *)
Lemma states_to_json (st : list (GMM F)) k :
  (k <= length st)%nat ->
  for_loop k (fun i json_states =>
    match st !! i with
    | Some g => json_states ++ [GMM_to_json g]
    | None => json_states
    end) [] = GMM_to_json <$> take k st.
Proof.
  induction k as [|k IH]; intros Hk; [reflexivity|].
  rewrite for_loop_S, IH by lia.
  destruct (lookup_lt_is_Some_2 st k) as [g Hg]; [lia|].
  rewrite Hg, (take_S_r _ _ _ Hg), fmap_app. reflexivity.
Qed.

Lemma upd_states_same (m : HMM F) : upd_states_ (fun _ => states_ m) m = m.
Proof. destruct m; reflexivity. Qed.

Lemma upd_states_twice f g (m : HMM F) :
  upd_states_ f (upd_states_ g m) = upd_states_ (fun s => f (g s)) m.
Proof. destruct m; reflexivity. Qed.

(** Reading the states back, one [from_json] per state. *)
Lemma states_from_json (gs : list (GMM F)) (m : HMM F) :
  length (states_ m) = length gs ->
  (forall i g g', gs !! i = Some g -> states_ m !! i = Some g' ->
     GMM_from_json (GMM_to_json g) g' = Ok g) ->
  for_loopM (length gs) (fun i m =>
    match (GMM_to_json <$> gs) !! i, states_ m !! i with
    | Some j, Some g =>
        g ← GMM_from_json j g;
        Ok (upd_states_ <[i := g]> m)
    | _, _ => Undefined
    end) m = Ok (upd_states_ (fun _ => gs) m).
Proof.
  intros Hl Hg.
  destruct (for_loopM_inv
    (fun k s => (k <= length gs)%nat ->
                s = upd_states_ (fun _ => take k gs ++ drop k (states_ m)) m)
    (length gs) (fun i m =>
      match (GMM_to_json <$> gs) !! i, states_ m !! i with
      | Some j, Some g =>
          g ← GMM_from_json j g;
          Ok (upd_states_ <[i := g]> m)
      | _, _ => Undefined
      end) m) as (s' & E & P).
  - intros _. simpl. rewrite drop_0. symmetry. apply upd_states_same.
  - intros i s Hi P.
    destruct (lookup_lt_is_Some_2 gs i) as [g Eg]; [lia|].
    destruct (lookup_lt_is_Some_2 (states_ m) i) as [g' Eg']; [lia|].
    rewrite P by lia.
    rewrite list_lookup_fmap, Eg. simpl.
    assert (Es : (take i gs ++ drop i (states_ m)) !! i = Some g').
    { rewrite lookup_app_r; rewrite length_take; [|lia].
      rewrite lookup_drop. replace (i + (i - i `min` length gs))%nat with i by lia.
      exact Eg'. }
    rewrite Es. rewrite (Hg i g g' Eg Eg'). simpl.
    eexists. split; [reflexivity|]. intros _.
    rewrite upd_states_twice. f_equal.
    destruct m; simpl in *.
    rewrite insert_app_r_alt; rewrite length_take; [|lia].
    replace (i - i `min` length gs)%nat with 0%nat by lia.
    rewrite (take_S_r _ _ _ Eg), <- app_assoc. f_equal.
    rewrite (drop_S _ _ _ Eg'). reflexivity.
  - rewrite E, P by lia. rewrite firstn_all, drop_ge by lia.
    rewrite app_nil_r. reflexivity.
Qed.

(** [allocate] on a hierarchical model with at least one state. *)
Lemma allocate_hierarchical (m : HMM F) :
  is_hierarchical_ m = true -> 1 <= nbStates_ m ->
  exists m', allocate m = Ok m' /\
    parent m' = parent m /\
    is_hierarchical_ m' = true /\
    nbStates_ m' = nbStates_ m /\
    nbMixtureComponents_ m' = nbMixtureComponents_ m /\
    covarianceOffset_ m' = covarianceOffset_ m /\
    transitionMode_ m' = transitionMode_ m /\
    estimateMeans_ m' = estimateMeans_ m /\
    states_ m' = replicate (nbS m)
                   (GMM_new (flags_ (parent m)) (trainingSet (parent m))
                      (nbMixtureComponents_ m) (covarianceOffset_ m)).
Proof.
  intros Hh HS. unfold allocate.
  destruct (Z.ltb_spec (nbStates_ m) 0); [lia|].
  cbv zeta. hmm_simpl. rewrite Hh.
  rewrite updateExitProbabilities_NULL by (hmm_simpl; assumption).
  eexists. split; [reflexivity|]. hmm_simpl. rewrite Hh.
  repeat split; reflexivity.
Qed.

(** For a hierarchical model the document holds every member that
    [from_json] asserts.  When the collaborators read back what they write
    (the parent class, the vectors, the states into the states that
    [allocate] builds) and the integer members survive the number nodes,
    reading the document of a well-formed hierarchical model into a
    hierarchical model returns normally, with the prior, the transition
    matrix, the exit probabilities, the states and the scalar members of
    the original, and with [trained] set. *)
Theorem from_json_to_json_hierarchical (m target : HMM F) (p : EMBasedModel F) :
  well_formed m ->
  length (exitProbabilities_ m) = nbS m ->
  is_hierarchical_ m = true -> is_hierarchical_ target = true ->
  integers_round_trip m ->
  vectors_round_trip ->
  json_type (EMBasedModel_to_json (parent m)) = T_NODE ->
  EMBasedModel_from_json
    (set_name "EMBasedModel" (EMBasedModel_to_json (parent m))) (parent target)
  = Ok p ->
  (forall g a b c d, g ∈ states_ m ->
     GMM_from_json (GMM_to_json g) (GMM_new a b c d) = Ok g) ->
  exists m', from_json (to_json m) target = Ok m' /\
    prior_ m' = prior_ m /\ transition_ m' = transition_ m /\
    exitProbabilities_ m' = exitProbabilities_ m /\ states_ m' = states_ m /\
    nbStates_ m' = nbStates_ m /\
    nbMixtureComponents_ m' = nbMixtureComponents_ m /\
    covarianceOffset_ m' = covarianceOffset_ m /\
    transitionMode_ m' = transitionMode_ m /\
    estimateMeans_ m' = estimateMeans_ m /\
    is_hierarchical_ m' = true /\
    dimension_ (parent m') = dimension_ (parent m) /\
    trained (parent m') = true.
Proof.
  intros Hwf He Hh Hht [Rd Rn Rc Rt] Hv Hpt Hp Hg.
  destruct Hwf as [HS Hpr Htr Hst _ _].
  unfold to_json. rewrite Hh.
  rewrite states_to_json by lia. rewrite <- Hst, firstn_all.
  cbn [app].
  unfold from_json.
  cbn [json_type json_children tail].
  rewrite bool_decide_true by reflexivity.
  cbn [assert mbind result_bind bind].
  rewrite (expect_head (set_name _ _));
    [|apply json_name_set_name|rewrite json_type_set_name; exact Hpt].
  cbn [mbind result_bind bind]. rewrite Hp. cbn [mbind result_bind bind].
  rewrite (expect_head (JSON_BOOL "is_hierarchical" _)) by reflexivity.
  cbn [mbind result_bind bind].
  hmm_simpl. rewrite Hht. cbn [as_bool eqb negb].
  rewrite (expect_head (JSON_BOOL "estimateMeans" _)) by reflexivity.
  cbn [mbind result_bind bind as_bool].
  rewrite (expect_head (JSON_NUMBER "dimension" _)) by reflexivity.
  cbn [mbind result_bind bind as_int as_float].
  rewrite (expect_head (JSON_NUMBER "nbStates" _)) by reflexivity.
  cbn [mbind result_bind bind as_int as_float].
  rewrite (expect_head (JSON_NUMBER "nbMixtureComponents" _)) by reflexivity.
  cbn [mbind result_bind bind as_int as_float].
  rewrite (expect_head (JSON_NUMBER "covarianceOffset" _)) by reflexivity.
  cbn [mbind result_bind bind as_int as_float].
  rewrite (expect_head (JSON_NUMBER "transitionMode" _)) by reflexivity.
  cbn [mbind result_bind bind as_int as_float].
  unfold as_int. cbn [as_float]. rewrite Rd, Rn, Rc, Rt.
  match goal with |- context [allocate ?x] =>
    destruct (allocate_hierarchical x) as
      (m0 & E0 & Kp & Kh & Kn & Kc & Ko & Kt & Ke & Ks);
      [hmm_simpl; exact Hht|hmm_simpl; lia|]
  end.
  rewrite E0. cbn [mbind result_bind bind]. hmm_simpl.
  destruct (Hv (prior_ m) (prior_ m0) "prior") as (N1 & T1 & V1).
  destruct (Hv (transition_ m) (transition_ m0) "transition") as (N2 & T2 & V2).
  destruct (Hv (exitProbabilities_ m) (exitProbabilities_ m0) "exitProbabilities")
    as (N3 & T3 & V3).
  rewrite Hpr in V1. rewrite Htr in V2. rewrite He in V3.
  unfold nbS in V1, V2, V3.
  rewrite Nat2Z.inj_mul in V2. rewrite Z2Nat.id in V1, V2, V3 by lia.
  unfold nbS. rewrite Kn.
  rewrite (expect_head (vector2json (prior_ m) _)) by assumption.
  cbn [mbind result_bind bind]. rewrite V1. cbn [mbind result_bind bind].
  rewrite (expect_head (vector2json (transition_ m) _)) by assumption.
  cbn [mbind result_bind bind]. rewrite V2. cbn [mbind result_bind bind].
  rewrite (expect_head (vector2json (exitProbabilities_ m) _)) by assumption.
  cbn [mbind result_bind bind]. rewrite V3. cbn [mbind result_bind bind].
  rewrite (expect_head (JSON_ARRAY "states" _)) by reflexivity.
  cbn [mbind result_bind bind json_children].
  replace (Z.to_nat (nbStates_ m)) with (length (states_ m))
    by (rewrite Hst; reflexivity).
  rewrite states_from_json.
  - cbn [rethrow_as_JSONException mbind result_bind bind].
    eexists. split; [reflexivity|]. hmm_simpl.
    rewrite Kp, Kh, Kn, Kc, Ko, Kt, Ke. hmm_simpl.
    repeat split; reflexivity.
  - hmm_simpl. rewrite Ks, length_replicate. hmm_simpl.
    symmetry. exact Hst.
  - intros i g g' Eg Eg'. hmm_simpl. rewrite Ks in Eg'.
    apply lookup_replicate in Eg' as [-> _].
    apply Hg. apply (list_elem_of_lookup_2 _ i). exact Eg.
Qed.
End FileIOHierarchical.

Lemma sample_vectors_round_trip {F : Type} `{Scalar F} :
  vectors_round_trip (Host0 := Sample.host (F := F)).
Proof.
  intros v dst name. split; [reflexivity|]. split; [reflexivity|].
  unfold json2vector, vector2json, Sample.host. cbn [json_children].
  rewrite <- list_fmap_compose. f_equal.
  induction v as [|a v IH]; [reflexivity|]. simpl. f_equal. exact IH.
Qed.

Lemma from_json_to_json_hierarchical_witness :
  let m : HMM float := Sample.model true 2 [1; 0]%float [0.5; 0.5; 0; 1]%float in
  exists m',
    from_json (EmissionModel0 := Sample.gmm fzero) (Host0 := Sample.host)
      (to_json (EmissionModel0 := Sample.gmm fzero) (Host0 := Sample.host) m) m
    = Ok m' /\
    prior_ m' = prior_ m /\ transition_ m' = transition_ m /\
    exitProbabilities_ m' = exitProbabilities_ m /\ states_ m' = states_ m /\
    trained (parent m') = true.
Proof.
  intros m.
  assert (Hwf : well_formed m)
    by (split; [vm_compute; split; [discriminate|reflexivity]|reflexivity..]).
  assert (Hint : integers_round_trip m) by (split; vm_compute; reflexivity).
  assert (Hst : forall g a b c d, g ∈ states_ m ->
            GMM_from_json (EmissionModel := Sample.gmm fzero)
              (GMM_to_json (EmissionModel := Sample.gmm fzero) g)
              (GMM_new (EmissionModel := Sample.gmm fzero) a b c d) = Ok g).
  { intros g a b c d Hg. apply elem_of_replicate in Hg as [-> _]. reflexivity. }
  destruct (from_json_to_json_hierarchical (EmissionModel0 := Sample.gmm fzero)
              (Host0 := Sample.host) m m (parent m) Hwf eq_refl eq_refl eq_refl
              Hint sample_vectors_round_trip eq_refl eq_refl Hst)
    as (m' & E & Wp & Wt & We & Ws & _ & _ & _ & _ & _ & _ & _ & Wd).
  exists m'. repeat split; assumption.
Defined.

(** ** Baum-Welch *)

Section BaumWelchFrame.
Context `{PrivateData} {F : Type} `{Scalar F} `{!EmissionModel F} `{!Host F}.
#[local] Open Scope nat_scope.

Lemma keeps_forward_scale (m0 m : HMM F) c :
  keeps_prior m0 m -> keeps_prior m0 (forward_scale c m).1.
Proof.
  intros K. unfold forward_scale. destruct (fpos c); cbn [fst]; frame_tac.
Qed.

Lemma keeps_forward_init (m0 m m' : HMM F) observation observation_output c :
  keeps_prior m0 m ->
  forward_init observation observation_output m = Ok (m', c) -> keeps_prior m0 m'.
Proof.
  intros K E. unfold forward_init in E.
  apply mbind_Ok_inv in E. destruct E as ([nc m1] & E1 & E).
  injection E as E. rewrite (surjective_pairing (forward_scale nc m1)) in E.
  injection E as <- _. apply keeps_forward_scale.
  revert E1. unfold forward_init_accumulate.
  apply (for_loopM_post (fun s : F * HMM F => keeps_prior m0 s.2)); [exact K|].
  intros i [nc1 m2] [nc2 m3] K2 E2. cbn [fst snd] in *.
  apply mbind_Ok_inv in E2. destruct E2 as (o & _ & E2).
  injection E2 as _ <-. frame_tac.
Qed.

Lemma keeps_forward_update (m0 m m' : HMM F) observation observation_output c :
  keeps_prior m0 m ->
  forward_update observation observation_output m = Ok (m', c) -> keeps_prior m0 m'.
Proof.
  intros K E. unfold forward_update in E.
  apply mbind_Ok_inv in E. destruct E as ([nc m1] & E1 & E).
  injection E as E. rewrite (surjective_pairing (forward_scale nc m1)) in E.
  injection E as <- _. apply keeps_forward_scale.
  revert E1. unfold forward_update_accumulate. cbv zeta.
  apply (for_loopM_post (fun s : F * HMM F => keeps_prior m0 s.2));
    [cbn [snd]; frame_tac|].
  intros i [nc1 m2] [nc2 m3] K2 E2. cbn [fst snd] in *.
  apply mbind_Ok_inv in E2. destruct E2 as (o & _ & E2).
  injection E2 as _ <-. frame_tac.
Qed.

Lemma keeps_backward_init (m0 m : HMM F) ct :
  keeps_prior m0 m -> keeps_prior m0 (backward_init ct m).
Proof. intros K. unfold backward_init. frame_tac. Qed.

Lemma keeps_backward_update (m0 m m' : HMM F) ct observation observation_output :
  keeps_prior m0 m ->
  backward_update ct observation observation_output m = Ok m' -> keeps_prior m0 m'.
Proof.
  intros K. unfold backward_update. cbv zeta.
  apply (for_loopM_post (keeps_prior m0)); [frame_tac|].
  intros i m1 m2 K1 E.
  apply mbind_Ok_inv in E. destruct E as (m3 & E3 & E).
  assert (K3 : keeps_prior m0 m3).
  { revert E3. apply (for_loopM_post (keeps_prior m0)); [frame_tac|].
    intros j m4 m5 K4 E4.
    apply mbind_Ok_inv in E4. destruct E4 as (o & _ & E4).
    injection E4 as <-. frame_tac. }
  injection E as <-. frame_tac.
Qed.

Lemma keeps_baumWelch_forwardBackward (m0 m m' : HMM F) currentPhrase phraseIndex lp :
  keeps_prior m0 m ->
  baumWelch_forwardBackward currentPhrase phraseIndex m = Ok (m', lp) ->
  keeps_prior m0 m'.
Proof.
  intros K E. unfold baumWelch_forwardBackward in E. cbv zeta in E.
  destruct (length_ currentPhrase <? 1)%Z; [discriminate|].
  (* forward_init *)
  apply mbind_Ok_inv in E. destruct E as ([m1 c1] & E1 & E).
  assert (K1 : keeps_prior m0 m1).
  { destruct (bimodal_ (parent m)); exact (keeps_forward_init _ _ _ _ _ _ K E1). }
  clear E1.
  (* forward_update, for every later frame *)
  apply mbind_Ok_inv in E. destruct E as ([[m2 ct2] lp2] & E2 & E).
  assert (K2 : keeps_prior m0 m2).
  { revert E2.
    apply (for_loopM_post (fun s : HMM F * list F * F => keeps_prior m0 s.1.1));
      [cbn [fst snd]; frame_tac|].
    intros k [[m3 ct3] lp3] [[m4 ct4] lp4] K3 E3. cbn [fst snd] in *.
    apply mbind_Ok_inv in E3. destruct E3 as ([m5 c5] & E5 & E3).
    injection E3 as <- _ _.
    assert (K5 : keeps_prior m0 m5).
    { destruct (bimodal_ (parent m3)); exact (keeps_forward_update _ _ _ _ _ _ K3 E5). }
    frame_tac. }
  clear E2.
  (* backward pass *)
  apply mbind_Ok_inv in E. destruct E as (m6 & E6 & E).
  assert (K6 : keeps_prior m0 m6).
  { revert E6. unfold for_down.
    apply (foldlM_post (keeps_prior m0)).
    - pose proof (keeps_backward_init m0 m2 (ct2 !!! (Z.to_nat (length_ currentPhrase) - 1))
                    K2) as Kb.
      frame_tac.
    - intros t m7 m8 K7 E7.
      apply mbind_Ok_inv in E7. destruct E7 as (m9 & E9 & E7). injection E7 as <-.
      assert (K9 : keeps_prior m0 m9).
      { destruct (bimodal_ (parent m7)); exact (keeps_backward_update _ _ _ _ _ _ K7 E9). }
      frame_tac. }
  clear E6.
  (* gamma for each mixture component *)
  apply mbind_Ok_inv in E. destruct E as (m10 & E10 & E).
  assert (K10 : keeps_prior m0 m10).
  { revert E10. apply (for_loopM_post (keeps_prior m0)); [frame_tac|].
    intros t m11 m12 K11.
    apply (for_loopM_post (keeps_prior m0)); [exact K11|].
    intros i m13 m14 K13 E14.
    apply mbind_Ok_inv in E14. destruct E14 as ([m15 nc15] & E15 & E14).
    injection E14 as <-.
    assert (K15 : keeps_prior m0 m15).
    { revert E15.
      apply (for_loopM_post (fun s : HMM F * F => keeps_prior m0 s.1));
        [exact K13|].
      intros c [m16 nc16] [m17 nc17] K16 E17. cbn [fst snd] in *.
      apply mbind_Ok_inv in E17. destruct E17 as (oo & _ & E17).
      injection E17 as <- _. frame_tac. }
    frame_tac. }
  clear E10.
  (* epsilon *)
  apply mbind_Ok_inv in E. destruct E as (m18 & E18 & E).
  injection E as <- _.
  revert E18. apply (for_loopM_post (keeps_prior m0)); [exact K10|].
  intros t m19 m20 K19.
  apply (for_loopM_post (keeps_prior m0)); [exact K19|].
  intros i m21 m22 K21.
  apply (for_loopM_post (keeps_prior m0)); [exact K21|].
  intros j m23 m24 K23 E24.
  apply mbind_Ok_inv in E24. destruct E24 as (o & _ & E24).
  injection E24 as <-. frame_tac.
Qed.

(** The re-estimation loops run over the phrases with the phrase index
    beside the model. *)
Lemma keeps_phrase_loop (m0 m : HMM F) (l : list (Z * Phrase F))
    (body : Z * Phrase F -> HMM F * nat -> HMM F * nat) :
  keeps_prior m0 m ->
  (forall it m1 k, keeps_prior m0 m1 -> keeps_prior m0 (body it (m1, k)).1) ->
  keeps_prior m0 (for_each l body (m, 0)).1.
Proof.
  intros K Hb. apply (for_each_inv (fun s : HMM F * nat => keeps_prior m0 s.1));
    [exact K|].
  intros it [m1 k] K1. apply Hb. exact K1.
Qed.

Lemma keeps_baumWelch_gammaSum (m0 m m' : HMM F) :
  keeps_prior m0 m -> baumWelch_gammaSum m = Ok m' -> keeps_prior m0 m'.
Proof.
  intros K E. unfold baumWelch_gammaSum in E. cbv zeta in E.
  destruct (trainingSet (parent _)) as [ts|]; [|discriminate].
  injection E as <-. apply keeps_phrase_loop; [frame_tac|].
  intros it m1 k K1. cbn [fst snd]. frame_tac.
Qed.

Lemma keeps_baumWelch_estimateMixtureCoefficients (m0 m m' : HMM F) :
  keeps_prior m0 m ->
  baumWelch_estimateMixtureCoefficients m = Ok m' -> keeps_prior m0 m'.
Proof.
  intros K E. unfold baumWelch_estimateMixtureCoefficients in E. cbv zeta in E.
  destruct (trainingSet (parent _)) as [ts|]; [|discriminate].
  injection E as <-.
  match goal with |- keeps_prior _ (for_loop _ _ ?s) =>
    assert (Ks : keeps_prior m0 s)
  end.
  { apply keeps_phrase_loop; [exact K|].
    intros it m1 k K1. cbn [fst snd]. frame_tac. }
  frame_tac.
Qed.

Lemma keeps_baumWelch_estimateMeans (m0 m m' : HMM F) :
  keeps_prior m0 m -> baumWelch_estimateMeans m = Ok m' -> keeps_prior m0 m'.
Proof.
  intros K E. unfold baumWelch_estimateMeans in E. cbv zeta in E.
  destruct (trainingSet (parent _)) as [ts|]; [|discriminate].
  injection E as <-.
  match goal with |- keeps_prior _ (for_loop _ _ ?s) =>
    assert (Ks : keeps_prior m0 s)
  end.
  { apply keeps_phrase_loop; [exact K|].
    intros it m1 k K1. cbn [fst snd]. frame_tac. }
  frame_tac.
Qed.

Lemma keeps_baumWelch_estimateCovariances (m0 m m' : HMM F) :
  keeps_prior m0 m -> baumWelch_estimateCovariances m = Ok m' -> keeps_prior m0 m'.
Proof.
  intros K E. unfold baumWelch_estimateCovariances in E. cbv zeta in E.
  destruct (trainingSet (parent _)) as [ts|]; [|discriminate].
  injection E as <-.
  match goal with |- keeps_prior _ (for_loop _ _ ?s) =>
    assert (Ks : keeps_prior m0 s)
  end.
  { apply keeps_phrase_loop; [exact K|].
    intros it m1 k K1. cbn [fst snd]. frame_tac. }
  frame_tac.
Qed.

Lemma keeps_baumWelch_estimateTransitions (m0 m m' : HMM F) :
  keeps_prior m0 m -> baumWelch_estimateTransitions m = Ok m' -> keeps_prior m0 m'.
Proof.
  intros K E. unfold baumWelch_estimateTransitions in E. cbv zeta in E.
  destruct (trainingSet (parent _)) as [ts|]; [|discriminate].
  injection E as <-.
  match goal with |- keeps_prior _ (for_loop _ _ ?s) =>
    assert (Ks : keeps_prior m0 s)
  end.
  { apply keeps_phrase_loop; [frame_tac|].
    intros it m1 k K1. cbn [fst snd]. frame_tac. }
  frame_tac.
Qed.

(** One iteration in left-right mode leaves the prior, the flags and the
    sizes as they were. *)
Lemma keeps_baumWelch_update (m m' : HMM F) log_prob :
  transitionMode_ m = LEFT_RIGHT ->
  baumWelch_update m = Ok (m', log_prob) -> keeps_prior m m'.
Proof.
  intros Hmode E. unfold baumWelch_update in E.
  destruct (trainingSet (parent m)) as [ts|]; [|discriminate].
  apply mbind_Ok_inv in E. destruct E as ([[m1 lp1] k1] & E1 & E).
  assert (K1 : keeps_prior m m1).
  { revert E1. unfold for_eachM.
    apply (foldlM_post (fun s : HMM F * F * nat => keeps_prior m s.1.1));
      [apply keeps_prior_refl|].
    intros it [[m2 lp2] k2] [[m3 lp3] k3] K2 E3. cbn [fst snd] in *.
    apply mbind_Ok_inv in E3. destruct E3 as ([m4 lp4] & E4 & E3).
    injection E3 as <- _ _.
    exact (keeps_baumWelch_forwardBackward _ _ _ _ _ _ K2 E4). }
  clear E1.
  apply mbind_Ok_inv in E. destruct E as (m5 & E5 & E).
  pose proof (keeps_baumWelch_gammaSum _ _ _ K1 E5) as K5. clear E5.
  cbv zeta in E.
  apply mbind_Ok_inv in E. destruct E as (m6 & E6 & E).
  match type of E6 with baumWelch_estimateMixtureCoefficients ?s = _ =>
    assert (Ks : keeps_prior m s) by frame_tac
  end.
  pose proof (keeps_baumWelch_estimateMixtureCoefficients _ _ _ Ks E6) as K6.
  clear E6 Ks.
  apply mbind_Ok_inv in E. destruct E as (m7 & E7 & E).
  assert (K7 : keeps_prior m m7).
  { destruct (estimateMeans_ m6);
      [exact (keeps_baumWelch_estimateMeans _ _ _ K6 E7)|].
    injection E7 as <-. exact K6. }
  clear E7.
  apply mbind_Ok_inv in E. destruct E as (m8 & E8 & E).
  pose proof (keeps_baumWelch_estimateCovariances _ _ _ K7 E8) as K8. clear E8.
  apply mbind_Ok_inv in E. destruct E as (m9 & E9 & E).
  assert (K9 : keeps_prior m m9).
  { destruct (decide (transitionMode_ m8 = ERGODIC)) as [Eerg|_].
    - destruct K8 as [[] _]. congruence.
    - injection E9 as <-. exact K8. }
  clear E9.
  apply mbind_Ok_inv in E. destruct E as (m10 & E10 & E).
  injection E as <- _.
  exact (keeps_baumWelch_estimateTransitions _ _ _ K9 E10).
Qed.
End BaumWelchFrame.

Section BaumWelchReturns.
Context `{PrivateData} {F : Type} `{Scalar F} `{!EmissionModel F} `{!Host F}.
#[local] Open Scope nat_scope.

Lemma forward_init_Ok (m : HMM F) observation observation_output :
  well_formed m ->
  exists r, forward_init observation observation_output m = Ok r.
Proof.
  intros Hwf.
  destruct (forward_init_accumulate_spec m observation observation_output Hwf)
    as (a & E & _).
  unfold forward_init. rewrite E. eexists. reflexivity.
Qed.

Lemma forward_update_Ok (m : HMM F) observation observation_output :
  well_formed m ->
  exists r, forward_update observation observation_output m = Ok r.
Proof.
  intros Hwf.
  destruct (forward_update_accumulate_spec m observation observation_output Hwf)
    as (a & E & _).
  unfold forward_update. rewrite E. eexists. reflexivity.
Qed.

Lemma backward_update_Ok (m : HMM F) ct observation observation_output :
  well_formed m ->
  exists r, backward_update ct observation observation_output m = Ok r.
Proof.
  intros Hwf.
  destruct (backward_update_spec m ct observation observation_output Hwf)
    as (b & E & _).
  eexists. exact E.
Qed.

Lemma for_down_ok {St} (Q : St -> Prop) n (body : nat -> St -> result St) s :
  Q s ->
  (forall i s, i < n -> Q s -> exists s', body i s = Ok s' /\ Q s') ->
  exists s', for_down n body s = Ok s' /\ Q s'.
Proof.
  intros Hs Hb. unfold for_down. apply (foldlM_ok Q body); [exact Hs|].
  intros i s1 Hi. apply Hb. apply elem_of_reverse, elem_of_seq in Hi. lia.
Qed.

Lemma baumWelch_forwardBackward_Ok (m0 m : HMM F) currentPhrase phraseIndex :
  well_formed m0 -> keeps_prior m0 m -> (1 <= length_ currentPhrase)%Z ->
  exists r, baumWelch_forwardBackward currentPhrase phraseIndex m = Ok r.
Proof.
  intros Hwf0 K HT. unfold baumWelch_forwardBackward. cbv zeta.
  destruct (Z.ltb_spec (length_ currentPhrase) 1); [lia|].
  assert (Hwf : forall s, keeps_prior m0 s -> well_formed s).
  { intros s [Fs _]. exact (frame_well_formed _ _ Hwf0 Fs). }
  (* forward_init *)
  assert (E1 : exists r,
    (if bimodal_ (parent m)
     then forward_init (get_dataPointer_input currentPhrase 0)
            (Some (get_dataPointer_output currentPhrase 0)) m
     else forward_init (get_dataPointer currentPhrase 0) None m) = Ok r).
  { destruct (bimodal_ (parent m)); apply forward_init_Ok, Hwf, K. }
  destruct E1 as ([m1 c1] & E1). rewrite E1. cbn [mbind result_bind bind].
  assert (K1 : keeps_prior m0 m1).
  { destruct (bimodal_ (parent m)); exact (keeps_forward_init _ _ _ _ _ _ K E1). }
  clear E1.
  (* forward_update *)
  match goal with |- context [for_loopM ?n ?body ?s] =>
    destruct (for_loopM_inv
                (fun _ (st : HMM F * list F * F) => keeps_prior m0 st.1.1) n body s)
      as ([[m2 ct2] lp2] & E2 & K2)
  end.
  { cbn [fst snd]. frame_tac. }
  { intros k [[m3 ct3] lp3] _ K3. cbn [fst snd] in *.
    assert (E5 : exists r,
      (if bimodal_ (parent m3)
       then forward_update (get_dataPointer_input currentPhrase (S k))
              (Some (get_dataPointer_output currentPhrase (S k))) m3
       else forward_update (get_dataPointer currentPhrase (S k)) None m3) = Ok r).
    { destruct (bimodal_ (parent m3)); apply forward_update_Ok, Hwf, K3. }
    destruct E5 as ([m5 c5] & E5). rewrite E5. cbn [mbind result_bind bind].
    eexists. split; [reflexivity|]. cbn [fst snd].
    assert (K5 : keeps_prior m0 m5).
    { destruct (bimodal_ (parent m3)); exact (keeps_forward_update _ _ _ _ _ _ K3 E5). }
    frame_tac. }
  rewrite E2. cbn [mbind result_bind bind]. cbn [fst snd] in K2. clear E2.
  (* backward pass *)
  match goal with |- context [for_down ?n ?body ?s] =>
    destruct (for_down_ok (keeps_prior m0) n body s) as (m6 & E6 & K6)
  end.
  { pose proof (keeps_backward_init m0 m2 (ct2 !!! (Z.to_nat (length_ currentPhrase) - 1))
                  K2) as Kb.
    frame_tac. }
  { intros t m7 _ K7. cbv beta.
    assert (E9 : exists r,
      (if bimodal_ (parent m7)
       then backward_update (ct2 !!! t) (get_dataPointer_input currentPhrase (t + 1))
              (Some (get_dataPointer_output currentPhrase (t + 1))) m7
       else backward_update (ct2 !!! t) (get_dataPointer currentPhrase (t + 1))
              None m7) = Ok r).
    { destruct (bimodal_ (parent m7)); apply backward_update_Ok, Hwf, K7. }
    destruct E9 as (m9 & E9). rewrite E9. cbn [mbind result_bind bind].
    eexists. split; [reflexivity|].
    assert (K9 : keeps_prior m0 m9).
    { destruct (bimodal_ (parent m7)); exact (keeps_backward_update _ _ _ _ _ _ K7 E9). }
    frame_tac. }
  rewrite E6. cbn [mbind result_bind bind]. clear E6.
  (* gamma for each mixture component *)
  match goal with |- context [for_loopM ?n ?body ?s ≫= _] =>
    destruct (for_loopM_inv (fun _ => keeps_prior m0) n body s) as (m10 & E10 & K10)
  end.
  { frame_tac. }
  { intros t m11 _ K11.
    match goal with |- context [for_loopM ?n ?body ?s] =>
      destruct (for_loopM_inv (fun _ => keeps_prior m0) n body s) as (m12 & E12 & K12)
    end.
    { exact K11. }
    { intros i m13 Hi K13.
      match goal with |- context [for_loopM ?n ?body ?s] =>
        destruct (for_loopM_inv
                    (fun _ (st : HMM F * F) => keeps_prior m0 st.1) n body s)
          as ([m15 nc15] & E15 & K15)
      end.
      { exact K13. }
      { intros c [m16 nc16] _ K16. cbn [fst snd] in *.
        assert (Hi16 : i < nbS m16).
        { destruct K11 as [[] _], K16 as [[] _]. unfold nbS in *. congruence. }
        assert (Eo : exists o,
          (if bimodal_ (parent m16)
           then obsProb_bimodal m16 (get_dataPointer_input currentPhrase t)
                  (get_dataPointer_output currentPhrase t) i (Z.of_nat c)
           else obsProb m16 (get_dataPointer currentPhrase t) i (Z.of_nat c)) = Ok o).
        { destruct (bimodal_ (parent m16)) eqn:Eb.
          - destruct (obsProb_bimodal_Ok m16 (get_dataPointer_input currentPhrase t)
                        (get_dataPointer_output currentPhrase t) i (Z.of_nat c)
                        (Hwf _ K16) Eb Hi16) as (g & _ & Eo).
            eexists. exact Eo.
          - destruct (obsProb_Ok m16 (get_dataPointer currentPhrase t) i (Z.of_nat c)
                        (Hwf _ K16) Hi16) as (g & _ & Eo).
            eexists. exact Eo. }
        destruct Eo as (oo & Eo). rewrite Eo. cbn [mbind result_bind bind].
        eexists. split; [reflexivity|]. cbn [fst snd]. frame_tac. }
      rewrite E15. cbn [mbind result_bind bind]. cbn [fst snd] in K15.
      eexists. split; [reflexivity|]. frame_tac. }
    exists m12. split; [exact E12|exact K12]. }
  rewrite E10. cbn [mbind result_bind bind]. clear E10.
  (* epsilon *)
  match goal with |- context [for_loopM ?n ?body ?s ≫= _] =>
    destruct (for_loopM_inv (fun _ => keeps_prior m0) n body s) as (m18 & E18 & K18)
  end.
  { exact K10. }
  { intros t m19 _ K19.
    apply (for_loopM_inv (fun _ => keeps_prior m0)); [exact K19|].
    intros i m21 _ K21.
    apply (for_loopM_inv (fun _ => keeps_prior m0)); [exact K21|].
    intros j m23 Hj K23. cbv zeta.
    match goal with |- context [upd_epsilonSequence_ ?f m23] =>
      set (m24 := upd_epsilonSequence_ f m23)
    end.
    assert (K24 : keeps_prior m0 m24) by (unfold m24; frame_tac).
    assert (Hj24 : j < nbS m24).
    { destruct K21 as [[] _], K24 as [[] _]. unfold nbS in *. congruence. }
    assert (Eo : exists o,
      (if bimodal_ (parent m24)
       then obsProb_bimodal m24 (get_dataPointer_input currentPhrase (t + 1))
              (get_dataPointer_output currentPhrase (t + 1)) j (-1)
       else obsProb m24 (get_dataPointer currentPhrase (t + 1)) j (-1)) = Ok o).
    { destruct (bimodal_ (parent m24)) eqn:Eb.
      - destruct (obsProb_bimodal_Ok m24 (get_dataPointer_input currentPhrase (t + 1))
                    (get_dataPointer_output currentPhrase (t + 1)) j (-1)
                    (Hwf _ K24) Eb Hj24) as (g & _ & Eo).
        eexists. exact Eo.
      - destruct (obsProb_Ok m24 (get_dataPointer currentPhrase (t + 1)) j (-1)
                    (Hwf _ K24) Hj24) as (g & _ & Eo).
        eexists. exact Eo. }
    destruct Eo as (o & Eo). rewrite Eo. cbn [mbind result_bind bind].
    eexists. split; [reflexivity|]. frame_tac. }
  rewrite E18. cbn [mbind result_bind bind]. eexists. reflexivity.
Qed.

Lemma for_eachM_ok {A St} (Q : St -> Prop) (l : list A)
    (body : A -> St -> result St) s :
  Q s ->
  (forall a s, a ∈ l -> Q s -> exists s', body a s = Ok s' /\ Q s') ->
  exists s', for_eachM l body s = Ok s' /\ Q s'.
Proof. intros Hs Hb. unfold for_eachM. apply (foldlM_ok Q body); assumption. Qed.

Lemma baumWelch_update_Ok (m : HMM F) ts :
  well_formed m -> transitionMode_ m = LEFT_RIGHT ->
  trainingSet (parent m) = Some ts ->
  (forall it, it ∈ phrases ts -> (1 <= length_ it.2)%Z) ->
  is_Ok (baumWelch_update m).
Proof.
  intros Hwf Hmode Hts Hlen. unfold baumWelch_update. rewrite Hts.
  assert (Hset : forall s, keeps_prior m s -> trainingSet (parent s) = Some ts).
  { intros s [[] _]. congruence. }
  match goal with |- context [for_eachM ?l ?body ?s] =>
    destruct (for_eachM_ok (fun st : HMM F * F * nat => keeps_prior m st.1.1) l body s)
      as ([[m1 lp1] k1] & E1 & K1)
  end.
  { apply keeps_prior_refl. }
  { intros it [[m2 lp2] k2] Hit K2. cbn [fst snd] in *.
    destruct (baumWelch_forwardBackward_Ok m m2 it.2 k2 Hwf K2 (Hlen it Hit))
      as ([m4 lp4] & E4).
    rewrite E4. cbn [mbind result_bind bind]. eexists. split; [reflexivity|].
    cbn [fst snd]. exact (keeps_baumWelch_forwardBackward _ _ _ _ _ _ K2 E4). }
  rewrite E1. cbn [mbind result_bind bind]. cbn [fst snd] in K1. clear E1.
  (* gammaSum *)
  destruct (baumWelch_gammaSum m1) as [m5| | |] eqn:E5.
  2,3,4: exfalso; revert E5; unfold baumWelch_gammaSum; cbv zeta;
    match goal with |- context [trainingSet (parent ?s)] =>
      rewrite (Hset s) by frame_tac
    end; discriminate.
  pose proof (keeps_baumWelch_gammaSum _ _ _ K1 E5) as K5.
  cbn [mbind result_bind bind]. cbv zeta.
  (* mixture coefficients *)
  match goal with |- context [baumWelch_estimateMixtureCoefficients ?s] =>
    assert (Ks : keeps_prior m s) by frame_tac;
    destruct (baumWelch_estimateMixtureCoefficients s) as [m6| | |] eqn:E6
  end.
  2,3,4: exfalso; revert E6; unfold baumWelch_estimateMixtureCoefficients;
    rewrite (Hset _ Ks); discriminate.
  pose proof (keeps_baumWelch_estimateMixtureCoefficients _ _ _ Ks E6) as K6.
  cbn [mbind result_bind bind].
  (* means *)
  assert (E7 : exists m7,
    (if estimateMeans_ m6 then baumWelch_estimateMeans m6 else Ok m6) = Ok m7 /\
    keeps_prior m m7).
  { destruct (estimateMeans_ m6); [|exists m6; split; [reflexivity|exact K6]].
    destruct (baumWelch_estimateMeans m6) as [m7| | |] eqn:E7.
    2,3,4: exfalso; revert E7; unfold baumWelch_estimateMeans;
      rewrite (Hset _ K6); discriminate.
    exists m7. split; [reflexivity|].
    exact (keeps_baumWelch_estimateMeans _ _ _ K6 E7). }
  destruct E7 as (m7 & E7 & K7). rewrite E7. cbn [mbind result_bind bind].
  (* covariances *)
  destruct (baumWelch_estimateCovariances m7) as [m8| | |] eqn:E8.
  2,3,4: exfalso; revert E8; unfold baumWelch_estimateCovariances;
    rewrite (Hset _ K7); discriminate.
  pose proof (keeps_baumWelch_estimateCovariances _ _ _ K7 E8) as K8.
  cbn [mbind result_bind bind].
  (* the prior is not re-estimated *)
  destruct (decide (transitionMode_ m8 = ERGODIC)) as [Eerg|_].
  { destruct K8 as [[] _]. congruence. }
  cbn [mbind result_bind bind].
  (* transitions *)
  destruct (baumWelch_estimateTransitions m8) as [m10| | |] eqn:E10.
  2,3,4: exfalso; revert E10; unfold baumWelch_estimateTransitions; cbv zeta;
    match goal with |- context [trainingSet (parent ?s)] =>
      rewrite (Hset s) by frame_tac
    end; discriminate.
  exact I.
Qed.

End BaumWelchReturns.


(** ** What the test of [backward_update] means on doubles *)

Lemma SFcompare_refl_finite s m e :
  SFcompare (S754_finite s m e) (S754_finite s m e) = Some Eq.
Proof.
  simpl. destruct s; rewrite Z.compare_refl, ?Pos.compare_refl; simpl;
    rewrite ?Pos.compare_refl; reflexivity.
Qed.

(** [isnan(x) || isinf(abs(x))] is false exactly for the zeros and the
    finite numbers of binary64. *)
Lemma finite_binary64 (x : float) :
  finite x <->
  match Prim2SF x with
  | S754_zero _ | S754_finite _ _ _ => True
  | S754_infinity _ | S754_nan => False
  end.
Proof.
  unfold finite. simpl. unfold PrimFloat.is_nan, PrimFloat.is_infinity.
  rewrite !FloatAxioms.eqb_spec, !FloatAxioms.abs_spec. change (Prim2SF infinity) with (S754_infinity false).
  unfold SFeqb. destruct (Prim2SF x) as [s|s| |s m e].
  - simpl. tauto.
  - simpl. split; [intros [_ E]; discriminate|tauto].
  - simpl. split; [intros [E _]; discriminate|tauto].
  - rewrite SFcompare_refl_finite. simpl. tauto.
Qed.

(** ** A transition row that sums to zero *)

Lemma vsum_zeros n : vsum (replicate n 0%float) = 0%float.
Proof.
  unfold vsum. induction n as [|n IH]; [reflexivity|]. simpl. exact IH.
Qed.

(** C3 (as the code has it).  On doubles: when row [i] of the transition
    matrix is a zero row, [normalizeTransitions] divides its entries by the
    sum [0] and leaves a row of NaN. *)
Theorem normalizeTransitions_zero_row `{PrivateData} (m : HMM float) (i : nat) :
  well_formed m -> (i < nbS m)%nat ->
  row m i = replicate (nbS m) 0%float ->
  row (normalizeTransitions m) i = replicate (nbS m) nan.
Proof.
  intros Hwf Hi Hrow. rewrite row_normalizeTransitions by assumption.
  rewrite Hrow. unfold normalized. rewrite vsum_zeros.
  generalize (nbS m). intros n. induction n as [|n IH]; [reflexivity|].
  simpl. f_equal. exact IH.
Qed.

Lemma normalizeTransitions_zero_row_witness :
  let m : HMM float :=
    Sample.model false 2 [1; 0]%float [0; 0; 0.5; 0.5]%float in
  well_formed m /\ row m 0 = [0; 0]%float /\
  row (normalizeTransitions m) 0 = [nan; nan] /\
  row (normalizeTransitions m) 1 = [0.5; 0.5]%float /\
  prior_ (normalizeTransitions m) = [1; 0]%float.
Proof.
  intros m.
  assert (Hwf : well_formed m) by (split; [vm_compute; split; [discriminate|reflexivity]|reflexivity..]).
  split; [exact Hwf|]. split; [reflexivity|]. split.
  - apply (normalizeTransitions_zero_row m 0 Hwf); [vm_compute; lia|reflexivity].
  - split; reflexivity.
Defined.

(** ** Instances of the properties on sample models *)


Lemma normalizeTransitions_rowwise_witness :
  let m : HMM float := Sample.model false 2 [1; 3]%float [0; 0; 1; 3]%float in
  well_formed m /\
  prior_ (normalizeTransitions m) = [0.25; 0.75]%float /\
  row (normalizeTransitions m) 1 = [0.25; 0.75]%float.
Proof.
  intros m.
  assert (Hwf : well_formed m)
    by (split; [vm_compute; split; [discriminate|reflexivity]|reflexivity..]).
  destruct (normalizeTransitions_rowwise m Hwf) as (Wp & Wr & _).
  split; [exact Hwf|]. split.
  - rewrite Wp. reflexivity.
  - rewrite Wr by (vm_compute; lia). reflexivity.
Defined.

(** On doubles the sum after [normalizeTransitions] is one up to rounding
    only: the prior [1, 6, 2] is normalised to a vector whose sum, taken
    in index order, is the double just below one. *)
Theorem normalizeTransitions_rounds :
  let m : HMM float :=
    Sample.model false 3 [1; 6; 2]%float (replicate 9 1%float) in
  vsum (prior_ (normalizeTransitions m)) = 0x1.fffffffffffffp-1%float /\
  fltb (vsum (prior_ (normalizeTransitions m))) fone = true.
Proof. intros m. split; vm_compute; reflexivity. Qed.

Lemma setLeftRight_normalize_idempotent_witness :
  let m : HMM float := Sample.model false 3 (replicate 3 0%float) (replicate 9 0%float) in
  well_formed m /\
  prior_ (normalizeTransitions (setLeftRight m)) = [1; 0; 0]%float /\
  transition_ (normalizeTransitions (setLeftRight m))
  = [0.5; 0.5; 0; 0; 0.5; 0.5; 0; 0; 1]%float /\
  normalizeTransitions (setLeftRight (normalizeTransitions (setLeftRight m)))
  = normalizeTransitions (setLeftRight m).
Proof.
  intros m.
  assert (Hwf : well_formed m) by (split; [vm_compute; split; [discriminate|reflexivity]|reflexivity..]).
  destruct (setLeftRight_normalize_idempotent m Hwf) as (Wp & _ & _ & Wi).
  split; [exact Hwf|]. split; [exact Wp|]. split; [reflexivity|exact Wi].
Defined.

Lemma forward_zero_likelihood_witness :
  let m : HMM float := Sample.model false 2 [1; 0]%float [0.5; 0.5; 0; 1]%float in
  well_formed m /\
  exists m', forward_init (EmissionModel0 := Sample.gmm 0%float) [1%float] None m
             = Ok (m', 1%float) /\
             alpha m' = [0.5; 0.5]%float.
Proof.
  intros m.
  assert (Hwf : well_formed m) by (split; [vm_compute; split; [discriminate|reflexivity]|reflexivity..]).
  split; [exact Hwf|].
  destruct (forward_zero_likelihood (EmissionModel0 := Sample.gmm 0%float)
              m [1%float] None Hwf) as [W _].
  - intros i Hi. destruct i as [|[|i]]; [reflexivity|reflexivity|vm_compute in Hi; lia].
  - exact W.
Defined.



(** * The other member functions *)

(** ** The transition mode as a string *)

Section AccessorFacts.
Context `{PrivateData} {F : Type} `{Scalar F} `{!EmissionModel F} `{!Host F}
        `{!Companions F}.

Lemma upd_transitionMode_same (m : HMM F) :
  upd_transitionMode_ (fun _ => transitionMode_ m) m = m.
Proof. destruct m; reflexivity. Qed.

(** The transition mode as a string: [set_transitionMode] accepts the two
    names that [get_transitionMode] returns and no other string, reading
    back what was set and writing back what was read; it changes no other
    member. *)
Theorem transitionMode_round_trip (s : string) (m : HMM F) :
  set_transitionMode (get_transitionMode m) m = Ok m /\
  match set_transitionMode s m with
  | Ok m' =>
      get_transitionMode m' = s /\
      m' = upd_transitionMode_ (fun _ => transitionMode_ m') m
  | Throw e =>
      s <> "ergodic" /\ s <> "left-right" /\
      e = invalid_argument "Wrong Transition mode. choose 'ergodic' or 'left-right'"
  | _ => False
  end.
Proof.
  split.
  - unfold get_transitionMode, set_transitionMode.
    destruct (decide (transitionMode_ m = ERGODIC)) as [E|E].
    + simpl. rewrite <- E. f_equal. apply upd_transitionMode_same.
    + simpl. destruct (transitionMode_ m) eqn:Em; [congruence|].
      rewrite <- Em. f_equal. apply upd_transitionMode_same.
  - unfold set_transitionMode.
    destruct (bool_decide (s = "ergodic")) eqn:E1.
    + apply bool_decide_eq_true in E1. subst s. split; reflexivity.
    + destruct (bool_decide (s = "left-right")) eqn:E2.
      * apply bool_decide_eq_true in E2. subst s. split; reflexivity.
      * apply bool_decide_eq_false in E1. apply bool_decide_eq_false in E2.
        auto.
Qed.

End AccessorFacts.

(** ** Changing the number of states *)

Section Allocation.
Context `{PrivateData} {F : Type} `{Scalar F} `{!EmissionModel F} `{!Host F}
        `{!Companions F}.

(** What [allocate] leaves, member by member. *)
Lemma allocate_spec (m : HMM F) :
  1 <= nbStates_ m ->
  exists m', allocate m = Ok m' /\
    parent m' = parent m /\
    is_hierarchical_ m' = is_hierarchical_ m /\
    nbStates_ m' = nbStates_ m /\
    nbMixtureComponents_ m' = nbMixtureComponents_ m /\
    covarianceOffset_ m' = covarianceOffset_ m /\
    transitionMode_ m' = transitionMode_ m /\
    estimateMeans_ m' = estimateMeans_ m /\
    prior_ m' = resize (nbS m) fzero (prior_ m) /\
    transition_ m' = resize (nbS m * nbS m) fzero (transition_ m) /\
    alpha m' = resize (nbS m) fzero (alpha m) /\
    beta_ m' = resize (nbS m) fzero (beta_ m) /\
    states_ m' = replicate (nbS m)
                   (GMM_new (flags_ (parent m)) (trainingSet (parent m))
                      (nbMixtureComponents_ m) (covarianceOffset_ m)) /\
    exitProbabilities_ m'
    = if is_hierarchical_ m then
        <[Z.to_nat (nbStates_ m - 1) := HMM_DEFAULT_EXITPROBABILITY_LAST_STATE]>
          (resize (nbS m) fzero (exitProbabilities_ m))
      else exitProbabilities_ m.
Proof.
  intros HS. unfold allocate.
  destruct (Z.ltb_spec (nbStates_ m) 0); [lia|].
  cbv zeta. hmm_simpl. destruct (is_hierarchical_ m) eqn:Hh.
  - rewrite updateExitProbabilities_NULL by (hmm_simpl; assumption).
    eexists. split; [reflexivity|]. hmm_simpl. rewrite ?Hh.
    repeat split; reflexivity.
  - eexists. split; [reflexivity|]. hmm_simpl. rewrite ?Hh.
    repeat split; reflexivity.
Qed.

Lemma set_nbStates_changes (nbStates : Z) (m : HMM F) :
  1 <= nbStates < 2 ^ 31 -> nbStates <> nbStates_ m ->
  exists m', set_nbStates nbStates m = Ok m' /\
    well_formed m' /\
    nbStates_ m' = nbStates /\
    trained (parent m') = false /\
    is_hierarchical_ m' = is_hierarchical_ m /\
    prior_ m' = resize (Z.to_nat nbStates) fzero (prior_ m) /\
    transition_ m'
    = resize (Z.to_nat nbStates * Z.to_nat nbStates) fzero (transition_ m) /\
    states_ m' = replicate (Z.to_nat nbStates)
                   (GMM_new (flags_ (parent m)) (trainingSet (parent m))
                      (nbMixtureComponents_ m) (covarianceOffset_ m)) /\
    exitProbabilities_ m'
    = if is_hierarchical_ m then
        <[Z.to_nat (nbStates - 1) := HMM_DEFAULT_EXITPROBABILITY_LAST_STATE]>
          (resize (Z.to_nat nbStates) fzero (exitProbabilities_ m))
      else exitProbabilities_ m.
Proof.
  intros Hn Hne. unfold set_nbStates.
  destruct (Z.ltb_spec nbStates 1); [lia|].
  destruct (Z.eqb_spec nbStates (nbStates_ m)); [contradiction|].
  cbv zeta.
  destruct (allocate_spec (upd_nbStates_ (fun _ => nbStates) m))
    as (m1 & E & Kp & Kh & Kn & Kc & Ko & Kt & Ke & Kpr & Ktr & Ka & Kb & Ks & Kx);
    [hmm_simpl; lia|].
  rewrite E. cbn [mbind result_bind bind]. hmm_simpl.
  eexists. split; [reflexivity|]. hmm_simpl.
  assert (Hn' : nbS m1 = Z.to_nat nbStates) by (unfold nbS; rewrite Kn; reflexivity).
  split.
  { split; hmm_simpl; rewrite ?Hn'.
    - rewrite Kn. hmm_simpl. lia.
    - rewrite Kpr, length_resize. reflexivity.
    - rewrite Ktr, length_resize. reflexivity.
    - rewrite Ks, length_replicate. reflexivity.
    - rewrite Ka, length_resize. reflexivity.
    - rewrite Kb, length_resize. reflexivity. }
  rewrite ?Kh, ?Kn, ?Kpr, ?Ktr, ?Ks, ?Kx, ?Kp. hmm_simpl.
  repeat split; reflexivity.
Qed.



End Allocation.

(** ** Likelihood calls, exit probabilities from an array, reading, copying *)

Section Likelihoods.
Context `{PrivateData} {F : Type} `{Scalar F} `{!EmissionModel F} `{!Host F}
        `{!Companions F}.

(** The three likelihood functions on a model that satisfies the class
    invariant: a state index below [nbStates_] is passed on to the state,
    any other index (an [unsigned int]) throws [out_of_range], and the two
    bimodal functions throw [runtime_error] on a unimodal model before
    they look at the index. *)
Theorem obsProb_bounds (m : HMM F) (observation out : list F)
    (stateIndex : nat) (mixtureComponent : Z) :
  well_formed m -> Z.of_nat stateIndex < 2 ^ 32 ->
  ((stateIndex < nbS m)%nat ->
     exists g, states_ m !! stateIndex = Some g /\
       obsProb m observation stateIndex mixtureComponent
       = Ok (GMM_obsProb g observation mixtureComponent) /\
       (bimodal_ (parent m) = true ->
        obsProb_input m observation stateIndex mixtureComponent
        = Ok (GMM_obsProb_input g observation mixtureComponent) /\
        obsProb_bimodal m observation out stateIndex mixtureComponent
        = Ok (GMM_obsProb_bimodal g observation out mixtureComponent))) /\
  ((nbS m <= stateIndex)%nat ->
     obsProb m observation stateIndex mixtureComponent
     = Throw (out_of_range "State index is out of bounds") /\
     (bimodal_ (parent m) = true ->
      obsProb_input m observation stateIndex mixtureComponent
      = Throw (out_of_range "State index is out of bounds") /\
      obsProb_bimodal m observation out stateIndex mixtureComponent
      = Throw (out_of_range "State index is out of bounds"))) /\
  (bimodal_ (parent m) = false ->
     obsProb_input m observation stateIndex mixtureComponent
     = Throw (runtime_error "Model is not bimodal. Use the function 'obsProb'") /\
     obsProb_bimodal m observation out stateIndex mixtureComponent
     = Throw (runtime_error "Model is not bimodal. Use the function 'obsProb'")).
Proof.
  intros Hwf Hi. pose proof (wf_nbStates _ Hwf) as HS.
  assert (Hu : unsigned (nbStates_ m) = nbStates_ m)
    by (apply unsigned_small; lia).
  assert (Hv : unsigned (Z.of_nat stateIndex) = Z.of_nat stateIndex)
    by (unfold unsigned; apply Z.mod_small; lia).
  unfold obsProb, obsProb_input, obsProb_bimodal, state_at. rewrite Hu, Hv.
  split; [|split].
  - intros Hlt. unfold nbS in Hlt.
    destruct (lookup_lt_is_Some_2 (states_ m) stateIndex) as [g Hg];
      [rewrite (wf_states _ Hwf); exact Hlt|].
    exists g. split; [exact Hg|].
    destruct (Z.leb_spec (nbStates_ m) (Z.of_nat stateIndex)); [lia|].
    rewrite Hg. split; [reflexivity|]. intros ->. split; reflexivity.
  - intros Hge. unfold nbS in Hge.
    destruct (Z.leb_spec (nbStates_ m) (Z.of_nat stateIndex)); [|lia].
    split; [reflexivity|]. intros ->. split; reflexivity.
  - intros ->. split; reflexivity.
Qed.
End Likelihoods.

Section ExitArray.
Context `{PrivateData} {F : Type} `{Scalar F} `{!EmissionModel F} `{!Host F}
        `{!Companions F}.

Lemma copy_loop (a : list F) n (e : list F) :
  (n <= length a)%nat -> length e = n ->
  for_loopM n (fun i e =>
    match a !! i with
    | Some x => Ok (<[i := x]> e)
    | None => Undefined
    end) e = Ok (take n a).
Proof.
  intros Ha He.
  destruct (for_loopM_inv
    (fun k e' => (k <= n)%nat -> e' = take k a ++ drop k e) n
    (fun i e =>
       match a !! i with
       | Some x => Ok (<[i := x]> e)
       | None => Undefined
       end) e) as (e' & E & P).
  - intros _. rewrite drop_0. reflexivity.
  - intros i s Hi P. destruct (lookup_lt_is_Some_2 a i) as [x Hx]; [lia|].
    rewrite Hx. eexists. split; [reflexivity|]. intros _.
    rewrite P by lia.
    rewrite insert_app_r_alt; rewrite length_take; [|lia].
    replace (i - i `min` length a)%nat with 0%nat by lia.
    rewrite (take_S_r _ _ _ Hx), <- app_assoc. f_equal.
    destruct (lookup_lt_is_Some_2 e i) as [y Hy]; [lia|].
    rewrite (drop_S _ _ _ Hy). reflexivity.
  - rewrite E, P by lia. rewrite drop_ge by lia. rewrite app_nil_r. reflexivity.
Qed.

Lemma short_loop (a : list F) n (e : list F) :
  (length a < n)%nat ->
  for_loopM n (fun i e =>
    match a !! i with
    | Some x => Ok (<[i := x]> e)
    | None => Undefined
    end) e = Undefined.
Proof.
  intros Hn. unfold lt in Hn. induction Hn as [|n Hn IH].
  - rewrite for_loopM_S.
    destruct (for_loopM_inv (fun _ _ => True) (length a) (fun i e =>
      match a !! i with Some x => Ok (<[i := x]> e) | None => Undefined end) e)
      as (e' & E' & _); [exact I| |].
    + intros i s Hi _. destruct (lookup_lt_is_Some_2 a i) as [x Hx]; [lia|].
      rewrite Hx. eauto.
    + rewrite E'. simpl. rewrite lookup_ge_None_2 by lia. reflexivity.
  - rewrite for_loopM_S, IH. reflexivity.
Qed.

(** [updateExitProbabilities] with an array on a hierarchical model:
    the exit probabilities become the first [nbStates_] values of the
    array, whatever they were and however long the vector was; an array
    with fewer values is read past its end. *)
Theorem updateExitProbabilities_array_spec (a : list F) (m : HMM F) :
  is_hierarchical_ m = true -> 0 <= nbStates_ m ->
  ((nbS m <= length a)%nat ->
     updateExitProbabilities (Some a) m
     = Ok (upd_exitProbabilities_ (fun _ => take (nbS m) a) m)) /\
  ((length a < nbS m)%nat ->
     updateExitProbabilities (Some a) m = Undefined).
Proof.
  intros Hh HS. unfold updateExitProbabilities. rewrite Hh. simpl.
  destruct (Z.ltb_spec (nbStates_ m) 0); [lia|]. split.
  - intros Ha. rewrite copy_loop; [reflexivity|exact Ha|apply length_resize].
  - intros Ha. rewrite short_loop by exact Ha. reflexivity.
Qed.
End ExitArray.

Section Reading.
Context `{PrivateData} {F : Type} `{Scalar F} `{!EmissionModel F} `{!Host F}
        `{!Companions F}.

(** [from_json] never converts between the two kinds of model: when the
    parent class accepts its node, reading the document of a hierarchical
    model into a non-hierarchical one, or the reverse, throws
    [JSONException] with the message for that direction. *)
Theorem from_json_kind_mismatch (m target : HMM F) (p : EMBasedModel F) :
  json_type (EMBasedModel_to_json (parent m)) = T_NODE ->
  EMBasedModel_from_json
    (set_name "EMBasedModel" (EMBasedModel_to_json (parent m))) (parent target)
  = Ok p ->
  is_hierarchical_ m <> is_hierarchical_ target ->
  from_json (to_json m) target
  = Throw (JSONException
             (if is_hierarchical_ target
              then "Trying to read a non-hierarchical model in a hierarchical model."
              else "Trying to read a hierarchical model in a non-hierarchical model.")).
Proof.
  intros Hpt Hp Hne. unfold to_json, from_json.
  destruct (is_hierarchical_ m) eqn:Hm, (is_hierarchical_ target) eqn:Ht;
    try congruence;
    cbn [app json_type json_children tail];
    rewrite bool_decide_true by reflexivity;
    cbn [assert mbind result_bind bind];
    (rewrite (expect_head (set_name _ _));
       [|apply json_name_set_name|rewrite json_type_set_name; exact Hpt]);
    cbn [mbind result_bind bind]; rewrite Hp; cbn [mbind result_bind bind];
    rewrite (expect_head (JSON_BOOL "is_hierarchical" _)) by reflexivity;
    cbn [mbind result_bind bind]; hmm_simpl; rewrite Ht; reflexivity.
Qed.
End Reading.

Section Copies.
Context `{PrivateData} {F : Type} `{Scalar F} `{!EmissionModel F} `{!Host F}
        `{!Companions F}.

(** Copying a model that satisfies the class invariant gives one that
    satisfies it, with the sizes, the prior, the transition matrix, the
    mode and the states of the source; but the destination keeps its own
    [is_hierarchical_] and exit probabilities, so that a copy between a
    hierarchical and a non-hierarchical model is never equal to its
    source. *)
Theorem copy_keeps_kind (dst src : Playing F) :
  well_formed (base src) ->
  exists r, _copy dst src = Ok r /\
    well_formed (base r) /\
    nbStates_ (base r) = nbStates_ (base src) /\
    prior_ (base r) = prior_ (base src) /\
    transition_ (base r) = transition_ (base src) /\
    transitionMode_ (base r) = transitionMode_ (base src) /\
    states_ (base r) = states_ (base src) /\
    is_hierarchical_ (base r) = is_hierarchical_ (base dst) /\
    exitProbabilities_ (base r) = exitProbabilities_ (base dst) /\
    forwardInitialized_ r = forwardInitialized_ dst /\
    (is_hierarchical_ (base dst) <> is_hierarchical_ (base src) ->
     base r <> base src).
Proof.
  intros [HS Hp Ht Hs Ha Hb]. unfold _copy. cbv zeta. hmm_simpl.
  destruct (Z.ltb_spec (nbStates_ (base src)) 0); [lia|].
  eexists. split; [reflexivity|]. cbn [base upd_base upd_play_EM_stopCriterion_
    forwardInitialized_]. hmm_simpl.
  split.
  { split; hmm_simpl; try assumption; apply length_resize. }
  repeat split; try reflexivity.
  intros Hne E. apply Hne. rewrite <- E. reflexivity.
Qed.
End Copies.

Section Evaluate.
Context `{PrivateData} {F : Type} `{Scalar F} `{!EmissionModel F} `{!Host F}
        `{!Companions F}.

(** [evaluateNbStates] leaves a model without training data alone; with
    data it needs the phrase of index [0], throwing [out_of_range] when
    the training set has none, and sets the number of states to the
    length of that phrase divided by the factor, so that a phrase shorter
    than the factor makes it throw [invalid_argument]. *)
Theorem evaluateNbStates_edges (factor : Z) (m : HMM F) (ts : TrainingSet F) :
  (trainingSet (parent m) = None -> evaluateNbStates factor m = Ok m) /\
  (trainingSet (parent m) = Some ts ->
   (phrases ts = [] -> evaluateNbStates factor m = Ok m) /\
   (phrases ts <> [] -> (forall e, e ∈ phrases ts -> e.1 <> 0) ->
      evaluateNbStates factor m
      = Throw (out_of_range "Training set: phrase does not exist")) /\
   (forall p, phrase_at ts 0 = Ok p -> 0 < factor ->
      (0 <= length_ p < factor ->
         evaluateNbStates factor m
         = Throw (invalid_argument "Number of states must be > 0")) /\
      (factor <= length_ p ->
         evaluateNbStates factor m = set_nbStates (length_ p / factor) m))).
Proof.
  unfold evaluateNbStates. split; [intros ->; reflexivity|].
  intros ->. split; [|split].
  - intros E. unfold is_empty. rewrite E. reflexivity.
  - intros Hne Hk. unfold is_empty. destruct (phrases ts) as [|x l] eqn:E;
      [contradiction|].
    unfold phrase_at. rewrite E.
    destruct (list_find _ (x :: l)) as [[i e]|] eqn:Ef; [|reflexivity].
    exfalso. apply list_find_Some in Ef as (He & Hz & _).
    apply (Hk e); [|exact Hz]. apply (list_elem_of_lookup_2 _ i). exact He.
  - intros p Ep Hf.
    assert (Hne : is_empty ts = false).
    { unfold is_empty. unfold phrase_at in Ep.
      destruct (phrases ts); [discriminate|reflexivity]. }
    rewrite Hne, Ep. cbn [mbind result_bind bind].
    destruct (Z.eqb_spec factor 0); [lia|]. split.
    + intros Hl. rewrite Z.quot_small by lia. reflexivity.
    + intros Hl. rewrite Z.quot_div_nonneg by lia. reflexivity.
Qed.
End Evaluate.

(** ** Time progression *)

From Stdlib Require Import Lqa.

Section Progress.
Context `{PrivateData}.

Lemma div_null_zero (y : float) :
  float_null y -> PrimFloat.is_nan (y / 0)%float = true.
Proof.
  intros Hy. unfold PrimFloat.is_nan. rewrite FloatAxioms.eqb_spec, div_spec.
  change (Prim2SF 0) with (S754_zero false).
  unfold float_null in Hy.
  destruct (Prim2SF y) as [s|s| |s m e]; try contradiction; reflexivity.
Qed.

(** On doubles the time progression of a model with a single state is
    not a number, whatever [alpha] holds: the weighted sum is divided by
    [nbStates_ - 1]. *)
Theorem updateTimeProgression_single_state (o : Playing float) :
  nbStates_ (base o) = 1 ->
  fisnan (progress (updateTimeProgression o)) = true.
Proof.
  intros Hn. unfold updateTimeProgression. cbv zeta. rewrite Hn.
  change (Z.to_nat (unsigned 1)) with 1%nat.
  rewrite for_loop_S, for_loop_0.
  change (of_int (1 - 1)) with 0%float. change (of_int (Z.of_nat 0)) with 0%float.
  destruct (is_hierarchical_ (base o)); cbn [progress upd_progress];
    apply div_null_zero;
    (apply (null_add (NullArithmetic := binary64_null));
       [apply (null_zero (NullArithmetic := binary64_null))
       |apply (null_mul_zero (NullArithmetic := binary64_null))]).
Qed.
End Progress.

Ltac qc_order :=
  unfold Qcle, Qclt in *;
  cbn [this Qcplus Qcmult Qcminus Qcopp Q2Qc] in *;
  rewrite ?Qred_correct in *.

Section ProgressBounds.
Context `{PrivateData}.

Lemma progress_step (r a q k : Qc) :
  (0 <= r)%Qc -> (r <= (k - 1) * a)%Qc -> (0 <= a)%Qc -> (0 <= q)%Qc ->
  (0 <= k)%Qc ->
  (0 <= r + q * k)%Qc /\ (r + q * k <= (k + 1 - 1) * (a + q))%Qc /\
  (0 <= a + q)%Qc.
Proof.
  intros H1 H2 H3 H4 H5. qc_order. repeat split; nra.
Qed.

Lemma progress_final (r d : Qc) :
  (0 <= r)%Qc -> (r <= d)%Qc -> (0 < d)%Qc ->
  (0 <= r / d)%Qc /\ (r / d <= 1)%Qc.
Proof.
  intros H1 H2 H3. unfold Qcdiv, Qcinv. qc_order.
  change (r * / d)%Q with (r / d)%Q. split.
  - apply Qle_shift_div_l; [exact H3|]. lra.
  - apply Qle_shift_div_r; [exact H3|]. lra.
Qed.

Lemma Qc_of_nat_S k :
  Q2Qc (inject_Z (Z.of_nat (S k))) = (Q2Qc (inject_Z (Z.of_nat k)) + 1)%Qc.
Proof.
  apply Qc_is_canon. cbn [this Q2Qc Qcplus]. rewrite !Qred_correct.
  rewrite Nat2Z.inj_succ, <- Z.add_1_r, inject_Z_plus. reflexivity.
Qed.

Lemma Qc_of_nat_nonneg k : (0 <= Q2Qc (inject_Z (Z.of_nat k)))%Qc.
Proof.
  qc_order. change 0%Q with (inject_Z 0). rewrite <- Zle_Qle. lia.
Qed.

End ProgressBounds.

(** ** The ergodic topology *)

Section Ergodic.
Context `{PrivateData} {F : Type} `{Scalar F} `{!EmissionModel F} `{!Host F}.
#[local] Open Scope nat_scope.

Lemma fmap_const_seq (u : F) b n : (fun _ : nat => u) <$> seq b n = replicate n u.
Proof. revert b. induction n as [|n IH]; intros b; [reflexivity|]. simpl. f_equal. apply IH. Qed.

Lemma ergodic_raw_width n (u : F) : keeps_width n (ergodic_raw n u).
Proof. intros i r _. unfold ergodic_raw. rewrite length_fmap, length_seq. reflexivity. Qed.

Lemma setErgodic_eq (m : HMM F) :
  well_formed m ->
  setErgodic m
  = upd_prior_ (fun _ => replicate (nbS m) (ergodic_value m))
      (upd_transition_ (fun _ =>
         imap_rows (nbS m) (ergodic_raw (nbS m) (ergodic_value m)) 0 (nbS m)
           (transition_ m)) m).
Proof.
  intros [HS Hp Ht _ _ _]. unfold setErgodic.
  set (n := nbS m) in *. set (u := ergodic_value m).
  rewrite (for_loop_inv
    (fun i m' => m' = upd_prior_ (fun _ => replicate i u ++ drop i (prior_ m))
                   (upd_transition_ (fun _ =>
                      imap_rows n (ergodic_raw n u) 0 i (transition_ m)) m)) n _ m).
  - rewrite drop_ge by lia. rewrite app_nil_r. reflexivity.
  - simpl. destruct m; reflexivity.
  - intros i m' Hi ->. cbv zeta.
    change (nbS (upd_prior_ _ _)) with n.
    change (nbStates_ (upd_prior_ _ _)) with (nbStates_ m).
    change (nbStates_ (upd_prior_ _ _)) with (nbStates_ m).
    fold (ergodic_value m). fold u.
    set (t := imap_rows n (ergodic_raw n u) 0 i (transition_ m)).
    assert (Hu : length t = length (transition_ m)).
    { apply length_imap_rows; [apply ergodic_raw_width|]. rewrite Ht. fold n. nia. }
    rewrite (for_loop_member transition_member n _
               (fun j t => <[i * n + j := u]> t))
      by (intros; reflexivity).
    rewrite imap_rows_snoc
      by (try apply ergodic_raw_width; rewrite Ht; fold n; nia).
    cbv zeta. fold t. hmm_simpl.
    rewrite insert_range by (rewrite Hu, Ht; fold n; nia).
    assert (E : <[i := u]> (replicate i u ++ drop i (prior_ m))
                = replicate (S i) u ++ drop (S i) (prior_ m)).
    { destruct (lookup_lt_is_Some_2 (prior_ m) i) as [x Hx]; [lia|].
      rewrite (drop_S _ _ _ Hx).
      rewrite insert_app_r_alt by (rewrite length_replicate; lia).
      rewrite length_replicate, Nat.sub_diag.
      rewrite replicate_S_end, <- app_assoc. reflexivity. }
    rewrite <- E. clearbody t. destruct m. reflexivity.
Qed.

(** [setErgodic] on a model that satisfies the class invariant: every
    entry of the prior and of every row of the transition matrix is the
    single-precision quotient [1/(float)nbStates_], and nothing else
    changes. *)
Theorem setErgodic_uniform (m : HMM F) :
  well_formed m ->
  prior_ (setErgodic m) = replicate (nbS m) (ergodic_value m) /\
  (forall i, i < nbS m ->
     row (setErgodic m) i = replicate (nbS m) (ergodic_value m)) /\
  setErgodic m
  = upd_prior_ (fun _ => prior_ (setErgodic m))
      (upd_transition_ (fun _ => transition_ (setErgodic m)) m).
Proof.
  intros Hwf. rewrite setErgodic_eq by exact Hwf. split; [reflexivity|].
  split; [|reflexivity].
  intros i Hi. unfold row. hmm_simpl.
  rewrite row_of_imap_rows;
    [|apply ergodic_raw_width|rewrite (wf_transition _ Hwf); lia|exact Hi].
  unfold ergodic_raw. apply fmap_const_seq.
Qed.
End Ergodic.

Section ErgodicExact.
Context `{PrivateData} `{!EmissionModel exact} `{!Host exact}.
#[local] Open Scope nat_scope.

Lemma foldl_Qcplus_replicate n (c a : Qc) :
  foldl Qcplus a (replicate n c)
  = (a + Q2Qc (inject_Z (Z.of_nat n)) * c)%Qc.
Proof.
  revert a. induction n as [|n IH]; intros a.
  - cbn [replicate foldl]. change (Q2Qc (inject_Z (Z.of_nat 0))) with (Q2Qc 0).
    ring.
  - rewrite Qc_of_nat_S. cbn [replicate foldl]. rewrite IH. ring.
Qed.

Lemma well_formed_setErgodic (m : HMM exact) :
  well_formed m -> well_formed (setErgodic m).
Proof.
  intros Hwf. rewrite setErgodic_eq by exact Hwf.
  destruct Hwf as [HS Hp Ht Hs Ha Hb].
  split; hmm_simpl; try assumption.
  - apply length_replicate.
  - rewrite length_imap_rows; [exact Ht|apply ergodic_raw_width|]. rewrite Ht. lia.
Qed.

Lemma ergodic_value_exact (m : HMM exact) :
  (1 <= nbStates_ m)%Z ->
  ergodic_value m = Fin (1 / Q2Qc (inject_Z (nbStates_ m)))%Qc /\
  Q2Qc (inject_Z (nbStates_ m)) <> 0%Qc.
Proof.
  intros HS.
  assert (Hn : Q2Qc (inject_Z (nbStates_ m)) <> 0%Qc).
  { intros E. apply Q2Qc_eq_iff in E. unfold Qeq in E. simpl in E. lia. }
  split; [|exact Hn].
  unfold ergodic_value. cbn [fsingle fdiv fone of_int exact_scalar exact_div].
  destruct (Qc_eq_dec _ 0%Qc); [contradiction|reflexivity].
Qed.

Lemma vsum_uniform (m : HMM exact) :
  (1 <= nbStates_ m)%Z ->
  vsum (replicate (nbS m) (ergodic_value m)) = fone.
Proof.
  intros HS. destruct (ergodic_value_exact m HS) as [-> Hn].
  rewrite <- (fmap_replicate Fin). unfold vsum.
  change (@fzero exact _) with (Fin 0%Qc).
  rewrite foldl_fadd_Fin, foldl_Qcplus_replicate.
  unfold nbS. rewrite Z2Nat.id by lia.
  change (@fone exact _) with (Fin 1%Qc). f_equal. field. exact Hn.
Qed.

Lemma normalized_uniform (m : HMM exact) :
  (1 <= nbStates_ m)%Z ->
  normalized (replicate (nbS m) (ergodic_value m))
  = replicate (nbS m) (ergodic_value m).
Proof.
  intros HS. unfold normalized. rewrite vsum_uniform by exact HS.
  destruct (ergodic_value_exact m HS) as [-> Hn].
  rewrite fmap_replicate. f_equal.
  cbn [fdiv fone exact_scalar exact_div].
  destruct (Qc_eq_dec 1%Qc 0%Qc) as [E|_]; [discriminate|].
  f_equal. field. split; [exact Hn|discriminate].
Qed.

End ErgodicExact.

(** ** The cyclic transition *)

Section Cyclic.
Context `{PrivateData} {F : Type} `{Scalar F} `{!EmissionModel F} `{!Host F}
        `{!Companions F}.
#[local] Open Scope nat_scope.

Lemma cyclic_index (m : HMM F) :
  (1 <= nbStates_ m)%Z ->
  Z.to_nat ((nbStates_ m - 1) * nbStates_ m) = (nbS m - 1) * nbS m.
Proof.
  intros HS. unfold nbS.
  rewrite Z2Nat.inj_mul, Z2Nat.inj_sub by lia. reflexivity.
Qed.

Lemma row_of_insert_later {A} w (t : list A) i k x :
  i * w + w <= k -> row_of w (<[k := x]> t) i = row_of w t i.
Proof.
  intros Hk. unfold row_of.
  rewrite drop_insert_ge by lia. apply take_insert_ge. lia.
Qed.

Lemma row_of_insert_first {A} w (t : list A) i x :
  0 < w -> row_of w (<[i * w := x]> t) i = <[0 := x]> (row_of w t i).
Proof.
  intros Hw. unfold row_of.
  rewrite drop_insert_ge by lia. rewrite Nat.sub_diag.
  apply take_insert_lt. exact Hw.
Qed.

Lemma well_formed_addCyclicTransition p (m : HMM F) :
  well_formed m -> well_formed (addCyclicTransition p m).
Proof.
  intros [HS Hp Ht Hs Ha Hb]. unfold addCyclicTransition.
  destruct (is_hierarchical_ m); simpl; split; hmm_simpl; try assumption.
  rewrite length_insert. exact Ht.
Qed.

Lemma rows_addCyclicTransition p (m : HMM F) :
  well_formed m -> is_hierarchical_ m = false ->
  nbS (addCyclicTransition p m) = nbS m /\
  prior_ (addCyclicTransition p m) = prior_ m /\
  (forall i, i < nbS m - 1 -> row (addCyclicTransition p m) i = row m i) /\
  row (addCyclicTransition p m) (nbS m - 1) = <[0 := p]> (row m (nbS m - 1)).
Proof.
  intros Hwf Hh. pose proof (wf_nbStates _ Hwf) as HS.
  unfold addCyclicTransition. rewrite Hh. simpl.
  rewrite cyclic_index by lia. unfold row. hmm_simpl.
  split; [reflexivity|]. split; [reflexivity|]. split.
  - intros i Hi. apply row_of_insert_later. nia.
  - apply row_of_insert_first. unfold nbS. lia.
Qed.

(** The cyclic transition: a hierarchical model is left as it is; on a
    non-hierarchical model that satisfies the class invariant the one
    entry written is the first of the last row, so that the prior and the
    other rows are unchanged (with a single state the entry is the
    self-transition). *)
Theorem addCyclicTransition_spec (p : F) (m : HMM F) :
  well_formed m ->
  (is_hierarchical_ m = true -> addCyclicTransition p m = m) /\
  (is_hierarchical_ m = false ->
     prior_ (addCyclicTransition p m) = prior_ m /\
     (forall i, i < nbS m - 1 -> row (addCyclicTransition p m) i = row m i) /\
     row (addCyclicTransition p m) (nbS m - 1) = <[0 := p]> (row m (nbS m - 1)) /\
     well_formed (addCyclicTransition p m)).
Proof.
  intros Hwf. split.
  - intros Hh. unfold addCyclicTransition. rewrite Hh. reflexivity.
  - intros Hh. destruct (rows_addCyclicTransition p m Hwf Hh) as (_ & Ep & Eo & El).
    split; [exact Ep|]. split; [exact Eo|]. split; [exact El|].
    apply well_formed_addCyclicTransition; exact Hwf.
Qed.
End Cyclic.

Section CyclicExact.
Context `{PrivateData} `{!EmissionModel exact} `{!Host exact} `{!Companions exact}.
#[local] Open Scope nat_scope.

Lemma fpos_Fin_pos (s : Qc) : (0 < s)%Qc -> fpos (Fin s) = true.
Proof.
  intros Hs. assert (E : (0 ?= s)%Qc = Lt) by (apply Qclt_alt; exact Hs).
  unfold fpos. change (exact_ltb (Fin 0%Qc) (Fin s) = true).
  unfold exact_ltb. rewrite E. reflexivity.
Qed.

(** The last row of a left-right matrix with its first entry replaced. *)
Lemma vsum_cyclic_row n (q : Qc) :
  1 <= n ->
  vsum (<[0 := Fin q]> (left_right_row n (n - 1)))
  = Fin (if bool_decide (n = 1) then q else (q + 1)%Qc).
Proof.
  intros Hn. destruct n as [|[|n]]; [lia| |].
  - change (Fin (0 + q)%Qc = Fin q). f_equal. ring.
  - rewrite bool_decide_false by lia.
    pose proof (vsum_left_right_row (F := exact) (S (S n)) (S (S n) - 1)
                  ltac:(lia)) as E.
    unfold left_right_row in *.
    change (seq 0 (S (S n))) with (0 :: seq 1 (S n)) in *.
    rewrite fmap_cons in *.
    rewrite bool_decide_true in * by lia.
    replace (S (S n) - 1) with (S n) in * by lia.
    rewrite (bool_decide_false (S n = 0)) in * by lia.
    set (rest := _ <$> seq 1 (S n)) in *. clearbody rest.
    cbn [insert list_insert]. unfold vsum in *. cbn [foldl] in *.
    change (@fzero exact _) with (Fin 0%Qc) in *.
    change (@fone exact _) with (Fin 1%Qc) in *.
    cbn [fadd exact_scalar exact_lift2] in *.
    destruct (foldl_fadd_Fin_inv _ _ _ E) as (qs & -> & Es).
    rewrite foldl_fadd_Fin. f_equal.
    rewrite foldl_Qcplus_shift in Es. rewrite foldl_Qcplus_shift.
    rewrite <- Es. ring.
Qed.

End CyclicExact.

(** ** The forward recursion *)

Section Recursion.
Context `{PrivateData} {F : Type} `{Scalar F} `{!EmissionModel F} `{!Host F}
        `{!Companions F}.
#[local] Open Scope nat_scope.

Lemma alter_loop (op : F -> F -> F) (P : nat -> F) j n (a : list F) :
  for_loop n (fun i a' => alter (fun x => op x (P i)) j a') a
  = alter (fun x => for_loop n (fun i acc => op acc (P i)) x) j a.
Proof.
  induction n as [|n IH].
  - simpl. symmetry. apply list_alter_id. reflexivity.
  - rewrite for_loop_S, IH, list_alter_alter_eq.
    apply list_alter_ext; [|reflexivity]. intros x _. simpl.
    rewrite for_loop_S. reflexivity.
Qed.

Lemma alter_insert_eq (f : F -> F) j x (a : list F) :
  alter f j (<[j := x]> a) = <[j := f x]> a.
Proof.
  rewrite !list_insert_alter, list_alter_alter_eq. reflexivity.
Qed.

(** The loop over [j] shared by [forward_update] and
    [forward_update_withNewObservation], for any likelihood call that
    does not look at [alpha]. *)
Lemma forward_loop_spec (call : HMM F -> nat -> result F) (lik : nat -> F)
    (m : HMM F) :
  length (alpha m) = nbS m ->
  (forall a j, j < nbS m -> call (upd_alpha (fun _ => a) m) j = Ok (lik j)) ->
  for_loopM (nbS m) (fun j '(norm_const, m) =>
    let m := upd_alpha <[j := fzero]> m in
    let m :=
      for_loop (nbS m) (fun i m =>
        upd_alpha (alter (fun x =>
          fadd x (fmul (previousAlpha_ m !!! i)
                    (transition_ m !!! (i * nbS m + j)%nat))) j) m) m in
    o ← call m j;
    let m := upd_alpha (alter (fun x => fmul x o) j) m in
    Ok (fadd norm_const (alpha m !!! j), m)) (fzero, m)
  = Ok (vsum (forward_step (previousAlpha_ m) (transition_ m) lik (nbS m)),
        upd_alpha (fun _ =>
          forward_step (previousAlpha_ m) (transition_ m) lik (nbS m)) m).
Proof.
  intros Ha Hcall.
  set (n := nbS m) in *.
  set (A := forward_step (previousAlpha_ m) (transition_ m) lik n).
  assert (HA : length A = n)
    by (unfold A, forward_step; rewrite length_fmap, length_seq; reflexivity).
  destruct (for_loopM_inv
    (fun k (s : F * HMM F) =>
       k <= n ->
       s = (vsum (take k A), upd_alpha (fun _ => take k A ++ drop k (alpha m)) m))
    n
    (fun j '(norm_const, m) =>
       let m := upd_alpha <[j := fzero]> m in
       let m :=
         for_loop (nbS m) (fun i m =>
           upd_alpha (alter (fun x =>
             fadd x (fmul (previousAlpha_ m !!! i)
                       (transition_ m !!! (i * nbS m + j)%nat))) j) m) m in
       o ← call m j;
       let m := upd_alpha (alter (fun x => fmul x o) j) m in
       Ok (fadd norm_const (alpha m !!! j), m))
    (fzero, m)) as ([nc m1] & E & P).
  - intros _. rewrite drop_0. simpl. f_equal. symmetry.
    apply (upd_get alpha_member).
  - intros j [nc m'] Hj P. specialize (P ltac:(lia)). injection P as -> ->.
    cbv zeta.
    change (nbS (upd_alpha _ (upd_alpha _ m))) with n.
    rewrite (for_loop_member alpha_member n _
               (fun i a' => alter (fun x =>
                  fadd x (fmul (previousAlpha_ m !!! i)
                            (transition_ m !!! (i * n + j)%nat))) j a'))
      by (intros; reflexivity).
    set (B := take j A ++ drop j (alpha m)).
    set (L := for_loop n _ (get alpha_member _)).
    change (upd alpha_member (fun _ => L)
              (upd_alpha <[j:=fzero]> (upd_alpha (fun _ => B) m)))
      with (upd_alpha (fun _ => L) m).
    rewrite Hcall by exact Hj. cbn [mbind result_bind bind].
    change (upd_alpha (alter (fun x => fmul x (lik j)) j) (upd_alpha (fun _ => L) m))
      with (upd_alpha (fun _ => alter (fun x => fmul x (lik j)) j L) m).
    change (alpha (upd_alpha (fun _ => alter (fun x => fmul x (lik j)) j L) m))
      with (alter (fun x => fmul x (lik j)) j L).
    assert (EL : alter (fun x => fmul x (lik j)) j L
                 = <[j := fmul (transition_sum (previousAlpha_ m)
                                  (transition_ m) n j) (lik j)]> B).
    { unfold L. change (get alpha_member _) with (<[j:=fzero]> B).
      rewrite (alter_loop fadd (fun i => fmul (previousAlpha_ m !!! i)
                                            (transition_ m !!! (i * n + j)%nat))).
      rewrite !alter_insert_eq. reflexivity. }
    rewrite EL. clearbody L. unfold B.
    assert (Aj : A !! j = Some (fmul (transition_sum (previousAlpha_ m)
                                        (transition_ m) n j) (lik j))).
    { unfold A, forward_step. rewrite list_lookup_fmap, lookup_seq_lt by lia.
      reflexivity. }
    assert (Hins : <[j := fmul (transition_sum (previousAlpha_ m)
                                  (transition_ m) n j) (lik j)]>
                     (take j A ++ drop j (alpha m))
                   = take (S j) A ++ drop (S j) (alpha m)).
    { rewrite insert_app_r_alt; rewrite length_take; [|lia].
      replace (j - j `min` length A) with 0 by lia.
      destruct (lookup_lt_is_Some_2 (alpha m) j) as [y Hy]; [lia|].
      rewrite (drop_S _ _ _ Hy), (take_S_r _ _ _ Aj), <- app_assoc.
      reflexivity. }
    eexists. split; [reflexivity|]. intros _. f_equal; [|rewrite Hins; reflexivity].
    rewrite list_lookup_total_insert_eq
      by (rewrite length_app, length_take, length_drop; lia).
    rewrite (take_S_r _ _ _ Aj), vsum_snoc. reflexivity.
  - rewrite E, P by lia. rewrite drop_ge by lia. rewrite app_nil_r.
    replace (take n A) with A by (rewrite <- HA; symmetry; apply firstn_all).
    reflexivity.
Qed.
End Recursion.

Section ForwardRecursion.
Context `{PrivateData} {F : Type} `{Scalar F} `{!EmissionModel F} `{!Host F}
        `{!Companions F}.
#[local] Open Scope nat_scope.

Lemma emission_likelihood (m : HMM F) observation observation_output j :
  well_formed m -> j < nbS m ->
  emission m observation observation_output j
  = Ok (likelihood m observation observation_output j).
Proof.
  intros Hwf Hj.
  destruct (emission_Ok m observation observation_output j Hwf Hj) as (g & Hg & E).
  unfold likelihood. rewrite Hg. exact E.
Qed.

Lemma forward_scale_scaled (m : HMM F) (a : list F) :
  length a = nbS m ->
  forward_scale (vsum a) (upd_alpha (fun _ => a) m)
  = (upd_alpha (fun _ => (scaled (nbS m) (nbStates_ m) a).1) m,
     (scaled (nbS m) (nbStates_ m) a).2).
Proof.
  intros Ha. rewrite forward_scale_eq by exact Ha. unfold scaled.
  destruct (fpos (vsum a)); reflexivity.
Qed.

Lemma length_scaled n nbStates (a : list F) :
  length a = n -> length (scaled n nbStates a).1 = n.
Proof.
  intros Ha. unfold scaled. destruct (fpos (vsum a)); simpl.
  - rewrite length_fmap. exact Ha.
  - apply length_replicate.
Qed.

(** The forward recursion.  On a model that satisfies the class
    invariant, [forward_init] returns the scaled products of the prior
    and the likelihoods, and [forward_update] moves [alpha] to
    [previousAlpha_] and returns the scaled products of the transition
    sums over the old [alpha] and the likelihoods; each returns the
    inverse of the sum it divided by, or the uniform vector and one when
    that sum is not positive. *)
Theorem forward_recursion (m : HMM F) (observation : list F)
    (observation_output : option (list F)) :
  well_formed m ->
  let lik := likelihood m observation observation_output in
  let a0 := (fun i => fmul (prior_ m !!! i) (lik i)) <$> seq 0 (nbS m) in
  let a1 := forward_step (alpha m) (transition_ m) lik (nbS m) in
  forward_init observation observation_output m
  = Ok (upd_alpha (fun _ => (scaled (nbS m) (nbStates_ m) a0).1) m,
        (scaled (nbS m) (nbStates_ m) a0).2) /\
  forward_update observation observation_output m
  = Ok (upd_alpha (fun _ => (scaled (nbS m) (nbStates_ m) a1).1)
          (upd_previousAlpha_ (fun _ => alpha m) m),
        (scaled (nbS m) (nbStates_ m) a1).2).
Proof.
  intros Hwf lik a0 a1. split.
  - destruct (forward_init_accumulate_spec m observation observation_output Hwf)
      as (a & E & Hl & Hv).
    assert (Ea : a = a0).
    { apply list_eq. intros i. unfold a0.
      rewrite list_lookup_fmap. destruct (decide (i < nbS m)) as [Hi|Hi].
      - rewrite lookup_seq_lt by exact Hi. simpl.
        destruct (Hv i Hi) as (o & Eo & Ei).
        rewrite emission_likelihood in Eo by assumption. injection Eo as <-.
        unfold lik. rewrite <- Ei. apply list_lookup_lookup_total_lt. lia.
      - rewrite lookup_seq_ge by lia. apply lookup_ge_None_2. lia. }
    subst a. unfold forward_init. rewrite E. cbn [mbind result_bind bind].
    rewrite forward_scale_scaled by exact Hl. reflexivity.
  - unfold forward_update, forward_update_accumulate. cbv zeta.
    set (m0 := upd_previousAlpha_ (fun _ => alpha m) m).
    assert (L := forward_loop_spec
                   (fun m' j => emission m' observation observation_output j)
                   lik m0 (wf_alpha _ Hwf)).
    specialize (L ltac:(intros a j Hj;
      exact (emission_likelihood m observation observation_output j Hwf Hj))).
    match type of L with ?lhs = _ =>
      match goal with |- ?X ≫= ?k = ?r => change (lhs ≫= k = r) end
    end.
    cbv beta in L. cbv beta. rewrite L. cbn [mbind result_bind bind].
    change (previousAlpha_ m0) with (alpha m).
    change (transition_ m0) with (transition_ m).
    change (nbS m0) with (nbS m). fold a1.
    rewrite (forward_scale_scaled m0 a1)
      by (unfold a1, forward_step; rewrite length_fmap, length_seq; reflexivity).
    reflexivity.
Qed.
End ForwardRecursion.

Section NewObservation.
Context `{PrivateData} {F : Type} `{Scalar F} `{!EmissionModel F} `{!Host F}
        `{!Companions F}.
#[local] Open Scope nat_scope.

Lemma for_loopM_first_throws {St} n (body : nat -> St -> result St) s e :
  1 <= n -> body 0 s = Throw e -> for_loopM n body s = Throw e.
Proof.
  intros Hn Hb. induction Hn as [|n Hn IH].
  - rewrite for_loopM_S. simpl. exact Hb.
  - rewrite for_loopM_S, IH. reflexivity.
Qed.

Lemma well_formed_upd_alpha (m : HMM F) (a : list F) :
  well_formed m -> length a = nbS m -> well_formed (upd_alpha (fun _ => a) m).
Proof.
  intros [HS Hp Ht Hs Ha Hb] Hl. split; hmm_simpl; assumption.
Qed.

Lemma forward_update_withNewObservation_Ok (m : HMM F) observation out :
  well_formed m -> bimodal_ (parent m) = true ->
  forward_update_withNewObservation_accumulate observation (Some out) m
  = Ok (vsum (forward_step (previousAlpha_ m) (transition_ m)
                (likelihood m observation (Some out)) (nbS m)),
        upd_alpha (fun _ =>
          forward_step (previousAlpha_ m) (transition_ m)
            (likelihood m observation (Some out)) (nbS m)) m).
Proof.
  intros Hwf Hb.
  assert (L := forward_loop_spec
                 (fun m' j => obsProb_bimodal_ptr m' observation (Some out) j (-1)%Z)
                 (likelihood m observation (Some out)) m (wf_alpha _ Hwf)).
  specialize (L ltac:(intros a j Hj;
    refine (eq_trans _ (emission_likelihood m observation (Some out) j Hwf Hj));
    unfold emission; rewrite Hb; reflexivity)).
  cbv beta in L. exact L.
Qed.

(** [forward_update_withNewObservation] on an object whose model
    satisfies the class invariant.  Before the first observation it is
    [forward_init].  Afterwards it asks for the bimodal likelihood, so
    it throws [runtime_error] on a unimodal model; on a bimodal one it
    recomputes [alpha] from [previousAlpha_], which it leaves alone: the
    result does not depend on the [alpha] it finds, and a second call
    with the same observation returns the same object and scale
    factor. *)
Theorem forward_update_withNewObservation_spec (o : Playing F)
    (observation out : list F) (observation_output : option (list F)) :
  well_formed (base o) ->
  (forwardInitialized_ o = false ->
     forward_update_withNewObservation observation observation_output o
     = '(m, ct) ← forward_init observation observation_output (base o);
       Ok (upd_base (fun _ => m) o, ct)) /\
  (forwardInitialized_ o = true -> bimodal_ (parent (base o)) = false ->
     forward_update_withNewObservation observation observation_output o
     = Throw (runtime_error "Model is not bimodal. Use the function 'obsProb'")) /\
  (forwardInitialized_ o = true -> bimodal_ (parent (base o)) = true ->
     let m := base o in
     let a := forward_step (previousAlpha_ m) (transition_ m)
                (likelihood m observation (Some out)) (nbS m) in
     let r := (upd_base (upd_alpha (fun _ => (scaled (nbS m) (nbStates_ m) a).1)) o,
               (scaled (nbS m) (nbStates_ m) a).2) in
     forward_update_withNewObservation observation (Some out) o = Ok r /\
     forward_update_withNewObservation observation (Some out) r.1 = Ok r).
Proof.
  intros Hwf. split; [|split].
  - intros Hi. unfold forward_update_withNewObservation. rewrite Hi. reflexivity.
  - intros Hi Hb. unfold forward_update_withNewObservation. rewrite Hi.
    unfold forward_update_withNewObservation_accumulate.
    rewrite (for_loopM_first_throws _ _ _
               (runtime_error "Model is not bimodal. Use the function 'obsProb'")).
    + reflexivity.
    + pose proof (wf_nbStates _ Hwf). unfold nbS. lia.
    + cbv zeta.
      assert (E : forall m' j, bimodal_ (parent m') = false ->
                obsProb_bimodal_ptr m' observation observation_output j (-1)%Z
                = Throw (runtime_error
                           "Model is not bimodal. Use the function 'obsProb'")).
      { intros m' j Hm'. unfold obsProb_bimodal_ptr, obsProb_bimodal.
        rewrite Hm'. destruct observation_output; reflexivity. }
      rewrite E; [reflexivity|].
      apply (for_loop_pres (fun m' => bimodal_ (parent m') = false)).
      * exact Hb.
      * intros i m' Hm'. exact Hm'.
  - intros Hi Hb m a r.
    assert (Ha : length a = nbS m)
      by (unfold a, forward_step; rewrite length_fmap, length_seq; reflexivity).
    assert (E1 : forward_update_withNewObservation observation (Some out) o = Ok r).
    { unfold forward_update_withNewObservation. rewrite Hi.
      rewrite forward_update_withNewObservation_Ok by assumption.
      cbn [mbind result_bind bind]. fold m. fold a.
      rewrite (forward_scale_scaled m a Ha). destruct o; reflexivity. }
    split; [exact E1|].
    unfold forward_update_withNewObservation. cbn [fst r forwardInitialized_ upd_base].
    rewrite Hi.
    cbn [base upd_base].
    set (m1 := upd_alpha (fun _ => (scaled (nbS m) (nbStates_ m) a).1) (base o)).
    assert (Hwf1 : well_formed m1).
    { apply well_formed_upd_alpha; [exact Hwf|]. apply length_scaled. exact Ha. }
    rewrite (forward_update_withNewObservation_Ok m1) by (try exact Hwf1; exact Hb).
    cbn [mbind result_bind bind].
    change (previousAlpha_ m1) with (previousAlpha_ m).
    change (transition_ m1) with (transition_ m).
    change (nbS m1) with (nbS m).
    change (likelihood m1 observation (Some out))
      with (likelihood m observation (Some out)).
    fold a.
    rewrite (forward_scale_scaled m1 a Ha).
    unfold r. destruct o; reflexivity.
Qed.
End NewObservation.

(** ** The constructor *)

Section Constructed.
Context `{PrivateData} {F : Type} `{Scalar F} `{!EmissionModel F} `{!Host F}
        `{!Companions F}.

(** The model that the constructor hands to [initTraining]. *)
Lemma HMM_new_allocated flags ts nbStates nbMixtureComponents :
  1 <= nbStates < 2 ^ 31 ->
  exists m2,
    HMM_new flags ts nbStates nbMixtureComponents = initTraining m2 /\
    well_formed m2 /\
    nbStates_ m2 = nbStates /\
    nbMixtureComponents_ m2 = nbMixtureComponents /\
    transitionMode_ m2 = LEFT_RIGHT /\
    parent m2 = EMBasedModel_new flags ts.
Proof.
  intros Hn. unfold HMM_new. cbv zeta.
  match goal with |- context [allocate ?x] =>
    destruct (allocate_spec x) as
      (m1 & E & Kp & Kh & Kn & Kc & Ko & Kt & Ke & Kpr & Ktr & Ka & Kb & Ks & Kx);
      [hmm_simpl; lia|]
  end.
  rewrite E. cbn [mbind result_bind bind]. hmm_simpl.
  eexists. split; [reflexivity|].
  assert (Hwf1 : well_formed m1).
  { split; unfold nbS; rewrite ?Kn.
    - lia.
    - rewrite Kpr. apply length_resize.
    - rewrite Ktr. apply length_resize.
    - rewrite Ks. apply length_replicate.
    - rewrite Ka. apply length_resize.
    - rewrite Kb. apply length_resize. }
  match goal with |- well_formed (upd_estimateMeans_ _ (upd_transitionMode_ _ ?l)) /\ _ =>
    assert (K : keeps_prior m1 l /\ parent l = parent m1)
  end.
  { apply (for_loop_pres (fun s => keeps_prior m1 s /\ parent s = parent m1)).
    - split; [apply keeps_prior_refl|reflexivity].
    - intros i s [Ks' Kp']. split; [|hmm_simpl; exact Kp'].
      apply (keeps_prior_trans m1 s); [exact Ks'|]. frame_leaf. }
  destruct K as [[Fr _] Kp'].
  pose proof (frame_well_formed _ _ Hwf1 Fr) as Hwf2.
  destruct Fr as [_ _ Fn Fc _ _ _ _ _ _ _ _ _ _].
  split.
  { destruct Hwf2 as [H1 H2 H3 H4 H5 H6]. split; hmm_simpl; assumption. }
  hmm_simpl. rewrite Fn, Fc, Kn, Kc, Kp', Kp. repeat split; reflexivity.
Qed.

End Constructed.

(** ** The prior estimate of Baum-Welch *)

Section PriorEstimate.
Context `{PrivateData} `{!EmissionModel float} `{!Host float}.
#[local] Open Scope nat_scope.

Lemma alter_replicate_fix (f : float -> float) (x : float) i n :
  f x = x -> alter f i (replicate n x) = replicate n x.
Proof.
  intros Hf. apply list_eq. intros k. destruct (decide (k = i)) as [->|Hne].
  - rewrite list_lookup_alter_eq.
    destruct (replicate n x !! i) as [y|] eqn:E; [|reflexivity].
    apply lookup_replicate in E as [-> _]. simpl. rewrite Hf. reflexivity.
  - rewrite list_lookup_alter_ne by congruence. reflexivity.
Qed.

(** [baumWelch_estimatePrior] divides by the sum of the first-frame
    [gamma] of all phrases without testing it: on doubles, when these
    values are all zero (or there is no phrase) the call returns with
    every entry of the prior not a number. *)
Theorem baumWelch_estimatePrior_zero_sum (m : HMM float) (ts : TrainingSet float) :
  well_formed m ->
  trainingSet (parent m) = Some ts ->
  (forall p i, i < nbS m -> get2 (gammaSequence_ m) p i = 0%float) ->
  exists m', baumWelch_estimatePrior m = Ok m' /\
             prior_ m' = replicate (nbS m) nan.
Proof.
  intros Hwf Hts Hz. unfold baumWelch_estimatePrior. cbv zeta.
  set (n := nbS m) in *.
  rewrite (for_loop_member prior_member n _ (fun i p => <[i := fzero]> p))
    by (intros; reflexivity).
  cbn [get upd prior_member].
  assert (E0 : for_loop n (fun i p => <[i := fzero]> p) (prior_ m)
               = replicate n 0%float).
  { unfold n. rewrite <- (wf_prior _ Hwf), insert_all.
    generalize (length (prior_ m)). intros k. generalize 0.
    induction k as [|k IH]; intros b; [reflexivity|]. simpl. f_equal. apply IH. }
  rewrite E0. hmm_simpl. rewrite Hts.
  set (m0 := upd_prior_ (fun _ => replicate n 0%float) m).
  pose proof (for_each_inv
    (fun s : HMM float * float * nat =>
       s.1.1 = m0 /\ s.1.2 = 0%float)
    (phrases ts)
    (fun it '((m, sumprior, phraseIndex) : HMM float * float * nat) =>
       let '(m, sumprior) :=
         for_loop (nbS m) (fun i '((m, sumprior) : HMM float * float) =>
           (upd_prior_ (alter (fun x =>
              fadd x (get2 (gammaSequence_ m) phraseIndex i)) i) m,
            fadd sumprior (get2 (gammaSequence_ m) phraseIndex i))) (m, sumprior) in
       (m, sumprior, S phraseIndex))
    (m0, 0%float, 0)) as P.
  destruct (for_each _ _ _) as [[m1 sp] k1].
  destruct P as [E1 E2].
  - split; reflexivity.
  - intros it [[s sp'] k'] [Es Esp]. cbn [fst snd] in Es, Esp. subst s sp'.
    change (nbS m0) with n.
    pose proof (for_loop_inv
      (fun (_ : nat) (s : HMM float * float) => s = (m0, 0%float)) n
      (fun i '((m, sumprior) : HMM float * float) =>
         (upd_prior_ (alter (fun x =>
            fadd x (get2 (gammaSequence_ m) k' i)) i) m,
          fadd sumprior (get2 (gammaSequence_ m) k' i)))
      (m0, 0%float)) as Q.
    rewrite Q; [split; reflexivity|reflexivity|].
    intros i s Hi ->.
    change (gammaSequence_ m0) with (gammaSequence_ m).
    rewrite Hz by exact Hi. f_equal.
    unfold m0.
    transitivity (upd_prior_ (fun _ =>
      alter (fun x => fadd x 0%float) i (replicate n 0%float)) m); [reflexivity|].
    rewrite alter_replicate_fix by reflexivity. reflexivity.
  - cbn [fst snd] in E1, E2. subst m1 sp.
    eexists. split; [reflexivity|].
    change (nbS m0) with n.
    rewrite (for_loop_member prior_member n _
               (fun i p => alter (fun x => fdiv x 0%float) i p))
      by (intros; reflexivity).
    cbn [get upd prior_member]. unfold m0.
    change (prior_ (upd_prior_ (fun _ => replicate n 0%float) m))
      with (replicate n 0%float).
    change (prior_ (upd_prior_ ?f ?x)) with (f (prior_ x)).
    cbv beta.
    pose proof (alter_all (fun x : float => fdiv x 0%float) (replicate n 0%float)) as A.
    rewrite length_replicate in A. rewrite A, fmap_replicate. reflexivity.
Qed.
End PriorEstimate.

(** ** The mixture setters, playing and the start of training *)

Section Setters.
Context `{PrivateData} {F : Type} `{Scalar F} `{!EmissionModel F} `{!Host F}
        `{!Companions F}.

(** A loop that calls one method on every state. *)
Lemma for_loop_states (g : GMM F -> GMM F) (m : HMM F) :
  length (states_ m) = nbS m ->
  for_loop (nbS m) (fun i m => upd_states_ (alter g i) m) m
  = upd_states_ (fun _ => g <$> states_ m) m.
Proof.
  intros Hs.
  rewrite (for_loop_inv
    (fun k m' => m' = upd_states_ (fun _ =>
                   for_loop k (fun i st => alter g i st) (states_ m)) m)
    (nbS m) (fun i m => upd_states_ (alter g i) m) m).
  - rewrite <- Hs, alter_all. reflexivity.
  - destruct m; reflexivity.
  - intros i s Hi ->. rewrite for_loop_S. reflexivity.
Qed.

(** The two setters of the mixtures, on a model that satisfies the class
    invariant.  [set_nbMixtureComponents] refuses a count below one and
    does nothing for the current count; otherwise it passes the count to
    every state and marks the model untrained.  [set_covarianceOffset]
    passes the offset to every state unless it equals the current one
    (a NaN never does).  Neither touches the prior, the transition
    matrix or the buffers that [initTraining] sized for the old count,
    and the model still satisfies the invariant. *)
Theorem mixture_setters (m : HMM F) (nbMixtureComponents : Z)
    (covarianceOffset : F) :
  well_formed m ->
  (nbMixtureComponents < 1 ->
     set_nbMixtureComponents nbMixtureComponents m
     = Throw (invalid_argument
                "The number of Gaussian mixture components must be > 0")) /\
  (nbMixtureComponents = nbMixtureComponents_ m -> 1 <= nbMixtureComponents ->
     set_nbMixtureComponents nbMixtureComponents m = Ok m) /\
  (1 <= nbMixtureComponents -> nbMixtureComponents <> nbMixtureComponents_ m ->
     exists m', set_nbMixtureComponents nbMixtureComponents m = Ok m' /\
       well_formed m' /\
       nbMixtureComponents_ m' = nbMixtureComponents /\
       trained (parent m') = false /\
       states_ m' = GMM_set_nbMixtureComponents nbMixtureComponents <$> states_ m /\
       prior_ m' = prior_ m /\ transition_ m' = transition_ m /\
       gammaSequencePerMixture_ m' = gammaSequencePerMixture_ m /\
       gammaSumPerMixture_ m' = gammaSumPerMixture_ m) /\
  (feqb covarianceOffset (covarianceOffset_ m) = true ->
     set_covarianceOffset covarianceOffset m = m) /\
  (feqb covarianceOffset (covarianceOffset_ m) = false ->
     let m' := set_covarianceOffset covarianceOffset m in
     well_formed m' /\
     covarianceOffset_ m' = covarianceOffset /\
     states_ m' = GMM_set_covarianceOffset covarianceOffset <$> states_ m /\
     prior_ m' = prior_ m /\ transition_ m' = transition_ m) /\
  (fisnan covarianceOffset = true ->
     feqb covarianceOffset (covarianceOffset_ m) = false).
Proof.
  intros Hwf. pose proof Hwf as [HS Hp Ht Hs Ha Hb].
  split; [|split; [|split; [|split; [|split]]]].
  - intros Hk. unfold set_nbMixtureComponents.
    destruct (Z.ltb_spec nbMixtureComponents 1); [reflexivity|lia].
  - intros -> Hk. unfold set_nbMixtureComponents.
    destruct (Z.ltb_spec (nbMixtureComponents_ m) 1); [lia|].
    rewrite Z.eqb_refl. reflexivity.
  - intros Hk Hne. unfold set_nbMixtureComponents.
    destruct (Z.ltb_spec nbMixtureComponents 1); [lia|].
    destruct (Z.eqb_spec nbMixtureComponents (nbMixtureComponents_ m));
      [contradiction|].
    cbv zeta. rewrite for_loop_states by exact Hs.
    eexists. split; [reflexivity|]. hmm_simpl.
    split; [|repeat split; reflexivity].
    split; hmm_simpl; try assumption. rewrite length_fmap. exact Hs.
  - intros E. unfold set_covarianceOffset. rewrite E. reflexivity.
  - intros E. unfold set_covarianceOffset. rewrite E. cbv zeta.
    rewrite for_loop_states by exact Hs. hmm_simpl.
    split; [|repeat split; reflexivity].
    split; hmm_simpl; try assumption. rewrite length_fmap. exact Hs.
  - intros E. unfold feqb. rewrite E. reflexivity.
Qed.
End Setters.

Section PlayingFacts.
Context `{PrivateData} {F : Type} `{Scalar F} `{!EmissionModel F} `{!Host F}
        `{!Companions F}.

(** [initPlaying] makes the next step a first step.  On a
    non-hierarchical unimodal model that is all it does besides calling
    the parent class.  On a hierarchical model with at least one state
    it also sizes the three vectors of [alpha_h] and empties [alpha],
    [beta_] and their copies, so that the model no longer satisfies the
    class invariant that the forward and backward functions rely on. *)
Theorem initPlaying_spec (o : Playing F) :
  bimodal_ (EMBasedModel_initPlaying (parent (base o))) = false ->
  (is_hierarchical_ (base o) = false ->
     initPlaying o
     = Ok (upd_forwardInitialized_ (fun _ => false)
             (upd_base (upd_parent EMBasedModel_initPlaying) o))) /\
  (is_hierarchical_ (base o) = true -> 1 <= nbStates_ (base o) ->
     exists o', initPlaying o = Ok o' /\
       forwardInitialized_ o' = false /\
       alpha (base o') = [] /\ beta_ (base o') = [] /\
       (forall i v, (i < 3)%nat -> alpha_h o' !! i = Some v ->
          length v = nbS (base o)) /\
       nbStates_ (base o') = nbStates_ (base o) /\
       ~ well_formed (base o')).
Proof.
  intros Hb. unfold initPlaying. cbv zeta.
  cbn [base upd_base upd_forwardInitialized_]. hmm_simpl.
  split.
  - intros Hh. rewrite Hh. cbn [mbind result_bind bind].
    cbn [base upd_base upd_forwardInitialized_]. hmm_simpl.
    rewrite Hb. reflexivity.
  - intros Hh HS. rewrite Hh.
    destruct (Z.ltb_spec (nbStates_ (base o)) 0); [lia|].
    cbn [mbind result_bind bind].
    rewrite !for_loop_S, for_loop_0.
    cbn [base upd_base upd_forwardInitialized_ upd_alpha_h alpha_h]. hmm_simpl.
    rewrite Hb.
    eexists. split; [reflexivity|].
    cbn [base upd_base upd_forwardInitialized_ upd_alpha_h alpha_h
         forwardInitialized_]. hmm_simpl.
    split; [reflexivity|]. split; [reflexivity|]. split; [reflexivity|].
    split; [|split; [reflexivity|]].
    + intros i v Hi Hv.
      destruct i as [|[|[|i]]]; [| | |lia];
        repeat first [rewrite list_lookup_alter_eq in Hv
                     |rewrite list_lookup_alter_ne in Hv by lia];
        destruct (alpha_h o !! _) as [w|]; try discriminate;
        injection Hv as <-; apply length_resize.
    + intros [_ _ _ _ Ha _]. unfold nbS in Ha. cbn in Ha. lia.
Qed.
End PlayingFacts.

Section InitTrainingFacts.
Context `{PrivateData} {F : Type} `{Scalar F} `{!EmissionModel F} `{!Host F}
        `{!Companions F}.

Lemma initTraining_without_data (m : HMM F) :
  trainingSet (parent m) = None -> is_Ok (initTraining m).
Proof.
  intros Hts. unfold initTraining. cbv zeta.
  set (m1 := if decide (transitionMode_ m = ERGODIC) then setErgodic m
             else setLeftRight m).
  assert (F1 : frame m m1).
  { unfold m1. destruct (decide _); [apply frame_setErgodic|apply frame_setLeftRight]. }
  set (m2 := for_loop (nbS m1) _ m1).
  assert (K2 : keeps_prior m1 m2).
  { unfold m2. pose proof (keeps_prior_refl m1). frame_tac. }
  clearbody m2. clearbody m1.
  destruct K2 as [F2 _].
  rewrite (kept_trainingSet _ _ F2), (kept_trainingSet _ _ F1), Hts. exact I.
Qed.

(** [initTraining] on a model that satisfies the class invariant.
    Without a training set it returns.  Whenever it returns, the model
    satisfies the invariant too, with the same number of states, kind,
    mode and exit probabilities, and its prior is the one of the
    topology: uniform in ergodic mode, on the first state otherwise. *)
Theorem initTraining_keeps_invariant (m : HMM F) :
  well_formed m ->
  (trainingSet (parent m) = None -> is_Ok (initTraining m)) /\
  forall m', initTraining m = Ok m' ->
    well_formed m' /\
    nbStates_ m' = nbStates_ m /\
    is_hierarchical_ m' = is_hierarchical_ m /\
    transitionMode_ m' = transitionMode_ m /\
    exitProbabilities_ m' = exitProbabilities_ m /\
    prior_ m' = match transitionMode_ m with
                | ERGODIC => replicate (nbS m) (ergodic_value m)
                | LEFT_RIGHT => one_hot (nbS m)
                end.
Proof.
  intros Hwf. split; [apply initTraining_without_data|].
  intros m' E. apply initTraining_frame in E. destruct E as [Fr Ep].
  split; [exact (frame_well_formed _ _ Hwf Fr)|].
  destruct Fr as [Kh Ke Kn _ Km _ _ _ _ _ _ _ _ _].
  split; [exact Kn|]. split; [exact Kh|]. split; [exact Km|]. split; [exact Ke|].
  rewrite Ep. destruct (transitionMode_ m).
  - destruct (decide (ERGODIC = ERGODIC)); [|congruence].
    rewrite setErgodic_eq by exact Hwf. reflexivity.
  - destruct (decide (LEFT_RIGHT = ERGODIC)); [discriminate|].
    apply prior_setLeftRight. exact Hwf.
Qed.
End InitTrainingFacts.

(** ** The backward recursion *)

Section BackwardRecursion.
Context `{PrivateData} {F : Type} `{Scalar F} `{!EmissionModel F} `{!Host F}.
#[local] Open Scope nat_scope.

Lemma upd_beta_const (m : HMM F) (x y : list F) :
  x = y -> upd_beta_ (fun _ => x) m = upd_beta_ (fun _ => y) m.
Proof. intros ->. reflexivity. Qed.

Lemma backward_inner (m : HMM F) observation observation_output i (b : list F) :
  well_formed m ->
  for_loopM (nbS m) (fun j m' =>
    o ← emission m' observation observation_output j;
    Ok (upd_beta_ (alter (fun x =>
          fadd x (fmul (fmul (transition_ m' !!! (i * nbS m' + j)%nat)
                          (previousBeta_ m' !!! j)) o)) i) m'))
    (upd_beta_ (fun _ => b) m)
  = Ok (upd_beta_ (fun _ =>
          alter (fun x =>
            for_loop (nbS m) (fun j acc =>
              fadd acc (fmul (fmul (transition_ m !!! (i * nbS m + j)%nat)
                                (previousBeta_ m !!! j))
                          (likelihood m observation observation_output j))) x)
            i b) m).
Proof.
  intros Hwf. set (n := nbS m).
  destruct (for_loopM_inv
    (fun k s => k <= n ->
       s = upd_beta_ (fun _ =>
             alter (fun x =>
               for_loop k (fun j acc =>
                 fadd acc (fmul (fmul (transition_ m !!! (i * n + j)%nat)
                                   (previousBeta_ m !!! j))
                             (likelihood m observation observation_output j))) x)
               i b) m)
    n
    (fun j m' =>
       o ← emission m' observation observation_output j;
       Ok (upd_beta_ (alter (fun x =>
             fadd x (fmul (fmul (transition_ m' !!! (i * nbS m' + j)%nat)
                             (previousBeta_ m' !!! j)) o)) i) m'))
    (upd_beta_ (fun _ => b) m)) as (s & E & P).
  - intros _. apply upd_beta_const. symmetry. apply list_alter_id. reflexivity.
  - intros j s Hj P. rewrite P by lia.
    match goal with |- context [emission ?x _ _ _] =>
      change (emission x observation observation_output j)
        with (emission m observation observation_output j)
    end.
    rewrite emission_likelihood by assumption. cbn [mbind result_bind bind].
    eexists. split; [reflexivity|]. intros _.
    match goal with |- upd_beta_ ?f (upd_beta_ (fun _ => ?B) m) = _ =>
      transitivity (upd_beta_ (fun _ => f B) m); [reflexivity|]
    end.
    cbn [nbS nbStates_ upd_beta_ transition_ previousBeta_]. fold (nbS m). fold n.
    apply upd_beta_const. rewrite list_alter_alter_eq.
    apply list_alter_ext; [|reflexivity]. intros x _. unfold compose. rewrite for_loop_S.
    reflexivity.
  - rewrite E, P by lia. reflexivity.
Qed.

Lemma well_formed_upd_previousBeta (m : HMM F) (b : list F) :
  well_formed m -> well_formed (upd_previousBeta_ (fun _ => b) m).
Proof. intros [HS Hp Ht Hs Ha Hb]. split; hmm_simpl; assumption. Qed.

Lemma guarded_insert (x : F) i (b : list F) (m : HMM F) :
  i < length b ->
  (let m' := upd_beta_ (fun _ => <[i := x]> b) m in
   if fisnan (beta_ m' !!! i) || fisinf (fabs (beta_ m' !!! i))
   then upd_beta_ <[i := fhuge]> m' else m')
  = upd_beta_ (fun _ => <[i := guarded x]> b) m.
Proof.
  intros Hi. cbv zeta.
  change (beta_ (upd_beta_ (fun _ => <[i := x]> b) m)) with (<[i := x]> b).
  rewrite list_lookup_total_insert_eq by exact Hi. unfold guarded.
  destruct (fisnan x || fisinf (fabs x)); [|reflexivity].
  transitivity (upd_beta_ (fun _ => <[i := fhuge]> (<[i := x]> b)) m);
    [reflexivity|].
  apply upd_beta_const. apply list_insert_insert_eq.
Qed.

(** The backward recursion.  On a well-formed model
    [backward_update] returns; it saves [beta_] in [previousBeta_] and
    replaces entry [i] of [beta_] by
    [ct * sum_j transition[i][j] * previous[j] * likelihood(j)], or by
    the sentinel [1e100] when that value is not a number or infinite.
    Nothing else changes. *)
Theorem backward_recursion (m : HMM F) ct observation observation_output :
  well_formed m ->
  backward_update ct observation observation_output m
  = Ok (upd_beta_ (fun _ =>
          backward_step (beta_ m) (transition_ m)
            (likelihood m observation observation_output) ct (nbS m))
        (upd_previousBeta_ (fun _ => beta_ m) m)).
Proof.
  intros Hwf. unfold backward_update. cbv zeta.
  set (m1 := upd_previousBeta_ (fun _ => beta_ m) m).
  assert (Hwf1 : well_formed m1) by (apply well_formed_upd_previousBeta, Hwf).
  change (nbS m1) with (nbS m).
  set (n := nbS m).
  set (A := backward_step (beta_ m) (transition_ m)
              (likelihood m observation observation_output) ct n).
  assert (HA : length A = n)
    by (unfold A, backward_step; rewrite length_fmap, length_seq; reflexivity).
  assert (Hb : length (beta_ m) = n) by apply Hwf.
  match goal with |- for_loopM n ?body m1 = _ =>
    destruct (for_loopM_inv
      (fun k s => k <= n ->
         s = upd_beta_ (fun _ => take k A ++ drop k (beta_ m)) m1)
      n body m1) as (s & E & P)
  end.
  - intros _. rewrite drop_0. reflexivity.
  - intros i s Hi P. rewrite P by lia. clear P.
    set (B := take i A ++ drop i (beta_ m)).
    assert (HB : length B = n)
      by (unfold B; rewrite length_app, length_take, length_drop; lia).
    change (upd_beta_ <[i := fzero]> (upd_beta_ (fun _ => B) m1))
      with (upd_beta_ (fun _ => <[i := fzero]> B) m1).
    change (nbS (upd_beta_ (fun _ => <[i := fzero]> B) m1)) with (nbS m1).
    pose proof (backward_inner m1 observation observation_output i
                  (<[i := fzero]> B) Hwf1) as L.
    unfold emission in L.
    rewrite L. clear L. cbn [mbind result_bind bind].
    rewrite alter_insert_eq.
    match goal with |- context [upd_beta_ (alter ?f i) (upd_beta_ (fun _ => ?X) m1)] =>
      change (upd_beta_ (alter f i) (upd_beta_ (fun _ => X) m1))
        with (upd_beta_ (fun _ => alter f i X) m1)
    end.
    rewrite alter_insert_eq.
    eexists. split; [reflexivity|]. intros _.
    rewrite (guarded_insert _ i B m1) by lia.
    apply upd_beta_const.
    assert (Ai : A !! i = Some (guarded (fmul (backward_sum (beta_ m)
                 (transition_ m) (likelihood m observation observation_output)
                 n i) ct))).
    { unfold A, backward_step. rewrite list_lookup_fmap, lookup_seq_lt by lia.
      reflexivity. }
    unfold B. rewrite insert_app_r_alt; rewrite length_take; [|lia].
    replace (i - i `min` length A) with 0 by lia.
    destruct (lookup_lt_is_Some_2 (beta_ m) i) as [y Hy]; [lia|].
    rewrite (drop_S _ _ _ Hy), (take_S_r _ _ _ Ai), <- app_assoc.
    reflexivity.
  - rewrite E, P by lia. rewrite drop_ge by lia. rewrite app_nil_r.
    replace (take n A) with A by (rewrite <- HA; symmetry; apply firstn_all).
    reflexivity.
Qed.
End BackwardRecursion.

(** ** The initial means *)

Section InitialMeans.
Context `{PrivateData} {F : Type} `{Scalar F}.
#[local] Open Scope nat_scope.
Implicit Types (st : list (GMM F)) (h : F -> F).

Lemma has_means_upd_mean_at st N D n c d h :
  has_means st N D -> has_means (upd_mean_at n c d h st) N D.
Proof.
  intros Hs n' Hn'. destruct (Hs n' Hn') as (g & k & Hg & Hk & Hl).
  unfold upd_mean_at. destruct (decide (n = n')) as [->|Hne].
  - rewrite list_lookup_alter_eq, Hg. simpl.
    destruct (decide (c = 0)) as [->|Hc].
    + eexists _, _. split; [reflexivity|]. split.
      * cbn. rewrite list_lookup_alter_eq, Hk. reflexivity.
      * cbn. rewrite length_alter. exact Hl.
    + eexists _, _. split; [reflexivity|]. split; [|exact Hl].
      cbn. rewrite list_lookup_alter_ne by exact Hc. exact Hk.
  - rewrite list_lookup_alter_ne by exact Hne. eauto.
Qed.

Lemma get_mean_upd_mean_at st N D n d h n' d' :
  has_means st N D -> n < N -> d < D ->
  get_mean (upd_mean_at n 0 d h st) n' 0 d'
  = if decide (n' = n /\ d' = d) then h (get_mean st n 0 d)
    else get_mean st n' 0 d'.
Proof.
  intros Hs Hn Hd. destruct (Hs n Hn) as (g & k & Hg & Hk & Hl).
  destruct (lookup_lt_is_Some_2 (mean k) d) as [x Hx]; [lia|].
  unfold get_mean, upd_mean_at.
  destruct (decide (n' = n)) as [->|Hne].
  - rewrite list_lookup_alter_eq, Hg. cbn.
    rewrite list_lookup_alter_eq, Hk. cbn.
    destruct (decide (d' = d)) as [->|Hde].
    + rewrite list_lookup_alter_eq, Hx. cbn.
      rewrite decide_True by (split; reflexivity). reflexivity.
    + rewrite list_lookup_alter_ne by (intros E; apply Hde; symmetry; exact E).
      rewrite decide_False by (intros [_ E]; exact (Hde E)). reflexivity.
  - rewrite list_lookup_alter_ne by (intros E; apply Hne; symmetry; exact E).
    rewrite decide_False by (intros [E _]; exact (Hne E)). reflexivity.
Qed.

(** One pass over the entries of the mean of state [n]. *)
Lemma mean_row st N D n (hs : nat -> F -> F) :
  has_means st N D -> n < N ->
  let st' := for_loop D (fun d st => upd_mean_at n 0 d (hs d) st) st in
  has_means st' N D /\
  forall n' d', d' < D ->
    get_mean st' n' 0 d'
    = if decide (n' = n) then hs d' (get_mean st n' 0 d')
      else get_mean st n' 0 d'.
Proof.
  intros Hs Hn.
  assert (G : forall k, k <= D ->
    let st' := for_loop k (fun d st => upd_mean_at n 0 d (hs d) st) st in
    has_means st' N D /\
    forall n' d',
      get_mean st' n' 0 d'
      = if decide (n' = n /\ d' < k) then hs d' (get_mean st n' 0 d')
        else get_mean st n' 0 d').
  { intros k. induction k as [|k IH]; intros Hk; cbv zeta.
    - split; [exact Hs|]. intros n' d'.
      rewrite decide_False by lia. reflexivity.
    - destruct (IH ltac:(lia)) as [S1 G1]. cbv zeta in S1, G1.
      rewrite for_loop_S. split; [apply has_means_upd_mean_at, S1|].
      intros n' d'.
      rewrite (get_mean_upd_mean_at _ N D) by (try exact S1; lia).
      rewrite !G1.
      destruct (decide (n' = n /\ d' = k)) as [[-> ->]|Hne].
      + rewrite decide_False by lia. rewrite decide_True by lia. reflexivity.
      + destruct (decide (n' = n /\ d' < k)) as [[-> Hlt]|Hge].
        * rewrite decide_True by lia. reflexivity.
        * rewrite decide_False by lia. reflexivity. }
  destruct (G D (le_n D)) as [S1 G1]. cbv zeta in *. split; [exact S1|].
  intros n' d' Hd'. rewrite G1.
  destruct (decide (n' = n)) as [->|Hne].
  - rewrite decide_True by lia. reflexivity.
  - rewrite decide_False by lia. reflexivity.
Qed.

(** Repeated passes over the mean of state [n]. *)
Lemma mean_rows st N D T n (hs : nat -> nat -> F -> F) :
  has_means st N D -> n < N ->
  let st' := for_loop T (fun t st =>
               for_loop D (fun d st => upd_mean_at n 0 d (hs t d) st) st) st in
  has_means st' N D /\
  forall n' d', d' < D ->
    get_mean st' n' 0 d'
    = if decide (n' = n)
      then for_loop T (fun t acc => hs t d' acc) (get_mean st n' 0 d')
      else get_mean st n' 0 d'.
Proof.
  intros Hs Hn. induction T as [|T IH]; cbv zeta.
  - split; [exact Hs|]. intros n' d' _. destruct (decide (n' = n)); reflexivity.
  - destruct IH as [S1 G1]. rewrite for_loop_S.
    destruct (mean_row _ N D n (hs T) S1 Hn) as [S2 G2]. cbv zeta in S2, G2.
    split; [exact S2|]. intros n' d' Hd'. rewrite G2, G1 by exact Hd'.
    destruct (decide (n' = n)); [|reflexivity].
    rewrite for_loop_S. reflexivity.
Qed.

(** A pass over the means of all the states. *)
Lemma mean_table st N D (hs : nat -> nat -> F -> F) :
  has_means st N D ->
  let st' := for_loop N (fun n st =>
               for_loop D (fun d st => upd_mean_at n 0 d (hs n d) st) st) st in
  has_means st' N D /\
  forall n d, n < N -> d < D ->
    get_mean st' n 0 d = hs n d (get_mean st n 0 d).
Proof.
  intros Hs.
  assert (G : forall k, k <= N ->
    let st' := for_loop k (fun n st =>
                 for_loop D (fun d st => upd_mean_at n 0 d (hs n d) st) st) st in
    has_means st' N D /\
    forall n d, d < D ->
      get_mean st' n 0 d
      = if decide (n < k) then hs n d (get_mean st n 0 d)
        else get_mean st n 0 d).
  { intros k. induction k as [|k IH]; intros Hk; cbv zeta.
    - split; [exact Hs|]. intros n d _. rewrite decide_False by lia. reflexivity.
    - destruct (IH ltac:(lia)) as [S1 G1]. cbv zeta in S1, G1.
      rewrite for_loop_S.
      destruct (mean_row _ N D k (hs k) S1 ltac:(lia)) as [S2 G2].
      cbv zeta in S2, G2. split; [exact S2|]. intros n d Hd.
      rewrite G2, G1 by exact Hd.
      destruct (decide (n = k)) as [->|Hne].
      + rewrite decide_False by lia. rewrite decide_True by lia. reflexivity.
      + destruct (decide (n < k)).
        * rewrite decide_True by lia. reflexivity.
        * rewrite decide_False by lia. reflexivity. }
  destruct (G N (le_n N)) as [S1 G1]. cbv zeta in *. split; [exact S1|].
  intros n d Hn Hd. rewrite G1 by exact Hd. rewrite decide_True by lia.
  reflexivity.
Qed.

(** Repeated passes over the mean of each state in turn. *)
Lemma mean_table_rows st N D T (hs : nat -> nat -> nat -> F -> F) :
  has_means st N D ->
  let st' := for_loop N (fun n st =>
               for_loop T (fun t st =>
                 for_loop D (fun d st => upd_mean_at n 0 d (hs n t d) st) st) st)
               st in
  has_means st' N D /\
  forall n d, n < N -> d < D ->
    get_mean st' n 0 d
    = for_loop T (fun t acc => hs n t d acc) (get_mean st n 0 d).
Proof.
  intros Hs.
  assert (G : forall k, k <= N ->
    let st' := for_loop k (fun n st =>
                 for_loop T (fun t st =>
                   for_loop D (fun d st => upd_mean_at n 0 d (hs n t d) st) st) st)
                 st in
    has_means st' N D /\
    forall n d, d < D ->
      get_mean st' n 0 d
      = if decide (n < k)
        then for_loop T (fun t acc => hs n t d acc) (get_mean st n 0 d)
        else get_mean st n 0 d).
  { intros k. induction k as [|k IH]; intros Hk; cbv zeta.
    - split; [exact Hs|]. intros n d _. rewrite decide_False by lia. reflexivity.
    - destruct (IH ltac:(lia)) as [S1 G1]. cbv zeta in S1, G1.
      rewrite for_loop_S.
      destruct (mean_rows _ N D T k (hs k) S1 ltac:(lia)) as [S2 G2].
      cbv zeta in S2, G2. split; [exact S2|]. intros n d Hd.
      rewrite G2, G1 by exact Hd.
      destruct (decide (n = k)) as [->|Hne].
      + rewrite decide_False by lia. rewrite decide_True by lia. reflexivity.
      + destruct (decide (n < k)).
        * rewrite decide_True by lia. reflexivity.
        * rewrite decide_False by lia. reflexivity. }
  destruct (G N (le_n N)) as [S1 G1]. cbv zeta in *. split; [exact S1|].
  intros n d Hn Hd. rewrite G1 by exact Hd. rewrite decide_True by lia.
  reflexivity.
Qed.

(** A loop that only assigns to [states_]. *)
Lemma for_loop_states_member n (body : nat -> HMM F -> HMM F)
    (h : nat -> list (GMM F) -> list (GMM F)) (m : HMM F) :
  (forall j st, j < n ->
     body j (upd_states_ (fun _ => st) m) = upd_states_ (fun _ => h j st) m) ->
  for_loop n body m = upd_states_ (fun _ => for_loop n h (states_ m)) m.
Proof.
  intros Hb.
  apply (for_loop_inv
           (fun k m' => m' = upd_states_ (fun _ => for_loop k h (states_ m)) m)).
  - destruct m; reflexivity.
  - intros i m' Hi ->. rewrite Hb by exact Hi. rewrite for_loop_S. reflexivity.
Qed.

Lemma phrase_at_not_empty (ts : TrainingSet F) n p :
  phrase_at ts n = Ok p -> is_empty ts = false.
Proof.
  unfold phrase_at, is_empty. destruct (phrases ts); [discriminate|reflexivity].
Qed.

Lemma initMeansWithFirstPhrase_means (m : HMM F) ts p :
  well_formed m -> has_means (states_ m) (nbS m) (dim m) ->
  trainingSet (parent m) = Some ts -> phrase_at ts 0 = Ok p ->
  exists st,
    initMeansWithFirstPhrase m = Ok (upd_states_ (fun _ => st) m) /\
    has_means st (nbS m) (dim m) /\
    forall n d, n < nbS m -> d < dim m ->
      get_mean st n 0 d = segment_mean p (nbStates_ m) n d.
Proof.
  intros Hwf Hs Hts Hp. unfold initMeansWithFirstPhrase.
  rewrite Hts, (phrase_at_not_empty _ _ _ Hp). cbv zeta.
  set (N := nbS m). set (D := dim m).
  rewrite (for_loop_states_member N _
             (fun n st => for_loop D (fun d st =>
                upd_mean_at n 0 d (fun _ => fzero) st) st)).
  2:{ intros j st Hj.
      rewrite (for_loop_states_member _ _
                 (fun d st => upd_mean_at j 0 d (fun _ => fzero) st))
        by (intros; reflexivity).
      reflexivity. }
  destruct (mean_table (states_ m) N D (fun _ _ _ => fzero) Hs) as [S1 G1].
  cbv zeta in S1, G1.
  set (Z0 := for_loop N _ (states_ m)) in *.
  rewrite Hp. cbn [mbind result_bind bind].
  change (nbStates_ (upd_states_ (fun _ => Z0) m)) with (nbStates_ m).
  change (nbS (upd_states_ (fun _ => Z0) m)) with N.
  destruct (Z.eqb_spec (nbStates_ m) 0) as [E0|_];
    [destruct Hwf as [[] _]; lia|].
  set (step := Z.quot (length_ p) (nbStates_ m)).
  set (hs := fun n t d x =>
               fadd x (at_ p (Z.to_nat (Z.of_nat n * step) + t) d)).
  pose (H2 := fun n st =>
                for_loop (Z.to_nat step) (fun t st =>
                  for_loop D (fun d st => upd_mean_at n 0 d (hs n t d) st) st) st).
  match goal with |- context [for_loop N ?body (?m0, 0%Z, ?f0)] =>
    pose proof (for_loop_inv
      (fun k (s : HMM F * Z * list Z) =>
         s = (upd_states_ (fun _ => for_loop k H2 Z0) m,
              (Z.of_nat k * step)%Z,
              for_loop k (fun n f => alter (Z.add step) n f) f0))
      N body (m0, 0%Z, f0)) as L
  end.
  rewrite L; clear L.
  - destruct (mean_table_rows Z0 N D (Z.to_nat step) hs S1) as [S2 G2].
    cbv zeta in S2, G2. fold H2 in S2, G2.
    set (Z1 := for_loop N H2 Z0) in *.
    change (nbS (upd_states_ (fun _ => Z1) m)) with N.
    pose proof (alter_all (Z.add step) (replicate N 0%Z)) as A.
    rewrite length_replicate in A. rewrite A. clear A.
    set (factor := Z.add step <$> replicate N 0%Z).
    rewrite (for_loop_states_member N _
               (fun n st => for_loop D (fun d st =>
                  upd_mean_at n 0 d (fun x => fdiv x (of_int (factor !!! n))) st)
                  st)).
    2:{ intros j st Hj.
        rewrite (for_loop_states_member _ _
                   (fun d st => upd_mean_at j 0 d
                                  (fun x => fdiv x (of_int (factor !!! j))) st))
          by (intros; reflexivity).
        reflexivity. }
    destruct (mean_table Z1 N D
                (fun n _ x => fdiv x (of_int (factor !!! n))) S2) as [S3 G3].
    cbv zeta in S3, G3.
    eexists. split; [reflexivity|]. split; [exact S3|].
    intros n d Hn Hd. cbn [states_ upd_states_].
    rewrite G3, G2, G1 by assumption.
    unfold factor.
    rewrite (list_lookup_total_fmap (Z.add step) (Inhabited0 := Z.inhabited))
      by (rewrite length_replicate; exact Hn).
    rewrite lookup_total_replicate_2 by exact Hn. rewrite Z.add_0_r.
    reflexivity.
  - rewrite Z.mul_0_l. reflexivity.
  - intros i s Hi ->.
    change (dim (upd_states_ (fun _ => for_loop i H2 Z0) m)) with D.
    rewrite (for_loop_states_member (Z.to_nat step) _
               (fun t st => for_loop D (fun d st =>
                  upd_mean_at i 0 d (hs i t d) st) st)).
    2:{ intros t st Ht.
        rewrite (for_loop_states_member _ _
                   (fun d st => upd_mean_at i 0 d (hs i t d) st))
          by (intros; reflexivity).
        reflexivity. }
    rewrite !for_loop_S.
    replace (Z.of_nat (S i) * step)%Z with (Z.of_nat i * step + step)%Z by lia.
    reflexivity.
Qed.

(** Initial means.  With a training set whose phrase 0 exists, on
    a well-formed model whose states hold a mean of [dimension_] entries,
    [initMeansWithFirstPhrase] returns and only changes [states_]: the
    phrase is cut into [nbStates_] segments of [length / nbStates_]
    frames (integer division; the frames that remain are not read) and
    entry [d] of the mean of state [n] becomes the sum of entry [d] over
    the frames of segment [n], divided by the number of frames of a
    segment.  Without a training set, or with an empty one, nothing
    changes. *)
Theorem initMeansWithFirstPhrase_segments (m : HMM F) ts :
  well_formed m -> has_means (states_ m) (nbS m) (dim m) ->
  trainingSet (parent m) = Some ts ->
  (is_empty ts = true -> initMeansWithFirstPhrase m = Ok m) /\
  (forall p, phrase_at ts 0 = Ok p ->
     exists st,
       initMeansWithFirstPhrase m = Ok (upd_states_ (fun _ => st) m) /\
       forall n d, n < nbS m -> d < dim m ->
         get_mean st n 0 d = segment_mean p (nbStates_ m) n d).
Proof.
  intros Hwf Hs Hts. split.
  - intros He. unfold initMeansWithFirstPhrase. rewrite Hts, He. reflexivity.
  - intros p Hp.
    destruct (initMeansWithFirstPhrase_means m ts p Hwf Hs Hts Hp)
      as (st & E & _ & G).
    exists st. split; [exact E|exact G].
Qed.
End InitialMeans.

(** On doubles: when phrase 0 has fewer frames than the model has
    states, the segments are empty, each sum is [0.0] and is divided by
    [0]: [initMeansWithFirstPhrase] returns with every entry of every
    mean not a number. *)
Theorem initMeansWithFirstPhrase_short_phrase `{PrivateData} (m : HMM float) ts p :
  well_formed m -> has_means (states_ m) (nbS m) (dim m) ->
  trainingSet (parent m) = Some ts -> phrase_at ts 0 = Ok p ->
  0 <= length_ p < nbStates_ m ->
  exists st,
    initMeansWithFirstPhrase m = Ok (upd_states_ (fun _ => st) m) /\
    forall n d, (n < nbS m)%nat -> (d < dim m)%nat ->
      fisnan (get_mean st n 0 d) = true.
Proof.
  intros Hwf Hs Hts Hp Hl.
  destruct (initMeansWithFirstPhrase_means m ts p Hwf Hs Hts Hp)
    as (st & E & _ & G).
  exists st. split; [exact E|]. intros n d Hn Hd. rewrite G by assumption.
  unfold segment_mean. rewrite Z.quot_small by exact Hl. reflexivity.
Qed.

(** ** Instances on sample models *)

Lemma sample_well_formed {F : Type} `{Scalar F} h n (p t : list F) :
  (1 <= n)%nat -> Z.of_nat n < 2 ^ 31 ->
  length p = n -> length t = (n * n)%nat ->
  well_formed (Sample.model h n p t).
Proof.
  intros Hn Hb Hp Ht. split; unfold nbS; cbn [Sample.model nbStates_ prior_
    transition_ states_ alpha beta_]; rewrite ?Nat2Z.id, ?length_replicate;
    try assumption; try reflexivity. lia.
Qed.


Lemma obsProb_bounds_witness :
  let m : HMM float := Sample.model false 2 [1; 0]%float [0.5; 0.5; 0; 1]%float in
  obsProb (EmissionModel0 := Sample.gmm 0.5%float) m [] 2 (-1)
  = Throw (out_of_range "State index is out of bounds") /\
  obsProb_input (EmissionModel0 := Sample.gmm 0.5%float) m [] 0 (-1)
  = Throw (runtime_error "Model is not bimodal. Use the function 'obsProb'").
Proof.
  intros m.
  assert (Hwf : well_formed m) by (apply sample_well_formed; [lia|lia|reflexivity..]).
  destruct (obsProb_bounds (EmissionModel0 := Sample.gmm 0.5%float) m [] [] 2 (-1)
              Hwf ltac:(vm_compute; reflexivity)) as (_ & W2 & _).
  destruct (obsProb_bounds (EmissionModel0 := Sample.gmm 0.5%float) m [] [] 0 (-1)
              Hwf ltac:(vm_compute; reflexivity)) as (_ & _ & W3).
  split; [apply W2; vm_compute; lia|apply W3; reflexivity].
Defined.

Lemma updateExitProbabilities_array_spec_witness :
  let m : HMM float := Sample.model true 2 [1; 0]%float [0.5; 0.5; 0; 1]%float in
  updateExitProbabilities (Host0 := Sample.host) (Some [0.25; 0.5; 1]%float) m
  = Ok (upd_exitProbabilities_ (fun _ => [0.25; 0.5]%float) m) /\
  updateExitProbabilities (Host0 := Sample.host) (Some [0.25%float]) m = Undefined.
Proof.
  intros m.
  destruct (updateExitProbabilities_array_spec (Host0 := Sample.host)
              [0.25; 0.5; 1]%float m eq_refl ltac:(vm_compute; discriminate))
    as [W1 _].
  destruct (updateExitProbabilities_array_spec (Host0 := Sample.host)
              [0.25%float] m eq_refl ltac:(vm_compute; discriminate))
    as [_ W2].
  split; [apply W1; vm_compute; lia|apply W2; vm_compute; lia].
Defined.

Lemma from_json_kind_mismatch_witness :
  let m : HMM float := Sample.model true 2 [1; 0]%float [0.5; 0.5; 0; 1]%float in
  let target : HMM float := Sample.model false 1 [1%float] [1%float] in
  from_json (EmissionModel0 := Sample.gmm fzero) (Host0 := Sample.host)
    (to_json (EmissionModel0 := Sample.gmm fzero) (Host0 := Sample.host) m) target
  = Throw (JSONException
             "Trying to read a hierarchical model in a non-hierarchical model.").
Proof.
  intros m target.
  exact (from_json_kind_mismatch (EmissionModel0 := Sample.gmm fzero)
           (Host0 := Sample.host) m target (parent target) eq_refl eq_refl
           ltac:(discriminate)).
Defined.

Lemma copy_keeps_kind_witness :
  let src : Playing float :=
    SamplePlay.object false
      (Sample.model true 2 [1; 0]%float [0.5; 0.5; 0; 1]%float) in
  let dst : Playing float :=
    SamplePlay.object false (Sample.model false 1 [1%float] [1%float]) in
  exists r, _copy (Companions0 := SamplePlay.companions) dst src = Ok r /\
    nbStates_ (base r) = 2 /\ is_hierarchical_ (base r) = false /\
    base r <> base src.
Proof.
  intros src dst.
  assert (Hwf : well_formed (base src))
    by (apply sample_well_formed; [lia|lia|reflexivity..]).
  destruct (copy_keeps_kind (Companions0 := SamplePlay.companions) dst src Hwf)
    as (r & E & _ & Kn & _ & _ & _ & _ & Kh & _ & _ & Kne).
  exists r. split; [exact E|]. split; [exact Kn|]. split; [exact Kh|].
  apply Kne. discriminate.
Defined.

Lemma updateTimeProgression_single_state_witness :
  let o : Playing float :=
    SamplePlay.object true (Sample.model false 1 [1%float] [1%float]) in
  fisnan (progress (updateTimeProgression o)) = true.
Proof.
  intros o. exact (updateTimeProgression_single_state o eq_refl).
Defined.


Lemma setErgodic_uniform_witness :
  let m : HMM float := Sample.model false 3 (replicate 3 0%float) (replicate 9 0%float) in
  prior_ (setErgodic m) = replicate 3 0x1.555556p-2%float /\
  row (setErgodic m) 2 = replicate 3 0x1.555556p-2%float.
Proof.
  intros m.
  assert (Hwf : well_formed m) by (apply sample_well_formed; [lia|lia|reflexivity..]).
  destruct (setErgodic_uniform m Hwf) as (Wp & Wr & _).
  split; [exact Wp|]. apply Wr. vm_compute. lia.
Defined.


Lemma addCyclicTransition_spec_witness :
  let m : HMM float := Sample.model false 2 [1; 0]%float [0.5; 0.5; 0; 1]%float in
  row (addCyclicTransition 0.25%float m) 0 = [0.5; 0.5]%float /\
  row (addCyclicTransition 0.25%float m) 1 = [0.25; 1]%float.
Proof.
  intros m.
  assert (Hwf : well_formed m) by (apply sample_well_formed; [lia|lia|reflexivity..]).
  destruct (addCyclicTransition_spec 0.25%float m Hwf) as [_ W].
  destruct (W eq_refl) as (_ & Wo & Wl & _).
  split; [rewrite Wo by (vm_compute; lia); reflexivity|exact Wl].
Defined.


Lemma forward_recursion_witness :
  let m : HMM float :=
    upd_alpha (fun _ => [1; 0]%float)
      (Sample.model false 2 [1; 0]%float [0.5; 0.5; 0; 1]%float) in
  forward_update (EmissionModel0 := Sample.gmm 0.5%float) [] None m
  = Ok (upd_alpha (fun _ => [0.5; 0.5]%float)
          (upd_previousAlpha_ (fun _ => [1; 0]%float) m), 2%float).
Proof.
  intros m.
  assert (Hwf : well_formed m) by (split; try reflexivity; vm_compute;
                                    split; [discriminate|reflexivity]).
  destruct (forward_recursion (EmissionModel0 := Sample.gmm 0.5%float) m [] None Hwf)
    as [_ W].
  rewrite W. vm_compute. reflexivity.
Defined.

Lemma forward_update_withNewObservation_spec_witness :
  let m : HMM float :=
    upd_previousAlpha_ (fun _ => [1; 0]%float)
      (SamplePlay.bimodal
         (Sample.model false 2 [1; 0]%float [0.5; 0.5; 0; 1]%float)) in
  let o := SamplePlay.object true m in
  let r := (SamplePlay.object true (upd_alpha (fun _ => [0.5; 0.5]%float) m),
            2%float) in
  forward_update_withNewObservation (EmissionModel0 := Sample.gmm 0.5%float)
    [] (Some []) o = Ok r /\
  forward_update_withNewObservation (EmissionModel0 := Sample.gmm 0.5%float)
    [] (Some []) r.1 = Ok r.
Proof.
  intros m o r.
  assert (Hwf : well_formed (base o)) by (split; try reflexivity; vm_compute;
                                           split; [discriminate|reflexivity]).
  destruct (forward_update_withNewObservation_spec
              (EmissionModel0 := Sample.gmm 0.5%float) o [] [] (Some []) Hwf)
    as (_ & _ & W).
  destruct (W eq_refl eq_refl) as [W1 W2].
  split; [exact W1|exact W2].
Defined.

Lemma baumWelch_estimatePrior_zero_sum_witness :
  let m : HMM float :=
    upd_gammaSequence_ (fun _ => [[0; 0; 0; 0]%float])
      (Sample.with_training [Sample.constant_phrase 2 0.5%float]
         (Sample.model false 2 [0.5; 0.5]%float [0.5; 0.5; 0.5; 0.5]%float)) in
  exists m', baumWelch_estimatePrior m = Ok m' /\ prior_ m' = [nan; nan].
Proof.
  intros m.
  assert (Hwf : well_formed m) by (split; try reflexivity; vm_compute;
                                    split; [discriminate|reflexivity]).
  destruct (baumWelch_estimatePrior_zero_sum m
              {| phrases := [(0, Sample.constant_phrase 2 0.5%float)] |}
              Hwf eq_refl) as (m' & E & W).
  - intros p i Hi. destruct p as [|p]; destruct i as [|[|i]];
      try reflexivity; vm_compute in Hi; lia.
  - exists m'. split; [exact E|exact W].
Defined.

Lemma mixture_setters_witness :
  let m : HMM float := Sample.model false 2 [1; 0]%float [0.5; 0.5; 0; 1]%float in
  set_nbMixtureComponents (Companions0 := SamplePlay.companions) 0 m
  = Throw (invalid_argument "The number of Gaussian mixture components must be > 0") /\
  (exists m', set_nbMixtureComponents (Companions0 := SamplePlay.companions) 3 m
              = Ok m' /\ nbMixtureComponents_ m' = 3 /\ well_formed m') /\
  covarianceOffset_ (set_covarianceOffset (Companions0 := SamplePlay.companions)
                       nan m) = nan.
Proof.
  intros m.
  assert (Hwf : well_formed m) by (apply sample_well_formed; [lia|lia|reflexivity..]).
  destruct (mixture_setters (Companions0 := SamplePlay.companions) m 0 nan Hwf)
    as (W1 & _ & _ & _ & W5 & W6).
  destruct (mixture_setters (Companions0 := SamplePlay.companions) m 3 nan Hwf)
    as (_ & _ & W3 & _).
  split; [apply W1; lia|]. split.
  - destruct (W3 ltac:(lia) ltac:(vm_compute; discriminate))
      as (m' & E & Hwf' & Kn & _).
    exists m'. split; [exact E|]. split; [exact Kn|exact Hwf'].
  - apply W5. apply W6. reflexivity.
Defined.

Lemma initPlaying_spec_witness :
  let o : Playing float :=
    SamplePlay.object true
      (Sample.model true 2 [1; 0]%float [0.5; 0.5; 0; 1]%float) in
  exists o', initPlaying (Companions0 := SamplePlay.companions) o = Ok o' /\
    forwardInitialized_ o' = false /\ alpha (base o') = [] /\
    alpha_h o' = [[0; 0]; [0; 0]; [0; 0]]%float /\
    ~ well_formed (base o').
Proof.
  intros o.
  destruct (initPlaying_spec (Companions0 := SamplePlay.companions) o eq_refl)
    as [_ W].
  destruct (W eq_refl ltac:(vm_compute; discriminate))
    as (o' & E & K1 & K2 & _ & _ & _ & K6).
  exists o'. split; [exact E|]. split; [exact K1|]. split; [exact K2|].
  split; [|exact K6].
  vm_compute in E. injection E as <-. reflexivity.
Defined.

Lemma initTraining_keeps_invariant_witness :
  let m : HMM float :=
    upd_transitionMode_ (fun _ => ERGODIC)
      (Sample.model false 2 [1; 0]%float [0.5; 0.5; 0; 1]%float) in
  exists m', initTraining (EmissionModel0 := Sample.gmm fzero) m = Ok m' /\
    well_formed m' /\ prior_ m' = [0.5; 0.5]%float.
Proof.
  intros m.
  assert (Hwf : well_formed m) by (split; try reflexivity; vm_compute;
                                    split; [discriminate|reflexivity]).
  destruct (initTraining_keeps_invariant (EmissionModel0 := Sample.gmm fzero)
              m Hwf) as [W0 W].
  specialize (W0 eq_refl).
  destruct (initTraining (EmissionModel0 := Sample.gmm fzero) m) as [m'| | |];
    try contradiction.
  exists m'. split; [reflexivity|].
  destruct (W m' eq_refl) as (W1 & _ & _ & _ & _ & W6).
  split; [exact W1|]. rewrite W6. reflexivity.
Defined.

Lemma backward_recursion_witness :
  let m : HMM float :=
    upd_beta_ (fun _ => [1; 3]%float)
      (Sample.model false 2 [1; 0]%float [0.5; 0.5; 0; 1]%float) in
  backward_update (EmissionModel0 := Sample.gmm 0.5%float) 2%float [] None m
  = Ok (upd_beta_ (fun _ => [2; 3]%float)
          (upd_previousBeta_ (fun _ => [1; 3]%float) m)).
Proof.
  intros m.
  assert (Hwf : well_formed m) by (split; try reflexivity; vm_compute;
                                    split; [discriminate|reflexivity]).
  rewrite (backward_recursion (EmissionModel0 := Sample.gmm 0.5%float)
             m 2%float [] None Hwf).
  vm_compute. reflexivity.
Defined.

Lemma sample_has_means (mu : list float) (N D : nat) :
  (D <= length mu)%nat ->
  has_means (replicate N (SamplePlay.state mu)) N D.
Proof.
  intros HD n Hn. exists (SamplePlay.state mu), {| mean := mu; covariance := [] |}.
  split; [apply lookup_replicate_2, Hn|]. split; [reflexivity|exact HD].
Qed.

Lemma initMeansWithFirstPhrase_segments_witness :
  let ts : TrainingSet float :=
    {| phrases := [(0, SamplePlay.frames [1; 3; 5; 7; 100]%float)] |} in
  let m : HMM float :=
    Sample.with_training [SamplePlay.frames [1; 3; 5; 7; 100]%float]
      (upd_states_ (fun _ => replicate 2 (SamplePlay.state [9%float]))
         (Sample.model false 2 [1; 0]%float [0.5; 0.5; 0; 1]%float)) in
  exists st,
    initMeansWithFirstPhrase m = Ok (upd_states_ (fun _ => st) m) /\
    get_mean st 0 0 0 = 2%float /\ get_mean st 1 0 0 = 6%float.
Proof.
  intros ts m.
  assert (Hwf : well_formed m) by (split; try reflexivity; vm_compute;
                                    split; [discriminate|reflexivity]).
  assert (Hs : has_means (states_ m) (nbS m) (dim m))
    by (apply (sample_has_means [9%float] 2 1); simpl; lia).
  destruct (initMeansWithFirstPhrase_segments m ts Hwf Hs eq_refl) as [_ W].
  destruct (W (SamplePlay.frames [1; 3; 5; 7; 100]%float) eq_refl)
    as (st & E & G).
  exists st. split; [exact E|].
  split; rewrite G by (vm_compute; lia); vm_compute; reflexivity.
Defined.

Lemma initMeansWithFirstPhrase_short_phrase_witness :
  let m : HMM float :=
    Sample.with_training [SamplePlay.frames [1%float]]
      (upd_states_ (fun _ => replicate 2 (SamplePlay.state [9%float]))
         (Sample.model false 2 [1; 0]%float [0.5; 0.5; 0; 1]%float)) in
  exists st,
    initMeansWithFirstPhrase m = Ok (upd_states_ (fun _ => st) m) /\
    fisnan (get_mean st 0 0 0) = true /\ fisnan (get_mean st 1 0 0) = true.
Proof.
  intros m.
  assert (Hwf : well_formed m) by (split; try reflexivity; vm_compute;
                                    split; [discriminate|reflexivity]).
  assert (Hs : has_means (states_ m) (nbS m) (dim m))
    by (apply (sample_has_means [9%float] 2 1); simpl; lia).
  destruct (initMeansWithFirstPhrase_short_phrase m
              {| phrases := [(0, SamplePlay.frames [1%float])] |}
              (SamplePlay.frames [1%float]) Hwf Hs eq_refl eq_refl
              ltac:(vm_compute; split; [discriminate|reflexivity]))
    as (st & E & G).
  exists st. split; [exact E|].
  split; apply G; vm_compute; lia.
Defined.
